(** * MyVue: a shallow embedding of the reactive runtime (src/MyVue.js)

    The JavaScript module keeps its state in module-level variables
    ([targetMap], [activeEffect], [effectStack], [updateQueue], ...).  Here
    that state is one record, [state], threaded explicitly through every
    operation.  User supplied functions (effect bodies, watch callbacks,
    next-tick callbacks) are trees of the operations they can perform on
    the runtime, [prog]; the runtime functions themselves ([track],
    [trigger], [ReactiveEffect.run], [nextTick], ...) are Rocq functions
    following the source line by line.

    Re-entrancy (a scheduler running an effect whose body writes a record
    whose subscribers have schedulers, ...) is bounded by a fuel argument
    that counts the depth of nested calls. *)

From Stdlib Require Import ZArith Lia.
From stdpp Require Import base decidable option list gmap strings fin_maps relations.

Set Warnings "-register-all".

(** ** JavaScript values held in reactive records *)

Inductive value :=
| VUndef
| VNull
| VBool (b : bool)
| VNum (z : Z)
| VStr (s : string).

#[global] Instance value_eq_dec : EqDecision value.
Proof. solve_decision. Defined.

(** Identities.  A raw record, an effect, a computed cell, a watcher and a
    promise are objects in JavaScript, compared by reference; each gets a
    natural number, its index in the table of the state that holds it. *)
Abbreviation target := nat (only parsing).
Abbreviation key := string (only parsing).
Abbreviation eid := nat (only parsing).
Abbreviation cid := nat (only parsing).
Abbreviation wid := nat (only parsing).
Abbreviation pid := nat (only parsing).
Abbreviation bucket_ref := (nat * string)%type (only parsing).

(** ** User code

    What a user function may do to the runtime: read or write a property
    of an observed record (the Proxy [get] and [set] traps), read the
    [value] of a computed handle, call [nextTick], record an observation,
    return, or raise. *)
Inductive prog :=
| Ret (v : value)
| Throw (x : value)
| Emit (v : value) (k : prog)
| Get (t : target) (f : key) (k : value → prog)
| Put (t : target) (f : key) (v : value) (k : prog)
| GetComputed (c : cid) (k : value → prog)
| NextTick (fn : option prog) (k : pid → prog).

(** ** The module state *)

(** The two scheduler closures the module ever builds: the one of
    [computed] and the one of [watch]. *)
Inductive sched :=
| SComputed (c : cid)
| SWatch (w : wid).

(** [class ReactiveEffect { fn; deps; scheduler }].  [deps] is a [Set] of
    buckets; a bucket, once created for (target, key), is never replaced,
    so a reference to it is the pair.  [deps_length] is the ordinary
    property [length] that [cleanup] assigns on that [Set] object. *)
Record ReactiveEffect := mkEffect {
  fn : prog;
  deps : list bucket_ref;
  deps_length : option Z;
  scheduler : option sched
}.

(** The closure variables of one [computed(gatter)] call. *)
Record computed_cell := mkComputed {
  computedObj : target;
  computedEffect : eid;
  dirty : bool;
  cacheValue : value
}.

(** The closure variables of one [watch(gatter, cb)] call. *)
Record watcher := mkWatcher {
  watchEffect_of : eid;
  cb : value → value → prog;
  ov : value
}.

Inductive task :=
| FlushUpdate
| FlushTick (p : pid).

#[global] Instance task_eq_dec : EqDecision task.
Proof. solve_decision. Defined.

Inductive promise :=
| Pending
| Fulfilled
| Rejected (x : value).

#[global] Instance promise_eq_dec : EqDecision promise.
Proof. solve_decision. Defined.

(** Observations.  [EvEmit] is produced by user code; the others are
    instrumentation: [EvRun e] when [run] calls [this.fn()], [EvGet] and
    [EvSet] in the Proxy traps, [EvTick] when a next-tick callback is
    invoked, [EvUncaught] when a microtask ends by an exception. *)
Inductive event :=
| EvRun (e : eid)
| EvGet (t : target) (f : key) (v : value)
| EvSet (t : target) (f : key) (v : value)
| EvEmit (v : value)
| EvTick
| EvUncaught (x : value).

#[global] Instance event_eq_dec : EqDecision event.
Proof. solve_decision. Defined.

Record state := mkState {
  heap : list (gmap string value);
  targetMap : gmap nat (gmap string (list nat));
  effects : list ReactiveEffect;
  activeEffect : option eid;
  effectStack : list eid;
  updatePendding : bool;
  updateQueue : list eid;
  computeds : list computed_cell;
  watchers : list watcher;
  nextTickPending : bool;
  nextTickCallbacks : list (option prog);
  promises : list promise;
  microtasks : list task;
  trace : list event
}.

Definition init : state :=
  mkState [] ∅ [] None [] false [] [] [] false [] [] [] [].

(** Field updates. *)
Definition set_heap (g : list (gmap string value) → list (gmap string value)) (s : state) : state :=
  mkState (g (heap s)) (targetMap s) (effects s) (activeEffect s) (effectStack s)
    (updatePendding s) (updateQueue s) (computeds s) (watchers s)
    (nextTickPending s) (nextTickCallbacks s) (promises s) (microtasks s) (trace s).

Definition set_targetMap (g : gmap nat (gmap string (list nat)) → gmap nat (gmap string (list nat))) (s : state) : state :=
  mkState (heap s) (g (targetMap s)) (effects s) (activeEffect s) (effectStack s)
    (updatePendding s) (updateQueue s) (computeds s) (watchers s)
    (nextTickPending s) (nextTickCallbacks s) (promises s) (microtasks s) (trace s).

Definition set_effects (g : list ReactiveEffect → list ReactiveEffect) (s : state) : state :=
  mkState (heap s) (targetMap s) (g (effects s)) (activeEffect s) (effectStack s)
    (updatePendding s) (updateQueue s) (computeds s) (watchers s)
    (nextTickPending s) (nextTickCallbacks s) (promises s) (microtasks s) (trace s).

Definition set_active (a : option eid) (g : list eid → list eid) (s : state) : state :=
  mkState (heap s) (targetMap s) (effects s) a (g (effectStack s))
    (updatePendding s) (updateQueue s) (computeds s) (watchers s)
    (nextTickPending s) (nextTickCallbacks s) (promises s) (microtasks s) (trace s).

Definition set_update (b : bool) (g : list eid → list eid) (s : state) : state :=
  mkState (heap s) (targetMap s) (effects s) (activeEffect s) (effectStack s)
    b (g (updateQueue s)) (computeds s) (watchers s)
    (nextTickPending s) (nextTickCallbacks s) (promises s) (microtasks s) (trace s).

Definition set_computeds (g : list computed_cell → list computed_cell) (s : state) : state :=
  mkState (heap s) (targetMap s) (effects s) (activeEffect s) (effectStack s)
    (updatePendding s) (updateQueue s) (g (computeds s)) (watchers s)
    (nextTickPending s) (nextTickCallbacks s) (promises s) (microtasks s) (trace s).

Definition set_watchers (g : list watcher → list watcher) (s : state) : state :=
  mkState (heap s) (targetMap s) (effects s) (activeEffect s) (effectStack s)
    (updatePendding s) (updateQueue s) (computeds s) (g (watchers s))
    (nextTickPending s) (nextTickCallbacks s) (promises s) (microtasks s) (trace s).

Definition set_tick (b : bool) (g : list (option prog) → list (option prog)) (s : state) : state :=
  mkState (heap s) (targetMap s) (effects s) (activeEffect s) (effectStack s)
    (updatePendding s) (updateQueue s) (computeds s) (watchers s)
    b (g (nextTickCallbacks s)) (promises s) (microtasks s) (trace s).

Definition set_promises (g : list promise → list promise) (s : state) : state :=
  mkState (heap s) (targetMap s) (effects s) (activeEffect s) (effectStack s)
    (updatePendding s) (updateQueue s) (computeds s) (watchers s)
    (nextTickPending s) (nextTickCallbacks s) (g (promises s)) (microtasks s) (trace s).

Definition set_microtasks (g : list task → list task) (s : state) : state :=
  mkState (heap s) (targetMap s) (effects s) (activeEffect s) (effectStack s)
    (updatePendding s) (updateQueue s) (computeds s) (watchers s)
    (nextTickPending s) (nextTickCallbacks s) (promises s) (g (microtasks s)) (trace s).

Definition log (ev : event) (s : state) : state :=
  mkState (heap s) (targetMap s) (effects s) (activeEffect s) (effectStack s)
    (updatePendding s) (updateQueue s) (computeds s) (watchers s)
    (nextTickPending s) (nextTickCallbacks s) (promises s) (microtasks s) (trace s ++ [ev]).

(** Updates of the closure variables and of the fields of an effect. *)
Definition mark_dirty (cc : computed_cell) : computed_cell :=
  mkComputed (computedObj cc) (computedEffect cc) true (cacheValue cc).

Definition store_cache (v : value) (cc : computed_cell) : computed_cell :=
  mkComputed (computedObj cc) (computedEffect cc) false v.

Definition store_ov (nv : value) (wr : watcher) : watcher :=
  mkWatcher (watchEffect_of wr) (cb wr) nv.

Definition with_deps (g : list bucket_ref → list bucket_ref) (eff : ReactiveEffect) : ReactiveEffect :=
  mkEffect (fn eff) (g (deps eff)) (deps_length eff) (scheduler eff).

Definition with_length (z : Z) (eff : ReactiveEffect) : ReactiveEffect :=
  mkEffect (fn eff) (deps eff) (Some z) (scheduler eff).

(** What a call leaves behind: a result, an exception, or no answer within
    the given depth. *)
Inductive outcome :=
| Ok (v : value) (s : state)
| Err (x : value) (s : state)
| OutOfFuel.

(** ** Observed records: [reactive], [track], [trigger] *)

(** [Set.prototype.add]: insertion order is kept, a member is not added
    twice. *)
Definition set_add `{EqDecision A} (x : A) (l : list A) : list A :=
  if decide (x ∈ l) then l else l ++ [x].

(** [Set.prototype.delete]. *)
Definition set_delete `{EqDecision A} (x : A) (l : list A) : list A :=
  filter (λ y, y ≠ x) l.

(** [Reflect.get(target, key)]: [undefined] for a missing property. *)
Definition reflect_get (t : target) (f : key) (s : state) : value :=
  default VUndef (heap s !! t ≫= λ r, r !! f).

(** [Reflect.set(target, key, value)]. *)
Definition reflect_set (t : target) (f : key) (v : value) (s : state) : state :=
  set_heap (alter (λ r, <[f := v]> r) t) s.

(** The bucket of (target, key), when both maps have an entry. *)
Definition bucket (s : state) (t : target) (f : key) : option (list eid) :=
  targetMap s !! t ≫= λ depMap, depMap !! f.

(** [function track(target, key)]. *)
Definition track (t : target) (f : key) (s : state) : state :=
  match activeEffect s with
  | None => s
  | Some e =>
      let depMap := default ∅ (targetMap s !! t) in
      let depSet := default [] (depMap !! f) in
      set_effects
        (alter (with_deps (set_add (t, f))) e)
        (set_targetMap (λ tm, <[t := <[f := set_add e depSet]> depMap]> tm) s)
  end.

(** [updateQueue.add(effect)]. *)
Definition enqueue (e : eid) (s : state) : state :=
  set_update (updatePendding s) (set_add e) s.

(** [updatePendding = true; queueMicrotask(...)]. *)
Definition schedule_flush (s : state) : state :=
  set_microtasks (λ q, q ++ [FlushUpdate]) (set_update true id s).

Definition scheduler_of (s : state) (e : eid) : option sched :=
  effects s !! e ≫= scheduler.

(** [ReactiveEffect.prototype.cleanup]: the effect leaves every bucket of
    [deps]; then [this.deps.length = 0], which on a [Set] defines a
    property named [length] and removes no member. *)
Definition bucket_delete (e : eid) (tm : gmap nat (gmap string (list nat))) (d : bucket_ref)
  : gmap nat (gmap string (list nat)) :=
  alter (alter (set_delete e) d.2) d.1 tm.

Definition cleanup (e : eid) (s : state) : state :=
  match effects s !! e with
  | None => s
  | Some eff =>
      set_effects
        (alter (with_length 0) e)
        (set_targetMap (λ tm, foldl (bucket_delete e) tm (deps eff)) s)
  end.

(** The calls that re-enter the runtime from inside user code. *)
Inductive call :=
| CExec (p : prog)
| CRun (e : eid)
| CTrigger (t : target) (f : key).

Section Bodies.
(** [rec] answers the nested calls, one level deeper. *)
Variable rec : call → state → outcome.

(** The scheduler of [computed]: [dirty = true; trigger(computedObj, 'value')];
    the scheduler of [watch]: [nv = watchEffect.run(); cb(nv, ov); ov = nv]. *)
Definition run_scheduler (sch : sched) (s : state) : outcome :=
  match sch with
  | SComputed c =>
      match computeds s !! c with
      | None => Ok VUndef s
      | Some cc =>
          rec (CTrigger (computedObj cc) "value")
            (set_computeds (alter mark_dirty c) s)
      end
  | SWatch w =>
      match watchers s !! w with
      | None => Ok VUndef s
      | Some wr =>
          match rec (CRun (watchEffect_of wr)) s with
          | Ok nv s1 =>
              let old := default VUndef (ov <$> watchers s1 !! w) in
              match rec (CExec (cb wr nv old)) s1 with
              | Ok _ s2 =>
                  Ok VUndef (set_watchers (alter (store_ov nv) w) s2)
              | o => o
              end
          | o => o
          end
      end
  end.

(** [effects.forEach(effect => ...)] over the snapshot of the bucket. *)
Fixpoint notify (effs : list eid) (s : state) : outcome :=
  match effs with
  | [] => Ok VUndef s
  | e :: rest =>
      match scheduler_of s e with
      | Some sch =>
          match run_scheduler sch s with
          | Ok _ s1 => notify rest s1
          | o => o
          end
      | None => notify rest (enqueue e s)
      end
  end.

(** [function trigger(target, key)]. *)
Definition trigger_body (t : target) (f : key) (s : state) : outcome :=
  match targetMap s !! t with
  | None => Ok VUndef s
  | Some depMap =>
      match depMap !! f with
      | None => Ok VUndef s
      | Some depSet =>
          match notify depSet s with
          | Ok _ s1 => Ok VUndef (if updatePendding s1 then s1 else schedule_flush s1)
          | o => o
          end
      end
  end.

(** The getter of the handle returned by [computed]. *)
Definition read_computed (c : cid) (s : state) : outcome :=
  match computeds s !! c with
  | None => Ok VUndef s
  | Some cc =>
      let s1 := track (computedObj cc) "value" s in
      if dirty cc then
        match rec (CRun (computedEffect cc)) s1 with
        | Ok v s2 =>
            Ok v (set_computeds (alter (store_cache v) c) s2)
        | o => o
        end
      else Ok (cacheValue cc) s1
  end.

(** [export const nextTick = (fn) => ...]: the callback is pushed, a new
    promise is returned, and only when no flush is pending does the
    executor schedule the job that will settle this promise. *)
Definition nextTick (cbfn : option prog) (s : state) : pid * state :=
  let s1 := set_tick (nextTickPending s) (λ l, l ++ [cbfn]) s in
  let p := length (promises s1) in
  let s2 := set_promises (λ l, l ++ [Pending]) s1 in
  if nextTickPending s2 then (p, s2)
  else (p, set_microtasks (λ q, q ++ [FlushTick p]) (set_tick true id s2)).

(** A user function, one operation after the other. *)
Fixpoint exec_body (p : prog) (s : state) : outcome :=
  match p with
  | Ret v => Ok v s
  | Throw x => Err x s
  | Emit v k => exec_body k (log (EvEmit v) s)
  | Get t f k =>
      let s1 := track t f s in
      let v := reflect_get t f s1 in
      exec_body (k v) (log (EvGet t f v) s1)
  | Put t f v k =>
      match trigger_body t f (log (EvSet t f v) (reflect_set t f v s)) with
      | Ok _ s1 => exec_body k s1
      | o => o
      end
  | GetComputed c k =>
      match read_computed c s with
      | Ok v s1 => exec_body (k v) s1
      | o => o
      end
  | NextTick cbfn k =>
      let '(p, s1) := nextTick cbfn s in exec_body (k p) s1
  end.

(** [ReactiveEffect.prototype.run]: cleanup, push, call [fn]; the
    [finally] block pops and restores whatever is on top. *)
Definition begin_run (e : eid) (s : state) : state :=
  log (EvRun e) (set_active (Some e) (λ st, st ++ [e]) (cleanup e s)).

Definition end_run (s : state) : state :=
  set_active (last (removelast (effectStack s))) (λ st, removelast st) s.

Definition run_body (e : eid) (s : state) : outcome :=
  match effects s !! e with
  | None => Ok VUndef s
  | Some eff =>
      match exec_body (fn eff) (begin_run e s) with
      | Ok v s1 => Ok v (end_run s1)
      | Err x s1 => Err x (end_run s1)
      | OutOfFuel => OutOfFuel
      end
  end.
End Bodies.

(** ** Nested calls, bounded in depth *)

Fixpoint step (n : nat) (c : call) (s : state) : outcome :=
  match n with
  | 0 => OutOfFuel
  | S n' =>
      match c with
      | CExec p => exec_body (step n') p s
      | CRun e => run_body (step n') e s
      | CTrigger t f => trigger_body (step n') t f s
      end
  end.

Definition exec (n : nat) (p : prog) (s : state) : outcome := exec_body (step n) p s.
Definition run (n : nat) (e : eid) (s : state) : outcome := run_body (step n) e s.
Definition trigger (n : nat) (t : target) (f : key) (s : state) : outcome := trigger_body (step n) t f s.

(** ** The update scheduler *)

(** [updateQueue.forEach(effect => effect.run())].  [Set.prototype.forEach]
    visits the members in insertion order, those added during the visit
    included; nothing is deleted from [updateQueue] while it is visited,
    so the visit is by position. *)
Fixpoint drain (n : nat) (i : nat) (s : state) : outcome :=
  match n with
  | 0 => OutOfFuel
  | S n' =>
      match updateQueue s !! i with
      | None => Ok VUndef s
      | Some e =>
          match run n' e s with
          | Ok _ s1 => drain n' (S i) s1
          | o => o
          end
      end
  end.

(** The microtask queued by [trigger]:
    [updatePendding = false; updateQueue.forEach(...); updateQueue.clear()]. *)
Definition flush_update (n : nat) (s : state) : outcome :=
  match drain n 0 (set_update false id s) with
  | Ok v s1 => Ok v (set_update (updatePendding s1) (λ _, []) s1)
  | o => o
  end.

(** [copies.forEach(cb => cb())], each [cb] being [() => { if (fn) fn() }]. *)
Fixpoint run_callbacks (n : nat) (copies : list (option prog)) (s : state) : outcome :=
  match copies with
  | [] => Ok VUndef s
  | cbfn :: rest =>
      match cbfn with
      | None => run_callbacks n rest (log EvTick s)
      | Some p =>
          match exec n p (log EvTick s) with
          | Ok _ s1 => run_callbacks n rest s1
          | o => o
          end
      end
  end.

(** [function flushCallbacks()]. *)
Definition flushCallbacks (n : nat) (s : state) : outcome :=
  run_callbacks n (nextTickCallbacks s) (set_tick false (λ _, []) s).

(** [resolve()] and [reject(error)] of one promise; a settled promise
    stays as it is. *)
Definition settle (p : pid) (r : promise) (s : state) : state :=
  set_promises (alter (λ old, match old with Pending => r | _ => old end) p) s.

(** One microtask.  The job of [nextTick] catches what [flushCallbacks]
    raises and rejects its promise; an exception that leaves the flush of
    the update queue is uncaught and reported by the host. *)
Definition run_task (n : nat) (t : task) (s : state) : option state :=
  match t with
  | FlushUpdate =>
      match flush_update n s with
      | Ok _ s1 => Some s1
      | Err x s1 => Some (log (EvUncaught x) s1)
      | OutOfFuel => None
      end
  | FlushTick p =>
      match flushCallbacks n s with
      | Ok _ s1 => Some (settle p Fulfilled s1)
      | Err x s1 => Some (settle p (Rejected x) s1)
      | OutOfFuel => None
      end
  end.

(** The host takes the first microtask off its queue and runs it. *)
Definition next_microtask (n : nat) (s : state) : option state :=
  match microtasks s with
  | [] => Some s
  | t :: _ => run_task n t (set_microtasks tail s)
  end.

(** The host empties the microtask queue, first in, first out. *)
Fixpoint run_microtasks (n : nat) (s : state) : option state :=
  match n with
  | 0 => None
  | S n' =>
      match microtasks s with
      | [] => Some s
      | _ =>
          match next_microtask n' s with
          | Some s1 => run_microtasks n' s1
          | None => None
          end
      end
  end.

(** ** The exported constructors *)

(** [reactive(obj)]: the record is stored, its identity returned. *)
Definition reactive (obj : gmap string value) (s : state) : target * state :=
  (length (heap s), set_heap (λ h, h ++ [obj]) s).

(** The handle returned by [ref] and by [computed]: an object with the
    data property [__v_isRef] and an accessor [value]. *)
Inductive accessor :=
| RefValue (t : target)
| ComputedValue (c : cid).

Record handle := mkHandle {
  __v_isRef : bool;
  value_accessor : accessor
}.

(** [ref(value)]. *)
Definition ref (v : value) (s : state) : handle * state :=
  let '(wrappedValue, s1) := reactive {[ "value" := v ]} s in
  (mkHandle true (RefValue wrappedValue), s1).

(** [get value()] and [set value(newVal)] of a handle, as user code; the
    handle of [computed] has no setter, and the assignment raises in
    strict mode. *)
Definition get_value (h : handle) (k : value → prog) : prog :=
  match value_accessor h with
  | RefValue t => Get t "value" k
  | ComputedValue c => GetComputed c k
  end.

Definition set_value (h : handle) (newVal : value) (k : prog) : prog :=
  match value_accessor h with
  | RefValue t => Put t "value" newVal k
  | ComputedValue _ => Throw (VStr "TypeError")
  end.

Definition new_effect (body : prog) (sch : option sched) (s : state) : eid * state :=
  (length (effects s), set_effects (λ l, l ++ [mkEffect body [] None sch]) s).

(** [computed(gatter)]. *)
Definition computed (gatter : prog) (s : state) : handle * state :=
  let c := length (computeds s) in
  let '(obj, s1) := reactive {[ "value" := VNull ]} s in
  let '(e, s2) := new_effect gatter (Some (SComputed c)) s1 in
  (mkHandle true (ComputedValue c),
   set_computeds (λ l, l ++ [mkComputed obj e true VUndef]) s2).

(** [watch(gatter, cb)]: the effect runs once, its result is the first
    [ov]; the disposer is [() => watchEffect.cleanup()]. *)
Definition watch (n : nat) (gatter : prog) (callback : value → value → prog) (s : state)
  : option (eid * outcome) :=
  let w := length (watchers s) in
  let '(e, s1) := new_effect gatter (Some (SWatch w)) s in
  let s2 := set_watchers (λ l, l ++ [mkWatcher e callback VUndef]) s1 in
  match run n e s2 with
  | Ok v s3 =>
      Some (e, Ok VUndef (set_watchers (alter (store_ov v) w) s3))
  | Err x s3 => Some (e, Err x s3)
  | OutOfFuel => None
  end.

(** [watchEffect(gatter)]. *)
Definition watchEffect (n : nat) (gatter : prog) (s : state) : option (eid * outcome) :=
  let '(e, s1) := new_effect gatter None s in
  match run n e s1 with
  | OutOfFuel => None
  | o => Some (e, o)
  end.

(** The disposer returned by [watch] and by [watchEffect]. *)
Definition dispose (e : eid) (s : state) : state := cleanup e s.

(** ** What user code can do to the state

    Every change a nested call makes is one of the following.  With
    [top = false] a run is that of an effect with a scheduler: the only
    runs that user code can start, through a computed handle or a watcher
    being notified. *)

Definition keeps_computed (g : computed_cell → computed_cell) : Prop :=
  ∀ cc, computedObj (g cc) = computedObj cc ∧ computedEffect (g cc) = computedEffect cc.

Definition keeps_watcher (g : watcher → watcher) : Prop :=
  ∀ wr, watchEffect_of (g wr) = watchEffect_of wr ∧ cb (g wr) = cb wr.

Inductive prim (top : bool) : state → state → Prop :=
| prim_track t f s : prim top s (track t f s)
| prim_get t f s : prim top s (log (EvGet t f (reflect_get t f s)) s)
| prim_put t f v s : prim top s (log (EvSet t f v) (reflect_set t f v s))
| prim_emit v s : prim top s (log (EvEmit v) s)
| prim_enqueue e s : scheduler_of s e = None → prim top s (enqueue e s)
| prim_schedule s : updatePendding s = false → prim top s (schedule_flush s)
| prim_computed g c s : keeps_computed g → prim top s (set_computeds (alter g c) s)
| prim_watcher g w s : keeps_watcher g → prim top s (set_watchers (alter g w) s)
| prim_nextTick cbfn s : prim top s (nextTick cbfn s).2
| prim_begin e s : top = true ∨ is_Some (scheduler_of s e) → prim top s (begin_run e s)
| prim_end s : prim top s (end_run s).

(** The effects that closures hold on to have the scheduler of their
    closure, and only effects without one wait in the update queue. *)
Record wf (s : state) : Prop := mkWf {
  wf_computeds : ∀ c cc, computeds s !! c = Some cc → is_Some (scheduler_of s (computedEffect cc));
  wf_watchers : ∀ w wr, watchers s !! w = Some wr → is_Some (scheduler_of s (watchEffect_of wr));
  wf_queue : ∀ x, x ∈ updateQueue s → scheduler_of s x = None
}.

(** ** Every nested call is a sequence of such changes *)

Definition call_ok (s : state) (c : call) : Prop :=
  match c with
  | CRun e => is_Some (scheduler_of s e)
  | _ => True
  end.

Definition after (P : state → Prop) (o : outcome) : Prop :=
  match o with
  | Ok _ s' | Err _ s' => P s'
  | OutOfFuel => True
  end.

Definition sound (rec : call → state → outcome) : Prop :=
  ∀ c s, wf s → call_ok s c → after (rtc (prim false) s) (rec c s).

(** ** Cleanup and the registry *)

Definition lookup2 (tm : gmap nat (gmap string (list nat))) (t : nat) (f : string) : option (list nat) :=
  tm !! t ≫= λ depMap, depMap !! f.

(** The events a change may append, and what each says about the state
    before it. *)
Definition logged (top : bool) (s : state) (ev : event) (s' : state) : Prop :=
  match ev with
  | EvRun e => heap s' = heap s ∧ (top = true ∨ is_Some (scheduler_of s e))
  | EvGet t f w => heap s' = heap s ∧ w = reflect_get t f s
  | EvSet t f v => heap s' = heap (reflect_set t f v s)
  | EvEmit _ => heap s' = heap s
  | EvTick | EvUncaught _ => False
  end.

(** How often the function of effect [e] has been called. *)
Definition runs_of (e : eid) (tr : list event) : nat :=
  length (filter (λ ev, ev = EvRun e) tr).


(** ** Writes whose subscribers have no scheduler *)

(** [N] synchronous assignments to one property. *)
Definition writes (t : target) (f : key) (vs : list value) : prog :=
  foldr (λ v k, Put t f v k) (Ret VUndef) vs.



(** ** What a read of the property sees until it is assigned again *)




(** ** Effects that only read *)

Inductive reader : prog → Prop :=
| reader_ret v : reader (Ret v)
| reader_emit v k : reader k → reader (Emit v k)
| reader_get t f k : (∀ v, reader (k v)) → reader (Get t f k).


(** ** Computed handles *)


(** [N] reads of the [value] of computed handle [c], one after the
    other; the result is that of the last. *)
Fixpoint read_times (c : cid) (N : nat) : prog :=
  match N with
  | 0 => Ret VUndef
  | 1 => GetComputed c Ret
  | S N' => GetComputed c (λ _, read_times c N')
  end.



(** ** Concrete programs *)

Definition bump (v : value) : value :=
  match v with
  | VNum z => VNum (z + 1)
  | _ => VUndef
  end.

Definition state_after (o : option (eid * outcome)) : state :=
  match o with
  | Some (_, Ok _ s) => s
  | Some (_, Err _ s) => s
  | _ => init
  end.

Definition outcome_state (o : outcome) : state :=
  match o with
  | Ok _ s | Err _ s => s
  | OutOfFuel => init
  end.

Definition emits (tr : list event) : list value :=
  omap (λ ev, match ev with EvEmit v => Some v | _ => None end) tr.

(** [state = reactive({a: 0, b: 0})];
    [watchEffect(() => emit(state.a))];
    [watchEffect(() => { state.a = state.b + 1 })]; then the microtasks
    of that tick have run. *)
Definition reentrant_setup : state :=
  let s0 := (reactive {[ "a" := VNum 0; "b" := VNum 0 ]} init).2 in
  let s1 := state_after (watchEffect 2 (Get 0 "a" (λ v, Emit v (Ret VUndef))) s0) in
  let s2 := state_after (watchEffect 2 (Get 0 "b" (λ v, Put 0 "a" (bump v) (Ret VUndef))) s1) in
  default init (run_microtasks 4 s2).

(** [state.a = 5; state.b = 10], synchronously. *)
Definition reentrant_writes : state :=
  outcome_state (exec 1 (Put 0 "a" (VNum 5) (Put 0 "b" (VNum 10) (Ret VUndef))) reentrant_setup).

(** [state = reactive({flag: true, a: 1, b: 2})];
    [watchEffect(() => emit(state.flag ? state.a : state.b))];
    [state.flag = false]; the flush has run. *)
Definition branching : prog :=
  Get 0 "flag" (λ v,
    match v with
    | VBool true => Get 0 "a" (λ x, Emit x (Ret VUndef))
    | _ => Get 0 "b" (λ x, Emit x (Ret VUndef))
    end).

Definition stale_setup : state :=
  let s0 := (reactive {[ "flag" := VBool true; "a" := VNum 1; "b" := VNum 2 ]} init).2 in
  state_after (watchEffect 2 branching s0).

Definition stale_final : state :=
  let s1 := outcome_state (exec 1 (Put 0 "flag" (VBool false) (Ret VUndef)) stale_setup) in
  default init (run_microtasks 3 s1).

(** The keys read by the last run of an effect: the [EvGet] events after
    its last [EvRun]. *)
Fixpoint touched_since_run (e : eid) (tr : list event) (acc : list bucket_ref) : list bucket_ref :=
  match tr with
  | [] => acc
  | EvRun x :: tr' => touched_since_run e tr' (if decide (x = e) then [] else acc)
  | EvGet t f _ :: tr' => touched_since_run e tr' (set_add (t, f) acc)
  | _ :: tr' => touched_since_run e tr' acc
  end.

(** Two calls of [nextTick] in one tick. *)
Definition two_ticks : state :=
  outcome_state (exec 0 (NextTick None (λ _, NextTick None (λ _, Ret VUndef))) init).

(** Three callbacks registered in one tick; the second raises. *)
Definition three_callbacks : state :=
  outcome_state (exec 0
    (NextTick (Some (Emit (VNum 1) (Ret VUndef))) (λ _,
     NextTick (Some (Throw (VStr "boom"))) (λ _,
     NextTick (Some (Emit (VNum 3) (Ret VUndef))) (λ _, Ret VUndef)))) init).

Definition ticks (tr : list event) : nat :=
  length (filter (λ ev, ev = EvTick) tr).

(** ** The next-tick queue *)

Definition is_tick (t : task) : bool :=
  match t with
  | FlushTick _ => true
  | FlushUpdate => false
  end.

(** The flag says whether a job of [nextTick] waits in the microtask
    queue, and there is never more than one. *)
Definition tick_consistent (s : state) : Prop :=
  length (filter is_tick (microtasks s)) = if nextTickPending s then 1 else 0.

(** What the callbacks of one flush keep. *)
Record flush_inv (s s' : state) : Prop := mkFlushInv {
  fi_wf : wf s → wf s';
  fi_tick : tick_consistent s → tick_consistent s';
  fi_promises : promises s `prefix_of` promises s'
}.

(** ** [isRef] *)

(** What [isRef] may be applied to. *)
Inductive jsval :=
| JPrim (v : value)
| JHandle (h : handle)
| JObject (props : gmap string value).

Inductive completion (A : Type) :=
| Normal (a : A)
| Thrown (error : string).
Arguments Normal {A} a.
Arguments Thrown {A} error.

(** [ToBoolean]. *)
Definition to_boolean (v : jsval) : bool :=
  match v with
  | JPrim VUndef | JPrim VNull => false
  | JPrim (VBool b) => b
  | JPrim (VNum z) => negb (Z.eqb z 0)
  | JPrim (VStr s) => negb (String.eqb s "")
  | JHandle _ | JObject _ => true
  end.

(** [obj.name]: a [TypeError] on [null] and [undefined]. *)
Definition get_member (obj : jsval) (name : string) : completion jsval :=
  match obj with
  | JPrim VUndef | JPrim VNull => Thrown "TypeError"
  | JPrim _ => Normal (JPrim VUndef)
  | JHandle h =>
      if String.eqb name "__v_isRef" then Normal (JPrim (VBool (__v_isRef h)))
      else Normal (JPrim VUndef)
  | JObject props => Normal (JPrim (default VUndef (props !! name)))
  end.

(** [obj?.name]: [undefined] on [null] and [undefined]. *)
Definition optional_member (obj : jsval) (name : string) : completion jsval :=
  match obj with
  | JPrim VUndef | JPrim VNull => Normal (JPrim VUndef)
  | _ => get_member obj name
  end.

(** [function isRef(obj) { return !!obj?.__v_isRef }]. *)
Definition isRef (obj : jsval) : completion bool :=
  match optional_member obj "__v_isRef" with
  | Normal v => Normal (to_boolean v)
  | Thrown e => Thrown e
  end.

(** ** Lifecycle hooks *)

Module Lifecycle.
Section Hooks.
Variable hook : Type.

(** [createHookQueue()]. *)
Record hook_queue := mkHooks {
  mounted : list hook;
  updated : list hook
}.

Definition createHookQueue : hook_queue := mkHooks [] [].

(** The fields of [class ComponentInstance] that the registration
    functions use. *)
Record ComponentInstance := mkInstance {
  hooks : hook_queue;
  isMounted : bool
}.

Definition new_instance : ComponentInstance := mkInstance createHookQueue false.

(** The instances created so far and [let currentInstance]. *)
Record lstate := mkLState {
  instances : list ComponentInstance;
  currentInstance : option nat
}.

Definition push_mounted (fn : hook) (i : ComponentInstance) : ComponentInstance :=
  mkInstance (mkHooks (mounted (hooks i) ++ [fn]) (updated (hooks i))) (isMounted i).

Definition push_updated (fn : hook) (i : ComponentInstance) : ComponentInstance :=
  mkInstance (mkHooks (mounted (hooks i)) (updated (hooks i) ++ [fn])) (isMounted i).

(** [export function onMounted(fn) { if (currentInstance) { ... push(fn) } }]. *)
Definition onMounted (fn : hook) (st : lstate) : completion lstate :=
  match currentInstance st with
  | Some i => Normal (mkLState (alter (push_mounted fn) i (instances st)) (currentInstance st))
  | None => Normal st
  end.

(** [export function onUpdated(fn) { if (currentInstance) { ... push(fn) } }]. *)
Definition onUpdated (fn : hook) (st : lstate) : completion lstate :=
  match currentInstance st with
  | Some i => Normal (mkLState (alter (push_updated fn) i (instances st)) (currentInstance st))
  | None => Normal st
  end.

(** The two assignments to [currentInstance] in [setupComponent], around
    the call of [setup]. *)
Definition enter_setup (i : nat) (st : lstate) : lstate := mkLState (instances st) (Some i).

Definition leave_setup (st : lstate) : lstate := mkLState (instances st) None.
End Hooks.

End Lifecycle.

(** [state = reactive({count: 0})]; [watchEffect(() => emit(state.count))]. *)
Definition counter_setup : state :=
  let s0 := (reactive {[ "count" := VNum 0 ]} init).2 in
  state_after (watchEffect 1 (Get 0 "count" (λ v, Emit v (Ret VUndef))) s0).

(** [state = reactive({count: 1})];
    [double = computed(() => emit(state.count), state.count + 1)]. *)
Definition cell_setup : state := (reactive {[ "count" := VNum 1 ]} init).2.

Definition cell_gatter : prog := Get 0 "count" (λ v, Emit v (Ret (bump v))).

(** The job of the three callbacks, taken off the microtask queue. *)
Definition three_callbacks_job : state := set_microtasks tail three_callbacks.

(** * The renderer (renderVNode, setProps, patch) *)

Module Renderer.

(** ** The host tree

    A host node is an object of the document; its identity is its index
    in the table of the nodes created so far. *)
Abbreviation node := nat (only parsing).

(** A property value of a virtual node: a string, a style object, or a
    function (with its source text, which is what [String(fn)] gives). *)
Inductive propval :=
| PStr (s : string)
| PStyle (decls : list (string * string))
| PHandler (h : nat) (source : string).

Record element := mkElement {
  tagName : string;
  className : string;
  cssText : option string;
  style : list (string * string);
  listeners : list (string * propval);
  attributes : list (string * string);
  childNodes : list node
}.

Inductive host :=
| Text (data : string)
| Elem (e : element).

Abbreviation document := (list host) (only parsing).

Definition with_children (g : list node → list node) (h : host) : host :=
  match h with
  | Text data => Text data
  | Elem e =>
      Elem (mkElement (tagName e) (className e) (cssText e) (style e)
              (listeners e) (attributes e) (g (childNodes e)))
  end.

Definition children_of (d : document) (n : node) : list node :=
  match d !! n with
  | Some (Elem e) => childNodes e
  | _ => []
  end.

(** [document.createTextNode(data)], [document.createElement(tag)]. *)
Definition createTextNode (data : string) (d : document) : node * document :=
  (length d, d ++ [Text data]).

Definition createElement (tag : string) (d : document) : node * document :=
  (length d, d ++ [Elem (mkElement tag "" None [] [] [] [])]).

(** A node inserted somewhere is first removed from where it is. *)
Definition detach (el : node) (d : document) : document :=
  with_children (filter (λ c, c ≠ el)) <$> d.

(** [parent.appendChild(el)]. *)
Definition appendChild (parent el : node) (d : document) : completion document :=
  match d !! parent with
  | Some (Elem _) => Normal (alter (with_children (λ l, l ++ [el])) parent (detach el d))
  | _ => Thrown "HierarchyRequestError"
  end.

(** The first occurrence of [old] gives its place to [el]. *)
Fixpoint replace_first (old el : node) (l : list node) : list node :=
  match l with
  | [] => []
  | c :: l' => if decide (c = old) then el :: l' else c :: replace_first old el l'
  end.

(** [parent.replaceChild(el, old)]: [NotFoundError] when [old] is not a
    child of [parent]. *)
Definition replaceChild (parent el old : node) (d : document) : completion document :=
  match d !! parent with
  | Some (Elem e) =>
      if decide (old ∈ childNodes e) then
        if decide (el = old) then Normal d
        else Normal (alter (with_children (replace_first old el)) parent (detach el d))
      else Thrown "NotFoundError"
  | _ => Thrown "NotFoundError"
  end.

(** ** [setProps] *)

(** [String(value)]. *)
Definition prop_string (v : propval) : string :=
  match v with
  | PStr s => s
  | PStyle _ => "[object Object]"
  | PHandler _ source => source
  end.

Definition lower_ascii (a : Ascii.ascii) : Ascii.ascii :=
  let n := Ascii.nat_of_ascii a in
  if (65 <=? n)%nat && (n <=? 90)%nat then Ascii.ascii_of_nat (n + 32) else a.

(** [String.prototype.toLowerCase], on ASCII letters. *)
Fixpoint toLowerCase (s : string) : string :=
  match s with
  | EmptyString => EmptyString
  | String a s' => String (lower_ascii a) (toLowerCase s')
  end.

(** [key.startsWith('on')] and, then, [key.slice(2)]. *)
Definition on_suffix (key : string) : option string :=
  if String.prefix "on" key then Some (String.substring 2 (String.length key - 2) key)
  else None.

Definition set_assoc (k v : string) (l : list (string * string)) : list (string * string) :=
  if decide (k ∈ l.*1) then (λ p, if decide (p.1 = k) then (k, v) else p) <$> l
  else l ++ [(k, v)].

(** One iteration of [for (const key in props)]. *)
Definition setProp (e : element) (key : string) (v : propval) : completion element :=
  if decide (key = "class") then
    Normal (mkElement (tagName e) (prop_string v) (cssText e) (style e)
              (listeners e) (attributes e) (childNodes e))
  else if decide (key = "style") then
    match v with
    | PStr s =>
        Normal (mkElement (tagName e) (className e) (Some s) (style e)
                  (listeners e) (attributes e) (childNodes e))
    | PStyle decls =>
        Normal (mkElement (tagName e) (className e) (cssText e)
                  (foldl (λ st kv, set_assoc kv.1 kv.2 st) (style e) decls)
                  (listeners e) (attributes e) (childNodes e))
    | PHandler _ _ => Normal e
    end
  else
    match on_suffix key with
    | Some rest =>
        match v with
        | PStr _ => Thrown "TypeError"
        | _ =>
            Normal (mkElement (tagName e) (className e) (cssText e) (style e)
                      (listeners e ++ [(toLowerCase rest, v)]) (attributes e) (childNodes e))
        end
    | None =>
        Normal (mkElement (tagName e) (className e) (cssText e) (style e)
                  (listeners e) (set_assoc key (prop_string v) (attributes e)) (childNodes e))
    end.

Fixpoint setProps_element (e : element) (props : list (string * propval)) : completion element :=
  match props with
  | [] => Normal e
  | (key, v) :: props' =>
      match setProp e key v with
      | Normal e' => setProps_element e' props'
      | Thrown err => Thrown err
      end
  end.

(** [function setProps(el, props)], on the element [el] of the document. *)
Definition setProps (el : node) (props : list (string * propval)) (d : document) : completion document :=
  match d !! el with
  | Some (Elem e) =>
      match setProps_element e props with
      | Normal e' => Normal (<[el := Elem e']> d)
      | Thrown err => Thrown err
      end
  | _ => Thrown "TypeError"
  end.

(** ** Virtual nodes *)

(** [vnode.type] of a node that is not a component: a tag or a symbol. *)
Inductive vtype :=
| TTag (tag : string)
| TSymbol.

(** The value of [vnode.children]: nothing, a string, or an array, which
    is an object with an identity. *)
Inductive vchildren :=
| NoChildren
| TextChildren (s : string)
| ArrayChildren (ref : nat).

(** A child of a node is a string or a virtual node object; [items] are
    the members of the array when [children] is one.  A component node
    (its [type] is an object with a [setup] function) is given with
    [subTree], the tree that the [render] function of the component
    returns when the component is mounted. *)
Inductive vnode :=
| VString (s : string)
| VObject (type : vtype) (text : string) (props : option (list (string * propval)))
    (children : vchildren) (items : list vnode) (el : option node)
| VComponent (text : string) (subTree : vnode) (children : vchildren) (el : option node).

Definition vnode_children (v : vnode) : vchildren :=
  match v with
  | VString _ => NoChildren
  | VObject _ _ _ children _ _ => children
  | VComponent _ _ children _ => children
  end.

Definition vnode_el (v : vnode) : option node :=
  match v with
  | VString _ => None
  | VObject _ _ _ _ _ el => el
  | VComponent _ _ _ el => el
  end.

(** [a === b] on two values of [children]. *)
Definition strict_eq (a b : vchildren) : bool :=
  match a, b with
  | NoChildren, NoChildren => true
  | TextChildren s, TextChildren s' => bool_decide (s = s')
  | ArrayChildren r, ArrayChildren r' => bool_decide (r = r')
  | _, _ => false
  end.

(** [n2.el = el]; on a string the assignment raises, the module being in
    strict mode. *)
Definition set_el (v : vnode) (el : node) : completion vnode :=
  match v with
  | VString _ => Thrown "TypeError"
  | VObject ty text props children items _ => Normal (VObject ty text props children items (Some el))
  | VComponent text subTree children _ => Normal (VComponent text subTree children (Some el))
  end.

Definition vnode_string (v : vnode) : string :=
  match v with
  | VString s => s
  | VObject _ _ _ _ _ _ | VComponent _ _ _ _ => "[object Object]"
  end.

Fixpoint join_comma (l : list string) : string :=
  match l with
  | [] => ""
  | [s] => s
  | s :: l' => s +:+ "," +:+ join_comma l'
  end.

(** The text of a node whose type is a symbol:
    [String(vnode.children || vnode)]. *)
Definition symbol_text (children : vchildren) (items : list vnode) : string :=
  match children with
  | NoChildren => "[object Object]"
  | TextChildren s => if decide (s = "") then "[object Object]" else s
  | ArrayChildren _ => join_comma (vnode_string <$> items)
  end.

(** [oldDom ? parent.replaceChild(el, oldDom) : parent.appendChild(el)]. *)
Definition attach (parent el : node) (oldDom : option node) (d : document) : completion document :=
  match oldDom with
  | Some old => replaceChild parent el old d
  | None => appendChild parent el d
  end.

Definition mount (parent : node) (oldDom : option node) (r : node * document)
  : completion (node * document) :=
  match attach parent r.1 oldDom r.2 with
  | Normal d => Normal (r.1, d)
  | Thrown err => Thrown err
  end.

(** [children.forEach(child => { renderVNode(child, el) })]. *)
Definition forEach_child (f : vnode → document → completion (node * document))
  : list vnode → document → completion document :=
  fix each (l : list vnode) (d : document) : completion document :=
    match l with
    | [] => Normal d
    | child :: l' =>
        match f child d with
        | Normal r => each l' r.2
        | Thrown err => Thrown err
        end
    end.

(** [function renderVNode(vnode, parent, oldDom)].  For a component
    node, [render(vnode, parent)] mounts the component: its render effect
    runs [patch(null, subTree, parent)], which assigns [subTree.el]; that
    node is then [vnode.component.vnode.el]. *)
Fixpoint renderVNode (vnode : vnode) (parent : node) (oldDom : option node) (d : document)
  : completion (node * document) :=
  match vnode with
  | VString s => mount parent oldDom (createTextNode s d)
  | VComponent text subTree _ _ =>
      if decide (text ≠ "") then mount parent oldDom (createTextNode text d)
      else
        match renderVNode subTree parent None d with
        | Normal r =>
            match set_el subTree r.1 with
            | Normal _ => mount parent oldDom r
            | Thrown err => Thrown err
            end
        | Thrown err => Thrown err
        end
  | VObject ty text props children items _ =>
      if decide (text ≠ "") then mount parent oldDom (createTextNode text d)
      else
        match ty with
        | TSymbol => mount parent oldDom (createTextNode (symbol_text children items) d)
        | TTag tag =>
            let '(el, d1) := createElement tag d in
            match (match props with
                   | Some ps => setProps el ps d1
                   | None => Normal d1
                   end) with
            | Thrown err => Thrown err
            | Normal d2 =>
                match (match children with
                       | NoChildren => Normal d2
                       | TextChildren s =>
                           if decide (s = "") then Normal d2
                           else
                             match mount el None (createTextNode s d2) with
                             | Normal r => Normal r.2
                             | Thrown err => Thrown err
                             end
                       | ArrayChildren _ =>
                           forEach_child (λ child d, renderVNode child el None d) items d2
                       end) with
                | Thrown err => Thrown err
                | Normal d3 => mount parent oldDom (el, d3)
                end
            end
        end
  end.

(** [function patch(n1, n2, container)]; the result is [n2] as the
    assignment [n2.el = el] leaves it. *)
Definition patch (n1 : option vnode) (n2 : vnode) (container : node) (d : document)
  : completion (vnode * document) :=
  match n1 with
  | None =>
      match renderVNode n2 container None d with
      | Normal r =>
          match set_el n2 r.1 with
          | Normal n2' => Normal (n2', r.2)
          | Thrown err => Thrown err
          end
      | Thrown err => Thrown err
      end
  | Some old =>
      if strict_eq (vnode_children n2) (vnode_children old) then Normal (n2, d)
      else
        match renderVNode n2 container (vnode_el old) d with
        | Normal r =>
            match set_el n2 r.1 with
            | Normal n2' => Normal (n2', r.2)
            | Thrown err => Thrown err
            end
        | Thrown err => Thrown err
        end
  end.
(** ** Host documents that rendering keeps well formed *)

Definition is_elem (d : document) (n : node) : Prop := ∃ e, d !! n = Some (Elem e).

(** Children are nodes of the document. *)
Definition doc_ok (d : document) : Prop := ∀ i c, c ∈ children_of d i → c < length d.

(** The children of [parent] once [el] is attached. *)
Definition attach_list (oldDom : option node) (el : node) (l : list node) : list node :=
  match oldDom with
  | None => l ++ [el]
  | Some old => replace_first old el l
  end.

(** What a successful [renderVNode] has done to the document. *)
Record rendered (parent : node) (oldDom : option node) (d : document)
    (el : node) (d' : document) : Prop := mkRendered {
  r_el : el = length d;
  r_grow : length d < length d';
  r_ok : doc_ok d';
  r_frame : ∀ i, i < length d → i ≠ parent → d' !! i = d !! i;
  r_parent_elem : is_elem d' parent;
  r_parent : children_of d' parent = attach_list oldDom el (children_of d parent);
  r_new : ∀ i c, length d ≤ i → c ∈ children_of d' i → i < c
}.

(** The state of the document while the children of the new element
    [el = length d] are rendered, one after the other. *)
Record rendering (d : document) (dk : document) : Prop := mkRendering {
  g_grow : length d < length dk;
  g_ok : doc_ok dk;
  g_frame : ∀ i, i < length d → dk !! i = d !! i;
  g_elem : is_elem dk (length d);
  g_new : ∀ i c, length d ≤ i → c ∈ children_of dk i → i < c
}.

(** A listener is not a string. *)
Definition prop_ok (kv : string * propval) : Prop :=
  kv.1 = "class" ∨ kv.1 = "style" ∨ on_suffix kv.1 = None ∨ ∀ s, kv.2 ≠ PStr s.

Definition props_ok (props : option (list (string * propval))) : Prop :=
  match props with
  | Some ps => Forall prop_ok ps
  | None => True
  end.

Definition is_object (v : vnode) : Prop :=
  match v with
  | VString _ => False
  | _ => True
  end.

(** The listeners of the tree are not strings, and the [render] function
    of a component returns a node object. *)
Inductive renderable : vnode → Prop :=
| renderable_string s : renderable (VString s)
| renderable_object ty text props children items el :
    props_ok props → Forall renderable items →
    renderable (VObject ty text props children items el)
| renderable_component text subTree children el :
    is_object subTree → renderable subTree →
    renderable (VComponent text subTree children el).
End Renderer.

(** A container, and three trees returned by three calls of one render
    function; the second has the [children] array of the first. *)
Definition page : list Renderer.host :=
  [Renderer.Elem (Renderer.mkElement "div" "" None [] [] [] [])].

Definition tree1 : Renderer.vnode :=
  Renderer.VObject (Renderer.TTag "p") "" (Some [("class", Renderer.PStr "a")])
    (Renderer.ArrayChildren 1) [Renderer.VString "one"] None.


Definition tree3 : Renderer.vnode :=
  Renderer.VObject (Renderer.TTag "p") "" None
    (Renderer.ArrayChildren 2) [Renderer.VString "two"] None.


(** ** What a program does after a call of [nextTick] *)

(** One more thing that happens: top-level code runs and returns or
    raises, or the host runs the next microtask. *)
Inductive later : state → state → Prop :=
| later_returns n p s v s' : exec n p s = Ok v s' → later s s'
| later_raises n p s x s' : exec n p s = Err x s' → later s s'
| later_microtask n s s' : microtasks s ≠ [] → next_microtask n s = Some s' → later s s'.

(** A pending promise whose job is not in the microtask queue. *)
Definition orphan (p : pid) (s : state) : Prop :=
  promises s !! p = Some Pending ∧ FlushTick p ∉ microtasks s.

(** ... in a well-formed state. *)
Record unsettled (p : pid) (s : state) : Prop := mkUnsettled {
  un_wf : wf s;
  un_orphan : orphan p s
}.

(** ** Everything a program does, one thing after the other *)

(** One more thing that happens: what [later] lists, or a call of one of
    the exported constructors, or of a disposer, from top-level code. *)
Inductive happens : state → state → Prop :=
| happens_later s s' : later s s' → happens s s'
| happens_reactive obj s : happens s (reactive obj s).2
| happens_ref v s : happens s (ref v s).2
| happens_computed gatter s : happens s (computed gatter s).2
| happens_watch n gatter callback s e o :
    watch n gatter callback s = Some (e, o) → happens s (outcome_state o)
| happens_watchEffect n gatter s e o :
    watchEffect n gatter s = Some (e, o) → happens s (outcome_state o)
| happens_dispose e s : happens s (dispose e s).

(** The states a program can be in, from the moment the module is loaded. *)
Definition reachable (s : state) : Prop := rtc happens init s.

(** ** What holds of the registry in every state

    Every member of a bucket is an effect that records the bucket in its
    [deps]; the effects waiting in the queue or on the stack exist;
    [activeEffect] is the top of [effectStack]; and the scheduler of an
    effect is the one of the [watch] or [computed] call that made it. *)
Record sane (s : state) : Prop := mkSane {
  sane_wf : wf s;
  sane_buckets : ∀ t f l x, bucket s t f = Some l → x ∈ l →
                   ∃ eff, effects s !! x = Some eff ∧ (t, f) ∈ deps eff;
  sane_queue : ∀ x, x ∈ updateQueue s → x < length (effects s);
  sane_stack : ∀ x, x ∈ effectStack s → x < length (effects s);
  sane_active : activeEffect s = last (effectStack s);
  sane_watch : ∀ x w, scheduler_of s x = Some (SWatch w) →
                 watchEffect_of <$> watchers s !! w = Some x;
  sane_computed : ∀ x c, scheduler_of s x = Some (SComputed c) →
                    computedEffect <$> computeds s !! c = Some x;
  sane_cell : ∀ c cc, computeds s !! c = Some cc →
                scheduler_of s (computedEffect cc) = Some (SComputed c)
}.

(** The job at the head of the microtask queue, when it is one of
    [nextTick], holds a pending promise, and is in the queue once. *)
Definition job_ok (s : state) : Prop :=
  ∀ p q, microtasks s = FlushTick p :: q → orphan p (set_microtasks tail s).

Definition is_update (t : task) : bool :=
  match t with
  | FlushUpdate => true
  | FlushTick _ => false
  end.

(** What holds of the two schedulers in every state: each flag is set
    exactly when one job of its kind waits in the microtask queue, there
    is never a second one; callbacks are registered only while a job of
    [nextTick] waits; such a job holds a pending promise; and the update
    queue holds no effect twice. *)
Record flags_ok (s : state) : Prop := mkFlagsOk {
  f_update : length (filter is_update (microtasks s)) = if updatePendding s then 1 else 0;
  f_tick : tick_consistent s;
  f_callbacks : nextTickCallbacks s ≠ [] → nextTickPending s = true;
  f_jobs : ∀ p, FlushTick p ∈ microtasks s → promises s !! p = Some Pending;
  f_nodup : NoDup (updateQueue s)
}.

(** [I] is kept by every change that the runtime makes to its state, in a
    state where [C] holds; [Q s x] is what [I] needs of an effect [x] that
    is put in the queue or run. *)
Record keeps (C I : state → Prop) (Q : state → eid → Prop) : Prop := mkKeeps {
  k_mono : ∀ s s' x, length (effects s') = length (effects s) → Q s x → Q s' x;
  k_track : ∀ t f s, C s → I s → I (track t f s);
  k_log : ∀ ev s, (∀ e, ev ≠ EvRun e) → C s → I s → I (log ev s);
  k_set : ∀ t f v s, C s → I s → I (reflect_set t f v s);
  k_snapshot : ∀ t f l x s, C s → I s → bucket s t f = Some l → x ∈ l → Q s x;
  k_enqueue : ∀ x s, C s → I s → Q s x → scheduler_of s x = None → I (enqueue x s);
  k_schedule : ∀ s, C s → I s → updatePendding s = false → I (schedule_flush s);
  k_computed : ∀ g c s, keeps_computed g → C s → I s → I (set_computeds (alter g c) s);
  k_watcher : ∀ g w s, keeps_watcher g → C s → I s → I (set_watchers (alter g w) s);
  k_nextTick : ∀ cbfn s, C s → I s → I (nextTick cbfn s).2;
  k_watch_run : ∀ x w wr s, C s → I s → Q s x → scheduler_of s x = Some (SWatch w) →
                  watchers s !! w = Some wr → Q s (watchEffect_of wr);
  k_computed_run : ∀ c cc s, C s → I s → computeds s !! c = Some cc → Q s (computedEffect cc);
  k_queue : ∀ x s, C s → I s → x ∈ updateQueue s → Q s x;
  k_begin : ∀ x s, C s → I s → is_Some (effects s !! x) → Q s x → I (begin_run x s);
  k_end : ∀ s, C s → I s → I (end_run s);
  k_pop_update : ∀ q s, C s → I s → microtasks s = FlushUpdate :: q →
                   I (set_update false id (set_microtasks tail s));
  k_clear : ∀ s, C s → I s → I (set_update (updatePendding s) (λ _, []) s);
  k_pop_tick : ∀ p q s, C s → I s → microtasks s = FlushTick p :: q →
                 I (set_tick false (λ _, []) (set_microtasks tail s));
  k_settle : ∀ p r s, C s → I s → orphan p s → I (settle p r s);
  k_reactive : ∀ obj s, C s → I s → I (reactive obj s).2;
  k_effect_new : ∀ body s, C s → I s →
                   I (new_effect body None s).2 ∧
                   Q (new_effect body None s).2 (length (effects s));
  k_watch_new : ∀ body callback s, C s → I s →
                  let s' := set_watchers (λ l, l ++ [mkWatcher (length (effects s)) callback VUndef])
                              (new_effect body (Some (SWatch (length (watchers s)))) s).2 in
                  I s' ∧ Q s' (length (effects s));
  k_computed_new : ∀ gatter s, C s → I s → I (computed gatter s).2;
  k_cleanup : ∀ e s, C s → I s → I (cleanup e s)
}.

(** No effect is running. *)
Definition idle (s : state) : Prop := effectStack s = [] ∧ activeEffect s = None.

(** An effect of [watch] or of [watchEffect] that is subscribed to
    nothing, waits in no queue and is not running; [r] is the number of
    its runs so far. *)
Record disposed (e : eid) (r : nat) (s : state) : Prop := mkDisposed {
  d_effect : is_Some (effects s !! e);
  d_kind : ∀ c, scheduler_of s e ≠ Some (SComputed c);
  d_stack : e ∉ effectStack s;
  d_buckets : ∀ t f l, bucket s t f = Some l → e ∉ l;
  d_queue : e ∉ updateQueue s;
  d_runs : runs_of e (trace s) = r
}.

(** The state after a run of effect [e] whose function is
    [() => state.f], for the record [t] behind [state]. *)
Definition after_selector (e : eid) (t : target) (f : key) (s : state) : state :=
  end_run (log (EvGet t f (reflect_get t f s)) (track t f (begin_run e s))).

(** * Components: setupComponent and the render effect (createRenderer) *)

Module Component.

(** A hook is a function of the user; here it has an identity, and
    [raises h] says whether calling it ends by an exception. *)
Abbreviation hook := nat (only parsing).

(** What the [setup] function of a component does to the lifecycle
    state: it registers hooks, and returns a value (an object, or
    something that is not one) or raises. *)
Inductive setup_prog :=
| SetupReturn (setupResult : option (gmap string value))
| SetupThrow (error : string)
| SetupOnMounted (fn : hook) (k : setup_prog)
| SetupOnUpdated (fn : hook) (k : setup_prog).

(** A call that has returned or raised, and the state it leaves. *)
Inductive ran (A : Type) :=
| Returned (a : A) (st : Lifecycle.lstate nat)
| Raised (error : string) (st : Lifecycle.lstate nat).
Arguments Returned {A} a st.
Arguments Raised {A} error st.

Fixpoint run_setup (p : setup_prog) (st : Lifecycle.lstate nat)
  : ran (option (gmap string value)) :=
  match p with
  | SetupReturn setupResult => Returned setupResult st
  | SetupThrow error => Raised error st
  | SetupOnMounted fn k =>
      match Lifecycle.onMounted nat fn st with
      | Normal st' => run_setup k st'
      | Thrown error => Raised error st
      end
  | SetupOnUpdated fn k =>
      match Lifecycle.onUpdated nat fn st with
      | Normal st' => run_setup k st'
      | Thrown error => Raised error st
      end
  end.

(** [function setupComponent(instance, setup)]:
    [currentInstance = instance; setupResult = setup(...);
     instance.state = reactive(setupResult); currentInstance = null].
    [reactive] builds a [Proxy], which raises a [TypeError] when its
    target is not an object; no handler resets [currentInstance] when
    [setup] or [reactive] raises. *)
Definition setupComponent (i : nat) (setup : setup_prog) (st : Lifecycle.lstate nat)
  : ran (gmap string value) :=
  match run_setup setup (Lifecycle.enter_setup nat i st) with
  | Returned (Some setupResult) st1 => Returned setupResult (Lifecycle.leave_setup nat st1)
  | Returned None st1 => Raised "TypeError" st1
  | Raised error st1 => Raised error st1
  end.

(** The hooks that a [setup] function registers, in the order of the
    calls. *)
Fixpoint registers_mounted (p : setup_prog) : list hook :=
  match p with
  | SetupOnMounted fn k => fn :: registers_mounted k
  | SetupOnUpdated _ k => registers_mounted k
  | _ => []
  end.

Fixpoint registers_updated (p : setup_prog) : list hook :=
  match p with
  | SetupOnUpdated fn k => fn :: registers_updated k
  | SetupOnMounted _ k => registers_updated k
  | _ => []
  end.

Section Hooks.
Variable raises : hook → option string.

(** [hooks.forEach(hook => hook({ el: subTree }))]: the calls are
    recorded; the first hook that raises ends the visit. *)
Fixpoint call_hooks (hs : list hook) (arg : Renderer.vnode)
    (calls : list (hook * Renderer.vnode)) : option string * list (hook * Renderer.vnode) :=
  match hs with
  | [] => (None, calls)
  | h :: hs' =>
      match raises h with
      | Some error => (Some error, calls ++ [(h, arg)])
      | None => call_hooks hs' arg (calls ++ [(h, arg)])
      end
  end.

(** One component on the page: its instance, [instance.vnode], the
    document, and the calls of hooks made so far. *)
Record mounting := mkMounting {
  m_hooks : Lifecycle.hook_queue nat;
  m_isMounted : bool;
  m_vnode : option Renderer.vnode;
  m_dom : list Renderer.host;
  m_calls : list (hook * Renderer.vnode)
}.

(** How a run of the render effect ends.  When [patch] raises, the
    document is left as the interrupted rendering made it, which this
    model does not describe. *)
Inductive render_result :=
| Rendered (m : mounting)
| HookRaised (error : string) (m : mounting)
| PatchRaised (error : string).

(** The function of the render effect in [setupRenderEffect], for the
    [subTree] that [instance.render] has returned. *)
Definition render_effect (subTree : Renderer.vnode) (container : nat) (m : mounting)
  : render_result :=
  if m_isMounted m then
    match Renderer.patch (m_vnode m) subTree container (m_dom m) with
    | Thrown error => PatchRaised error
    | Normal (n2, d) =>
        match call_hooks (Lifecycle.updated nat (m_hooks m)) n2 (m_calls m) with
        | (Some error, calls) => HookRaised error (mkMounting (m_hooks m) true (m_vnode m) d calls)
        | (None, calls) => Rendered (mkMounting (m_hooks m) true (Some n2) d calls)
        end
    end
  else
    match Renderer.patch None subTree container (m_dom m) with
    | Thrown error => PatchRaised error
    | Normal (n2, d) =>
        match call_hooks (Lifecycle.mounted nat (m_hooks m)) n2 (m_calls m) with
        | (Some error, calls) => HookRaised error (mkMounting (m_hooks m) true (m_vnode m) d calls)
        | (None, calls) => Rendered (mkMounting (m_hooks m) true (Some n2) d calls)
        end
    end.

(** The runs of the render effect for the trees that [render] returns,
    one after the other, as long as they return. *)
Fixpoint render_effects (subTrees : list Renderer.vnode) (container : nat) (m : mounting)
  : render_result :=
  match subTrees with
  | [] => Rendered m
  | subTree :: rest =>
      match render_effect subTree container m with
      | Rendered m' => render_effects rest container m'
      | r => r
      end
  end.

(** A component: [type.setup] (which may be missing) and [type.render],
    as a function of the state that [setup] has returned. *)
Record component := mkComponent {
  setup : option setup_prog;
  render : gmap string value → Renderer.vnode
}.

(** The page: the lifecycle state, the document, the calls of hooks. *)
Record browser := mkBrowser {
  p_lifecycle : Lifecycle.lstate nat;
  p_dom : list Renderer.host;
  p_calls : list (hook * Renderer.vnode)
}.

Inductive mount_result :=
| Mounted (instance : nat) (m : mounting) (st : Lifecycle.lstate nat)
| SetupRaised (error : string) (st : Lifecycle.lstate nat)
| RenderRaised (r : render_result) (st : Lifecycle.lstate nat).

(** [function mountComponent(vnode, container)]:
    [instance = new ComponentInstance(); setupComponent(instance, setup);
     setupRenderEffect(instance, container)], the latter running the
    render effect once. *)
Definition mountComponent (su : setup_prog) (rd : gmap string value → Renderer.vnode)
    (container : nat) (p : browser) : mount_result :=
  let st := p_lifecycle p in
  let i := length (Lifecycle.instances nat st) in
  let st0 := Lifecycle.mkLState nat (Lifecycle.instances nat st ++ [Lifecycle.new_instance nat])
               (Lifecycle.currentInstance nat st) in
  match setupComponent i su st0 with
  | Raised error st1 => SetupRaised error st1
  | Returned state st1 =>
      let hs := default (Lifecycle.createHookQueue nat)
                  (Lifecycle.hooks nat <$> Lifecycle.instances nat st1 !! i) in
      match render_effect (rd state) container (mkMounting hs false None (p_dom p) (p_calls p)) with
      | Rendered m => Mounted i m st1
      | r => RenderRaised r st1
      end
  end.

End Hooks.

(** [render(vnode, container)] of [createRenderer], for the node
    [{ type: c }] that [createApp(c).mount] builds:
    [if (vnode.type.setup) mountComponent(...) else patch(null, vnode, container)].
    In the second case [patch] calls [renderVNode], which finds that
    [vnode.type] is an object and calls [render(vnode, parent)] again;
    were that call to return, [vnode.component.vnode] would raise, no
    instance having been stored in [vnode.component].  [depth] bounds the
    nesting of these calls. *)
Fixpoint render_root (raises : hook → option string) (depth : nat) (c : component)
    (container : nat) (p : browser) : option mount_result :=
  match depth with
  | 0 => None
  | S depth' =>
      match setup c with
      | Some su => Some (mountComponent raises su (render c) container p)
      | None =>
          match render_root raises depth' c container p with
          | Some _ => Some (RenderRaised (PatchRaised "TypeError") (p_lifecycle p))
          | None => None
          end
      end
  end.

End Component.

(** ** Programs on which the theorems are tried *)

(** [state = reactive({a: 0})];
    [watchEffect(() => { state.a; throw 'boom' })], which raises;
    [state.a = 1]. *)
Definition raising_body : prog := Get 0 "a" (λ _, Throw (VStr "boom")).

Definition raising_setup : state :=
  let s0 := (reactive {[ "a" := VNum 0 ]} init).2 in
  let s1 := state_after (watchEffect 1 raising_body s0) in
  outcome_state (exec 1 (Put 0 "a" (VNum 1) (Ret VUndef)) s1).

(** [state = reactive({count: 1})]; [double = computed(...)];
    [watchEffect(() => emit(double.value))]. *)
Definition computed_setup : state :=
  state_after (watchEffect 2 (GetComputed 0 (λ v, Emit v (Ret VUndef)))
                 (computed cell_gatter cell_setup).2).

(** [state.count = 1], after the disposer of the effect of
    [counter_setup] has been called. *)
Definition counter_disposed : state :=
  outcome_state (exec 1 (Put 0 "count" (VNum 1) (Ret VUndef)) (dispose 0 counter_setup)).

(** [watch(() => state.count, (nv, ov) => { emit(nv); emit(ov) })]. *)
Definition both_values (nv ov : value) : prog := Emit nv (Emit ov (Ret VUndef)).

(** A [setup] that registers three hooks, and one that raises after it
    has registered one. *)
Definition hooks_setup : Component.setup_prog :=
  Component.SetupOnMounted 1 (Component.SetupOnUpdated 2
    (Component.SetupOnMounted 3 (Component.SetupReturn (Some ∅)))).

Definition failing_setup : Component.setup_prog :=
  Component.SetupOnMounted 1 (Component.SetupThrow "boom").

Definition one_instance : Lifecycle.lstate nat :=
  Lifecycle.mkLState nat [Lifecycle.new_instance nat] None.

(** An instance with the hooks of [hooks_setup], not mounted yet. *)
Definition fresh_mounting : Component.mounting :=
  Component.mkMounting (Lifecycle.mkHooks nat [1; 3] [2]) false None page [].

Definition empty_page : Component.browser :=
  Component.mkBrowser (Lifecycle.mkLState nat [] None) page [].

Definition no_raise (h : nat) : option string := None.


(** The value of a call that has returned. *)
Definition completed {A} (otherwise : A) (c : completion A) : A :=
  match c with
  | Normal a => a
  | Thrown _ => otherwise
  end.

Definition mounting_of (r : Component.render_result) : Component.mounting :=
  match r with
  | Component.Rendered m | Component.HookRaised _ m => m
  | Component.PatchRaised _ => fresh_mounting
  end.

Definition mounted_of (r : Component.mount_result) : nat * Component.mounting :=
  match r with
  | Component.Mounted i m _ => (i, m)
  | _ => (0, fresh_mounting)
  end.

Definition lifecycle_of (r : Component.mount_result) : Lifecycle.lstate nat :=
  match r with
  | Component.Mounted _ _ st | Component.SetupRaised _ st | Component.RenderRaised _ st => st
  end.



Definition two_strings : Renderer.vnode :=
  Renderer.VObject (Renderer.TTag "p") "" None (Renderer.ArrayChildren 2)
    (Renderer.VString <$> ["two"; "three"]) None.

(** * Lemmas and theorems *)

Lemma prim_top s s' : prim false s s' → prim true s s'.
Proof. destruct 1; try by constructor. constructor. by left. Qed.

Lemma prims_top s s' : rtc (prim false) s s' → rtc (prim true) s s'.
Proof. induction 1; [done|]. eapply rtc_l; [by apply prim_top|done]. Qed.

(** Schedulers are fixed at construction. *)
Lemma scheduler_of_alter g e (s : state) x :
  (∀ eff, scheduler (g eff) = scheduler eff) →
  scheduler_of (set_effects (alter g e) s) x = scheduler_of s x.
Proof.
  intros Hg. unfold scheduler_of. simpl.
  destruct (decide (e = x)) as [->|Hne].
  - rewrite list_lookup_alter_eq. destruct (effects s !! x); simpl; [apply Hg|done].
  - by rewrite list_lookup_alter_ne.
Qed.

Lemma scheduler_of_track t f s x : scheduler_of (track t f s) x = scheduler_of s x.
Proof.
  unfold track. destruct (activeEffect s); [|done].
  by rewrite scheduler_of_alter.
Qed.

Lemma scheduler_of_cleanup e s x : scheduler_of (cleanup e s) x = scheduler_of s x.
Proof.
  unfold cleanup. destruct (effects s !! e); [|done].
  by rewrite scheduler_of_alter.
Qed.

Lemma nextTick_effects cbfn s : effects (nextTick cbfn s).2 = effects s.
Proof. unfold nextTick. simpl. by destruct (nextTickPending s). Qed.

Lemma scheduler_of_prim top s s' x : prim top s s' → scheduler_of s' x = scheduler_of s x.
Proof.
  destruct 1; try done.
  - apply scheduler_of_track.
  - unfold scheduler_of. by rewrite nextTick_effects.
  - unfold begin_run. apply (scheduler_of_cleanup e s x).
Qed.


Lemma computeds_track t f s : computeds (track t f s) = computeds s.
Proof. unfold track. by destruct (activeEffect s). Qed.
Lemma watchers_track t f s : watchers (track t f s) = watchers s.
Proof. unfold track. by destruct (activeEffect s). Qed.
Lemma updateQueue_track t f s : updateQueue (track t f s) = updateQueue s.
Proof. unfold track. by destruct (activeEffect s). Qed.
Lemma computeds_cleanup e s : computeds (cleanup e s) = computeds s.
Proof. unfold cleanup. by destruct (effects s !! e). Qed.
Lemma watchers_cleanup e s : watchers (cleanup e s) = watchers s.
Proof. unfold cleanup. by destruct (effects s !! e). Qed.
Lemma updateQueue_cleanup e s : updateQueue (cleanup e s) = updateQueue s.
Proof. unfold cleanup. by destruct (effects s !! e). Qed.
Lemma computeds_nextTick cbfn s : computeds (nextTick cbfn s).2 = computeds s.
Proof. unfold nextTick. simpl. by destruct (nextTickPending s). Qed.
Lemma watchers_nextTick cbfn s : watchers (nextTick cbfn s).2 = watchers s.
Proof. unfold nextTick. simpl. by destruct (nextTickPending s). Qed.
Lemma updateQueue_nextTick cbfn s : updateQueue (nextTick cbfn s).2 = updateQueue s.
Proof. unfold nextTick. simpl. by destruct (nextTickPending s). Qed.

Lemma elem_of_set_add `{EqDecision A} (x y : A) l : y ∈ set_add x l ↔ y = x ∨ y ∈ l.
Proof.
  unfold set_add. case_decide.
  - split; [by right|]. intros [->|]; done.
  - rewrite elem_of_app, list_elem_of_singleton. tauto.
Qed.

Lemma updateQueue_prim top s s' :
  prim top s s' →
  updateQueue s' = updateQueue s ∨
  ∃ e, scheduler_of s e = None ∧ updateQueue s' = set_add e (updateQueue s).
Proof.
  destruct 1; try (by left).
  - left. apply updateQueue_track.
  - right. by exists e.
  - left. apply updateQueue_nextTick.
  - left. unfold begin_run. simpl. apply updateQueue_cleanup.
Qed.

Lemma wf_prim top s s' : prim top s s' → wf s → wf s'.
Proof.
  intros Hp [Hc Hw Hq].
  assert (Hs : ∀ x, scheduler_of s' x = scheduler_of s x)
    by (intros; by eapply scheduler_of_prim).
  split.
  - intros c cc. rewrite Hs. destruct Hp; simpl; try (by apply Hc).
    + rewrite computeds_track. apply Hc.
    + rewrite list_lookup_alter. case_decide as Hcd; [|by apply Hc].
      subst. destruct (computeds s !! c) as [cc0|] eqn:E; [|done].
      simpl. intros [= <-]. destruct (H cc0) as [_ ->]. by eapply Hc.
    + rewrite computeds_nextTick. apply Hc.
    + rewrite computeds_cleanup. apply Hc.
  - intros w wr. rewrite Hs. destruct Hp; simpl; try (by apply Hw).
    + rewrite watchers_track. apply Hw.
    + rewrite list_lookup_alter. case_decide as Hcd; [|by apply Hw].
      subst. destruct (watchers s !! w) as [wr0|] eqn:E; [|done].
      simpl. intros [= <-]. destruct (H wr0) as [-> _]. by eapply Hw.
    + rewrite watchers_nextTick. apply Hw.
    + rewrite watchers_cleanup. apply Hw.
  - intros x. rewrite Hs.
    destruct (updateQueue_prim _ _ _ Hp) as [->|(e & He & ->)]; [apply Hq|].
    rewrite elem_of_set_add. intros [->|]; [done|by apply Hq].
Qed.

Lemma wf_prims top s s' : rtc (prim top) s s' → wf s → wf s'.
Proof. induction 1; eauto using wf_prim. Qed.

Lemma after_mono (P Q : state → Prop) o : (∀ s, P s → Q s) → after P o → after Q o.
Proof. destruct o; simpl; auto. Qed.

Lemma after_trans s s1 o :
  rtc (prim false) s s1 → after (rtc (prim false) s1) o → after (rtc (prim false) s) o.
Proof. intros H. apply after_mono. intros s2. by apply rtc_trans. Qed.

Section Soundness.
Variable rec : call → state → outcome.
Hypothesis Hrec : sound rec.

Lemma run_scheduler_sound sch s :
  wf s → after (rtc (prim false) s) (run_scheduler rec sch s).
Proof.
  intros Hwf. destruct sch as [c|w]; simpl.
  - destruct (computeds s !! c) as [cc|] eqn:E; simpl; [|done].
    assert (H0 : prim false s (set_computeds (alter mark_dirty c) s))
      by (apply prim_computed; by intros []).
    eapply after_trans; [by apply rtc_once|]. apply Hrec; [|done]. by eapply wf_prim.
  - destruct (watchers s !! w) as [wr|] eqn:E; simpl; [|done].
    pose proof (Hrec (CRun (watchEffect_of wr)) s Hwf (wf_watchers _ Hwf _ _ E)) as H1.
    destruct (rec (CRun (watchEffect_of wr)) s) as [nv s1|x s1|]; simpl in *; [|done..].
    assert (Hwf1 : wf s1) by (by eapply wf_prims).
    pose proof (Hrec (CExec (cb wr nv (default VUndef (ov <$> watchers s1 !! w)))) s1 Hwf1 I) as H2.
    destruct (rec (CExec _) s1) as [v2 s2|x s2|]; simpl in *; [| |done].
    + eapply rtc_trans; [done|]. eapply rtc_r; [done|].
      apply prim_watcher. by intros [].
    + by eapply rtc_trans.
Qed.

Lemma notify_sound effs s :
  wf s → after (rtc (prim false) s) (notify rec effs s).
Proof.
  revert s. induction effs as [|e rest IH]; intros s Hwf; simpl; [done|].
  destruct (scheduler_of s e) as [sch|] eqn:E.
  - pose proof (run_scheduler_sound sch s Hwf) as H1.
    destruct (run_scheduler rec sch s) as [v s1|x s1|]; simpl in *; [|done..].
    eapply after_trans; [done|]. apply IH. by eapply wf_prims.
  - eapply after_trans; [apply rtc_once, prim_enqueue; done|].
    apply IH. eapply wf_prim; [|done]. by apply (prim_enqueue false).
Qed.

Lemma trigger_body_sound t f s :
  wf s → after (rtc (prim false) s) (trigger_body rec t f s).
Proof.
  intros Hwf. unfold trigger_body.
  destruct (targetMap s !! t) as [depMap|]; simpl; [|done].
  destruct (depMap !! f) as [depSet|]; simpl; [|done].
  pose proof (notify_sound depSet s Hwf) as H1.
  destruct (notify rec depSet s) as [v s1|x s1|]; simpl in *; [|done..].
  destruct (updatePendding s1) eqn:E; [done|].
  eapply rtc_r; [done|]. by apply prim_schedule.
Qed.

Lemma read_computed_sound c s :
  wf s → after (rtc (prim false) s) (read_computed rec c s).
Proof.
  intros Hwf. unfold read_computed.
  destruct (computeds s !! c) as [cc|] eqn:E; simpl; [|done].
  assert (Ht : prim false s (track (computedObj cc) "value" s)) by constructor.
  destruct (dirty cc); simpl; [|by apply rtc_once].
  assert (Hwf1 : wf (track (computedObj cc) "value" s)) by (by eapply wf_prim).
  pose proof (Hrec (CRun (computedEffect cc)) _ Hwf1) as H1. simpl in H1.
  rewrite scheduler_of_track in H1. specialize (H1 (wf_computeds _ Hwf _ _ E)).
  destruct (rec (CRun (computedEffect cc)) _) as [v s1|x s1|]; simpl in *; [| |done].
  - eapply rtc_l; [done|]. eapply rtc_r; [done|].
    apply prim_computed. by intros [].
  - by eapply rtc_l.
Qed.

Lemma exec_body_sound p s :
  wf s → after (rtc (prim false) s) (exec_body rec p s).
Proof.
  revert s. induction p as [v|x|v k IH|t f k IH|t f v k IH|c k IH|cbfn k IH]; intros s Hwf; simpl.
  - done.
  - done.
  - eapply after_trans; [apply rtc_once, prim_emit|]. apply IH.
    eapply wf_prim; [apply (prim_emit false)|done].
  - assert (H1 : rtc (prim false) s (log (EvGet t f (reflect_get t f (track t f s))) (track t f s))).
    { eapply rtc_l; [apply prim_track|]. apply rtc_once, prim_get. }
    eapply after_trans; [done|]. apply IH. by eapply wf_prims.
  - assert (H0 : prim false s (log (EvSet t f v) (reflect_set t f v s))) by constructor.
    pose proof (trigger_body_sound t f _ (wf_prim _ _ _ H0 Hwf)) as H1.
    destruct (trigger_body rec t f _) as [v1 s1|x s1|]; simpl in *; [| |done].
    + eapply after_trans; [by eapply rtc_l|]. apply IH.
      eapply wf_prims; [done|]. by eapply wf_prim.
    + by eapply rtc_l.
  - pose proof (read_computed_sound c s Hwf) as H1.
    destruct (read_computed rec c s) as [v1 s1|x s1|]; simpl in *; [|done..].
    eapply after_trans; [done|]. apply IH. by eapply wf_prims.
  - pose proof (prim_nextTick false cbfn s) as H0.
    destruct (nextTick cbfn s) as [p s1]; simpl in *.
    eapply after_trans; [by apply rtc_once|]. apply IH. by eapply wf_prim.
Qed.

Lemma run_body_sound e s :
  wf s → is_Some (scheduler_of s e) →
  after (rtc (prim false) s) (run_body rec e s).
Proof.
  intros Hwf He. unfold run_body.
  destruct (effects s !! e) as [eff|] eqn:E; simpl; [|done].
  assert (H0 : prim false s (begin_run e s)) by (constructor; by right).
  pose proof (exec_body_sound (fn eff) _ (wf_prim _ _ _ H0 Hwf)) as H1.
  destruct (exec_body rec (fn eff) _) as [v s1|x s1|]; simpl in *; [| |done].
  - eapply rtc_l; [done|]. eapply rtc_r; [done|]. constructor.
  - eapply rtc_l; [done|]. eapply rtc_r; [done|]. constructor.
Qed.
End Soundness.

Lemma step_sound n : sound (step n).
Proof.
  induction n as [|n IH]; intros c s Hwf Hc; simpl; [done|].
  destruct c as [p|e|t f].
  - by apply exec_body_sound.
  - by apply run_body_sound.
  - by apply trigger_body_sound.
Qed.

Lemma exec_sound n p s : wf s → after (rtc (prim false) s) (exec n p s).
Proof. apply exec_body_sound, step_sound. Qed.

Lemma trigger_sound n t f s : wf s → after (rtc (prim false) s) (trigger n t f s).
Proof. apply trigger_body_sound, step_sound. Qed.

Lemma set_delete_absent `{EqDecision A} (x : A) l : x ∉ l → set_delete x l = l.
Proof.
  unfold set_delete. induction l as [|y l IH]; [done|].
  rewrite not_elem_of_cons. intros [Hne Hl].
  rewrite filter_cons_True by done. by rewrite IH.
Qed.

Lemma not_elem_of_set_delete `{EqDecision A} (x : A) l : x ∉ set_delete x l.
Proof. unfold set_delete. rewrite list_elem_of_filter. tauto. Qed.

Lemma elem_of_set_delete `{EqDecision A} (x y : A) l : y ∈ set_delete x l ↔ y ≠ x ∧ y ∈ l.
Proof. unfold set_delete. by rewrite list_elem_of_filter. Qed.

Lemma lookup2_bucket_delete e tm d t f :
  lookup2 (bucket_delete e tm d) t f =
  if decide (d = (t, f)) then set_delete e <$> lookup2 tm t f else lookup2 tm t f.
Proof.
  unfold lookup2, bucket_delete.
  destruct (decide (d = (t, f))) as [->|Hd]; simpl.
  - rewrite lookup_alter_eq. destruct (tm !! t) as [depMap|]; simpl; [|done].
    by rewrite lookup_alter_eq.
  - destruct d as [t' f']. simpl.
    destruct (decide (t' = t)) as [->|Ht].
    + rewrite lookup_alter_eq. destruct (tm !! t) as [depMap|]; simpl; [|done].
      rewrite lookup_alter_ne; [done|congruence].
    + by rewrite lookup_alter_ne.
Qed.

Lemma bucket_delete_absent e tm d :
  (∀ l, lookup2 tm d.1 d.2 = Some l → e ∉ l) → bucket_delete e tm d = tm.
Proof.
  intros H. unfold bucket_delete. apply alter_id. intros depMap Hd.
  apply alter_id. intros l Hl. apply set_delete_absent, H.
  unfold lookup2. by rewrite Hd.
Qed.

Lemma lookup2_foldl_delete e ds tm t f :
  lookup2 (foldl (bucket_delete e) tm ds) t f =
  if decide ((t, f) ∈ ds) then set_delete e <$> lookup2 tm t f else lookup2 tm t f.
Proof.
  revert tm. induction ds as [|d ds IH]; intros tm; cbn [foldl].
  - case_decide as H; [|done]. by apply elem_of_nil in H.
  - rewrite IH, lookup2_bucket_delete.
    destruct (decide (d = (t, f))) as [->|Hd].
    + destruct (decide ((t, f) ∈ (t, f) :: ds)) as [_|Hn]; [|exfalso; apply Hn; by left].
      case_decide; [|done].
      destruct (lookup2 tm t f) as [l|]; simpl; [|done].
      f_equal. apply set_delete_absent, not_elem_of_set_delete.
    + destruct (decide ((t, f) ∈ ds)) as [Hin|Hin].
      * destruct (decide ((t, f) ∈ d :: ds)) as [_|Hn]; [done|]. exfalso; apply Hn; by right.
      * destruct (decide ((t, f) ∈ d :: ds)) as [Hy|_]; [|done].
        apply elem_of_cons in Hy as [Hy|Hy]; congruence.
Qed.

Lemma foldl_delete_absent e ds tm :
  (∀ d l, d ∈ ds → lookup2 tm d.1 d.2 = Some l → e ∉ l) →
  foldl (bucket_delete e) tm ds = tm.
Proof.
  revert tm. induction ds as [|d ds IH]; intros tm H; simpl; [done|].
  rewrite bucket_delete_absent.
  - apply IH. intros d' l Hd'. apply (H d' l). by right.
  - intros l. apply (H d l). by left.
Qed.

(** The buckets after [cleanup]: the effect has left those of its [deps],
    the others are as they were. *)
Lemma bucket_cleanup e s eff t f :
  effects s !! e = Some eff →
  bucket (cleanup e s) t f =
  if decide ((t, f) ∈ deps eff) then set_delete e <$> bucket s t f else bucket s t f.
Proof.
  intros He. unfold cleanup, bucket. rewrite He. simpl.
  apply lookup2_foldl_delete.
Qed.

(** [cleanup] keeps the members of [deps]: only the property [length]
    changes. *)
Lemma deps_cleanup e s eff :
  effects s !! e = Some eff →
  effects (cleanup e s) !! e = Some (with_length 0 eff).
Proof.
  intros He. unfold cleanup. rewrite He. simpl.
  by rewrite list_lookup_alter_eq, He.
Qed.

Lemma cleanup_cleanup e s : cleanup e (cleanup e s) = cleanup e s.
Proof.
  destruct (effects s !! e) as [eff|] eqn:He.
  - unfold cleanup at 1. rewrite (deps_cleanup _ _ _ He).
    unfold cleanup. rewrite He. unfold set_effects, set_targetMap. simpl. f_equal.
    + apply foldl_delete_absent. intros [t f] l Hd. simpl.
      pose proof (lookup2_foldl_delete e (deps eff) (targetMap s) t f) as H.
      destruct (decide ((t, f) ∈ deps eff)); [|done]. unfold lookup2 in *. rewrite H.
      destruct (targetMap s !! t ≫= _) as [l0|]; simpl; [|done].
      intros [= <-]. apply not_elem_of_set_delete.
    + rewrite list_alter_alter_eq. by apply list_alter_ext.
  - unfold cleanup. rewrite He. simpl. by rewrite He.
Qed.

(** ** What a change does to the trace and to the records *)

Lemma heap_track t f s : heap (track t f s) = heap s.
Proof. unfold track. by destruct (activeEffect s). Qed.
Lemma trace_track t f s : trace (track t f s) = trace s.
Proof. unfold track. by destruct (activeEffect s). Qed.
Lemma heap_cleanup e s : heap (cleanup e s) = heap s.
Proof. unfold cleanup. by destruct (effects s !! e). Qed.
Lemma trace_cleanup e s : trace (cleanup e s) = trace s.
Proof. unfold cleanup. by destruct (effects s !! e). Qed.
Lemma heap_nextTick cbfn s : heap (nextTick cbfn s).2 = heap s.
Proof. unfold nextTick. simpl. by destruct (nextTickPending s). Qed.
Lemma trace_nextTick cbfn s : trace (nextTick cbfn s).2 = trace s.
Proof. unfold nextTick. simpl. by destruct (nextTickPending s). Qed.

Lemma reflect_get_heap t f s s' : heap s' = heap s → reflect_get t f s' = reflect_get t f s.
Proof. unfold reflect_get. by intros ->. Qed.


Lemma reflect_get_set_eq t f v s :
  t < length (heap s) → reflect_get t f (reflect_set t f v s) = v.
Proof.
  intros Hlt. unfold reflect_get, reflect_set. simpl.
  rewrite list_lookup_alter_eq.
  destruct (lookup_lt_is_Some_2 _ _ Hlt) as [r ->]. simpl.
  by rewrite lookup_insert_eq.
Qed.

Lemma prim_trace top s s' :
  prim top s s' →
  (trace s' = trace s ∧ heap s' = heap s) ∨
  (∃ ev, trace s' = trace s ++ [ev] ∧ logged top s ev s').
Proof.
  destruct 1; simpl.
  - left. by rewrite trace_track, heap_track.
  - right. by eexists.
  - right. by eexists.
  - right. by eexists.
  - by left.
  - by left.
  - by left.
  - by left.
  - left. by rewrite trace_nextTick, heap_nextTick.
  - right. exists (EvRun e). simpl. by rewrite trace_cleanup, heap_cleanup.
  - by left.
Qed.

Lemma runs_of_app e tr1 tr2 : runs_of e (tr1 ++ tr2) = runs_of e tr1 + runs_of e tr2.
Proof. unfold runs_of. by rewrite filter_app, length_app. Qed.



(** The update queue only grows, at its end, and holds no effect twice. *)
Lemma set_add_prefix `{EqDecision A} (x : A) l : l `prefix_of` set_add x l.
Proof. unfold set_add. case_decide; [done|]. by apply prefix_app_r. Qed.

Lemma set_add_NoDup `{EqDecision A} (x : A) l : NoDup l → NoDup (set_add x l).
Proof.
  unfold set_add. case_decide; [done|]. intros Hl.
  apply NoDup_app. split_and!; [done| |apply NoDup_singleton].
  intros y Hy ->%list_elem_of_singleton. done.
Qed.

Lemma queue_prims top s s' :
  rtc (prim top) s s' → NoDup (updateQueue s) →
  updateQueue s `prefix_of` updateQueue s' ∧ NoDup (updateQueue s').
Proof.
  induction 1 as [|s1 s2 s3 H1 _ IH]; intros Hnd; [done|].
  destruct (updateQueue_prim _ _ _ H1) as [E|(e & _ & E)].
  - rewrite <- E. apply IH. by rewrite E.
  - destruct IH as [Hp Hn]; [rewrite E; by apply set_add_NoDup|].
    split; [|done]. etrans; [|done]. rewrite E. apply set_add_prefix.
Qed.






(** ** One run of an effect from the update queue *)




(** ** The visit of the update queue *)



Lemma notify_default rec l s :
  (∀ x, x ∈ l → scheduler_of s x = None) →
  notify rec l s = Ok VUndef (foldl (λ s x, enqueue x s) s l).
Proof.
  revert s. induction l as [|x l IH]; intros s H; simpl; [done|].
  rewrite (H x) by (by left). apply IH. intros y Hy.
  change (scheduler_of s y = None). apply H. by right.
Qed.


Section Enqueued.
Variables (t : target) (f : key) (l : list eid).

(** What enqueueing leaves alone. *)
Lemma foldl_enqueue_frame s :
  heap (foldl (λ s x, enqueue x s) s l) = heap s ∧
  targetMap (foldl (λ s x, enqueue x s) s l) = targetMap s ∧
  effects (foldl (λ s x, enqueue x s) s l) = effects s ∧
  microtasks (foldl (λ s x, enqueue x s) s l) = microtasks s ∧
  updatePendding (foldl (λ s x, enqueue x s) s l) = updatePendding s ∧
  trace (foldl (λ s x, enqueue x s) s l) = trace s ∧
  (∀ x, x ∈ updateQueue (foldl (λ s x, enqueue x s) s l) ↔ x ∈ l ∨ x ∈ updateQueue s).
Proof.
  revert s. induction l as [|x l' IH]; intros s; simpl.
  - split_and!; try done. intros x. rewrite elem_of_nil. tauto.
  - destruct (IH (enqueue x s)) as (-> & -> & -> & -> & -> & -> & Hq).
    split_and!; try done. intros y. rewrite Hq. simpl.
    rewrite elem_of_set_add, elem_of_cons. tauto.
Qed.


End Enqueued.









Lemma wf_frame s s' :
  computeds s' = computeds s → watchers s' = watchers s →
  effects s' = effects s → (∀ x, x ∈ updateQueue s' → x ∈ updateQueue s) →
  wf s → wf s'.
Proof.
  intros Hc Hw He Hq [H1 H2 H3].
  assert (Hs : ∀ x, scheduler_of s' x = scheduler_of s x)
    by (intros x; unfold scheduler_of; by rewrite He).
  split.
  - intros c cc. rewrite Hc, Hs. apply H1.
  - intros w wr. rewrite Hw, Hs. apply H2.
  - intros x Hx. rewrite Hs. auto.
Qed.




Lemma activeEffect_track t f s : activeEffect (track t f s) = activeEffect s.
Proof. unfold track. destruct (activeEffect s) eqn:E; simpl; congruence. Qed.
Lemma effectStack_track t f s : effectStack (track t f s) = effectStack s.
Proof. unfold track. by destruct (activeEffect s). Qed.
Lemma updatePendding_track t f s : updatePendding (track t f s) = updatePendding s.
Proof. unfold track. by destruct (activeEffect s). Qed.
Lemma microtasks_track t f s : microtasks (track t f s) = microtasks s.
Proof. unfold track. by destruct (activeEffect s). Qed.



Lemma runs_of_log_other x ev s :
  (∀ e, ev ≠ EvRun e) → runs_of x (trace (log ev s)) = runs_of x (trace s).
Proof.
  intros H. simpl. rewrite runs_of_app. unfold runs_of at 2.
  rewrite filter_cons_False by (intros ->; by eapply H). simpl. lia.
Qed.



Lemma track_top t f s : activeEffect s = None → track t f s = s.
Proof. intros H. unfold track. by rewrite H. Qed.


Lemma effectStack_cleanup e s : effectStack (cleanup e s) = effectStack s.
Proof. unfold cleanup. by destruct (effects s !! e). Qed.











Example reentrant_setup_ok :
  updateQueue reentrant_setup = [] ∧ microtasks reentrant_setup = [] ∧
  bucket reentrant_setup 0 "a" = Some [0] ∧ bucket reentrant_setup 0 "b" = Some [1] ∧
  updateQueue reentrant_writes = [0; 1] ∧ microtasks reentrant_writes = [FlushUpdate].
Proof. vm_compute. done. Qed.

(** C1.  Both effects are queued.  During the drain the second effect
    assigns [state.a], on which the first effect, already visited,
    depends.  The trigger finds the flag cleared and queues a second
    flush; but [updateQueue.add] does nothing for a member of the set, and
    [updateQueue.clear()] after the drain empties it: the second flush
    finds no effect, and the first effect is never run with [a = 11]. *)
Theorem reentrant_trigger_rerun_lost :
  let s1 := default init (next_microtask 3 reentrant_writes) in
  let s2 := default init (run_microtasks 3 s1) in
  is_Some (next_microtask 3 reentrant_writes) ∧
  microtasks s1 = [FlushUpdate] ∧ updatePendding s1 = true ∧ updateQueue s1 = [] ∧
  is_Some (run_microtasks 3 s1) ∧
  microtasks s2 = [] ∧ updatePendding s2 = false ∧ updateQueue s2 = [] ∧
  reflect_get 0 "a" s2 = VNum 11 ∧
  bucket s2 0 "a" = Some [0] ∧
  runs_of 0 (trace s2) = S (runs_of 0 (trace reentrant_writes)) ∧
  last (emits (trace s2)) = Some (VNum 5).
Proof. vm_compute. split_and!; try done; try (by eexists). Qed.

(** C4.  After its second run the effect is registered in the buckets of
    [flag] and [b], those it touched, and has left the bucket of [a]; but
    its own [deps] still holds the bucket of [a]: [this.deps.length = 0]
    has set a property [length] on the [Set] and removed nothing. *)
Theorem cleanup_keeps_stale_deps :
  deps <$> effects stale_setup !! 0 = Some [(0, "flag"); (0, "a")] ∧
  touched_since_run 0 (trace stale_final) [] = [(0, "flag"); (0, "b")] ∧
  deps <$> effects stale_final !! 0 = Some [(0, "flag"); (0, "a"); (0, "b")] ∧
  deps_length <$> effects stale_final !! 0 = Some (Some 0%Z) ∧
  bucket stale_final 0 "a" = Some [] ∧
  bucket stale_final 0 "b" = Some [0] ∧
  runs_of 0 (trace stale_final) = 2.
Proof. vm_compute. done. Qed.

(** C3.  The second call finds the flag set: the executor of its promise
    does nothing, and no job holds its [resolve] or [reject].  When the
    microtask queue is empty again the first promise is fulfilled and the
    second is still pending, with nothing left that could settle it. *)
Theorem second_nextTick_never_settles :
  let s' := default init (run_microtasks 2 two_ticks) in
  promises two_ticks = [Pending; Pending] ∧
  microtasks two_ticks = [FlushTick 0] ∧
  is_Some (run_microtasks 2 two_ticks) ∧
  promises s' = [Fulfilled; Pending] ∧
  microtasks s' = [] ∧ nextTickCallbacks s' = [] ∧ nextTickPending s' = false.
Proof. vm_compute. split_and!; try done; try (by eexists). Qed.

(** C7, as stated, fails: the callback after the one that raises is
    never invoked. *)
Lemma raising_callback_stops_flush :
  let s' := default init (run_microtasks 2 three_callbacks) in
  length (nextTickCallbacks three_callbacks) = 3 ∧
  is_Some (run_microtasks 2 three_callbacks) ∧
  promises s' !! 0 = Some (Rejected (VStr "boom")) ∧
  emits (trace s') = [VNum 1] ∧ ticks (trace s') = 2 ∧
  microtasks s' = [] ∧ nextTickCallbacks s' = [] ∧ nextTickPending s' = false.
Proof. vm_compute. split_and!; try done; try (by eexists). Qed.

Lemma nextTickPending_track t f s : nextTickPending (track t f s) = nextTickPending s.
Proof. unfold track. by destruct (activeEffect s). Qed.
Lemma nextTickPending_cleanup e s : nextTickPending (cleanup e s) = nextTickPending s.
Proof. unfold cleanup. by destruct (effects s !! e). Qed.
Lemma microtasks_cleanup e s : microtasks (cleanup e s) = microtasks s.
Proof. unfold cleanup. by destruct (effects s !! e). Qed.

Lemma tick_consistent_prim top s s' : prim top s s' → tick_consistent s → tick_consistent s'.
Proof.
  unfold tick_consistent. destruct 1; simpl; try done.
  - by rewrite microtasks_track, nextTickPending_track.
  - rewrite filter_app. change (filter is_tick [FlushUpdate]) with (@nil task).
    by rewrite app_nil_r.
  - unfold nextTick. simpl. destruct (nextTickPending s) eqn:E; simpl; [done|].
    rewrite filter_app, length_app. intros ->. done.
  - by rewrite microtasks_cleanup, nextTickPending_cleanup.
Qed.

Lemma promises_prim top s s' : prim top s s' → promises s `prefix_of` promises s'.
Proof.
  destruct 1; simpl; try done.
  - unfold track. by destruct (activeEffect s).
  - unfold nextTick. simpl. destruct (nextTickPending s); simpl; by apply prefix_app_r.
  - unfold cleanup. by destruct (effects s !! e).
Qed.

Lemma ticks_prim top s s' : prim top s s' → ticks (trace s') = ticks (trace s).
Proof.
  intros Hp. destruct (prim_trace _ _ _ Hp) as [[-> _]|(ev & -> & Hev)]; [done|].
  unfold ticks. rewrite filter_app, length_app.
  rewrite filter_cons_False; [simpl; lia|]. intros ->. done.
Qed.

Lemma flush_inv_refl s : flush_inv s s.
Proof. by split. Qed.

Lemma flush_inv_trans s1 s2 s3 : flush_inv s1 s2 → flush_inv s2 s3 → flush_inv s1 s3.
Proof.
  intros [] []. split; [tauto..|]. by etrans.
Qed.

Lemma flush_inv_prims top s s' : rtc (prim top) s s' → flush_inv s s'.
Proof.
  induction 1 as [|s1 s2 s3 H1 _ IH]; [apply flush_inv_refl|].
  eapply flush_inv_trans; [|done]. split.
  - by apply (wf_prim top).
  - by apply (tick_consistent_prim top).
  - by apply (promises_prim top).
Qed.

Lemma flush_inv_log ev s : flush_inv s (log ev s).
Proof. split; try done. by apply wf_frame. Qed.

Lemma ticks_prims top s s' : rtc (prim top) s s' → ticks (trace s') = ticks (trace s).
Proof.
  induction 1 as [|s1 s2 s3 H1 _ IH]; [done|]. rewrite IH. by eapply ticks_prim.
Qed.

Lemma run_callbacks_app n pre rest s :
  run_callbacks n (pre ++ rest) s =
  match run_callbacks n pre s with
  | Ok _ s1 => run_callbacks n rest s1
  | o => o
  end.
Proof.
  revert s. induction pre as [|[p|] pre IH]; intros s; simpl; [done| |apply IH].
  destruct (exec n p (log EvTick s)); [apply IH|done..].
Qed.

Lemma run_callbacks_ok n cbs : ∀ s v s',
  wf s → run_callbacks n cbs s = Ok v s' →
  flush_inv s s' ∧ ticks (trace s') = ticks (trace s) + length cbs.
Proof.
  induction cbs as [|[p|] cbs IH]; intros s v s' Hwf; simpl.
  - intros [= _ <-]. split; [apply flush_inv_refl|lia].
  - pose proof (exec_sound n p (log EvTick s)) as Hs.
    destruct (exec n p (log EvTick s)) as [v1 s1|x1 s1|]; [|done..]. simpl in Hs.
    assert (Hwf0 : wf (log EvTick s)) by (by apply (wf_frame s)).
    specialize (Hs Hwf0). intros Hr.
    destruct (IH _ _ _ (wf_prims _ _ _ Hs Hwf0) Hr) as [Hi Ht]. split.
    + eapply flush_inv_trans; [apply (flush_inv_log EvTick)|].
      eapply flush_inv_trans; [by eapply flush_inv_prims|done].
    + rewrite Ht, (ticks_prims _ _ _ Hs). simpl. unfold ticks.
      rewrite filter_app, length_app. rewrite filter_cons_True by done. simpl. lia.
  - intros Hr. assert (Hwf0 : wf (log EvTick s)) by (by apply (wf_frame s)).
    destruct (IH _ _ _ Hwf0 Hr) as [Hi Ht]. split.
    + eapply flush_inv_trans; [apply (flush_inv_log EvTick)|done].
    + rewrite Ht. simpl. unfold ticks.
      rewrite filter_app, length_app. rewrite filter_cons_True by done. simpl. lia.
Qed.

(** C7, amended.  The job of [nextTick] for promise [p] runs the
    callbacks from a state in which the pending flag is cleared and the
    list is empty.  When the callbacks [pre] return and the next one,
    [c], raises [x], the job ends there: [p] is rejected with [x], the
    callbacks [post] after [c] in the snapshot are not invoked (and are
    no longer in the list), and the pending flag still says whether a job
    is queued. *)
Theorem flush_stops_at_raising_callback (n : nat) (s : state) (p : pid)
    (pre post : list (option prog)) (c : prog) (x : value) (s1 s2 : state) :
  wf s →
  filter is_tick (microtasks s) = [] →
  promises s !! p = Some Pending →
  nextTickCallbacks s = pre ++ Some c :: post →
  let s0 := set_tick false (λ _, []) s in
  run_callbacks n pre s0 = Ok VUndef s1 →
  exec n c (log EvTick s1) = Err x s2 →
  nextTickPending s0 = false ∧ nextTickCallbacks s0 = [] ∧
  flushCallbacks n s = Err x s2 ∧
  run_task n (FlushTick p) s = Some (settle p (Rejected x) s2) ∧
  promises (settle p (Rejected x) s2) !! p = Some (Rejected x) ∧
  ticks (trace (settle p (Rejected x) s2)) = ticks (trace s) + length pre + 1 ∧
  tick_consistent (settle p (Rejected x) s2).
Proof.
  intros Hwf Hq Hp Hcbs s0 Hpre Hc.
  assert (Hwf0 : wf s0) by (by apply (wf_frame s)).
  assert (Htc0 : tick_consistent s0) by (unfold tick_consistent; simpl; by rewrite Hq).
  destruct (run_callbacks_ok _ _ _ _ _ Hwf0 Hpre) as [[Hwf1 Htc1 Hpr1] Ht1].
  assert (Hwf1' : wf (log EvTick s1)) by (apply (wf_frame s1); auto).
  pose proof (exec_sound n c (log EvTick s1) Hwf1') as Hs. rewrite Hc in Hs. simpl in Hs.
  destruct (flush_inv_prims _ _ _ Hs) as [_ Htc2 Hpr2].
  assert (Hflush : flushCallbacks n s = Err x s2).
  { unfold flushCallbacks. fold s0. rewrite Hcbs, run_callbacks_app, Hpre. simpl.
    by rewrite Hc. }
  split_and!; [done..| | | |].
  - unfold run_task. by rewrite Hflush.
  - unfold settle. simpl. rewrite list_lookup_alter_eq.
    assert (promises s2 !! p = Some Pending) as ->; [|done].
    eapply prefix_lookup_Some; [|exact Hpr2]. simpl.
    eapply prefix_lookup_Some; [|exact Hpr1]. done.
  - simpl. rewrite (ticks_prims _ _ _ Hs). simpl. unfold ticks in *.
    rewrite filter_app, length_app, Ht1. rewrite filter_cons_True by done. simpl. lia.
  - unfold tick_consistent, settle. simpl. apply Htc2. by apply Htc1.
Qed.

(** C9.  The handles of [ref] and of [computed] carry the same tag,
    [__v_isRef = true], and [isRef] answers [true] for both; applied to
    [null] or [undefined] it answers [false] and does not raise. *)
Theorem isRef_does_not_tell_ref_from_computed (v : value) (gatter : prog) (s s' : state) :
  __v_isRef (ref v s).1 = true ∧
  __v_isRef (computed gatter s').1 = true ∧
  isRef (JHandle (ref v s).1) = Normal true ∧
  isRef (JHandle (computed gatter s').1) = Normal true ∧
  isRef (JPrim VNull) = Normal false ∧
  isRef (JPrim VUndef) = Normal false.
Proof. done. Qed.

(** C10.  The disposer is [() => watchEffect.cleanup()].  Called again,
    any number of times, after a first call, it leaves the whole state,
    and so every bucket of the registry, as the first call left it. *)
Theorem dispose_idempotent (e : eid) (s : state) (k : nat) :
  Nat.iter k (dispose e) (dispose e s) = dispose e s ∧
  targetMap (Nat.iter k (dispose e) (dispose e s)) = targetMap (dispose e s) ∧
  ∀ t f, bucket (Nat.iter k (dispose e) (dispose e s)) t f = bucket (dispose e s) t f.
Proof.
  assert (H : Nat.iter k (dispose e) (dispose e s) = dispose e s).
  { induction k as [|k IH]; [done|]. simpl. rewrite IH. apply cleanup_cleanup. }
  by rewrite H.
Qed.

(** ** Registering a hook outside of setup *)

Section HookFacts.
Import Lifecycle.
Variable hook : Type.


(** With an instance in setup the function is appended to its list. *)
Lemma hook_in_setup_is_appended (fn : hook) (st : lstate hook) (i : nat)
    (inst : ComponentInstance hook) :
  currentInstance hook st = Some i → instances hook st !! i = Some inst →
  ∃ st', onMounted hook fn st = Normal st' ∧
         mounted hook <$> (hooks hook <$> instances hook st' !! i)
         = Some (mounted hook (hooks hook inst) ++ [fn]).
Proof.
  intros Hc Hi. unfold onMounted. rewrite Hc. eexists. split; [done|]. simpl.
  by rewrite list_lookup_alter_eq, Hi.
Qed.
End HookFacts.



(** ** The scenarios of the specification, run *)

Lemma wf_no_closures s :
  computeds s = [] → watchers s = [] → updateQueue s = [] → wf s.
Proof.
  intros Hc Hw Hq. split.
  - intros c cc. by rewrite Hc, lookup_nil.
  - intros w wr. by rewrite Hw, lookup_nil.
  - intros x. rewrite Hq. by intros ?%elem_of_nil.
Qed.

(** [state.count = 1] three times, then the flush: the effect runs once
    and sees [1]. *)
Example counter_three_writes :
  let s1 := outcome_state (exec 0 (writes 0 "count" [VNum 1; VNum 1; VNum 1]) counter_setup) in
  let s2 := default init (run_microtasks 3 s1) in
  emits (trace counter_setup) = [VNum 0] ∧
  updateQueue s1 = [0] ∧ microtasks s1 = [FlushUpdate] ∧
  runs_of 0 (trace s1) = 1 ∧
  is_Some (run_microtasks 3 s1) ∧
  runs_of 0 (trace s2) = 2 ∧ emits (trace s2) = [VNum 0; VNum 1] ∧
  microtasks s2 = [].
Proof. vm_compute. split_and!; try done; by eexists. Qed.


(** Nothing at creation; three reads, one run; an assignment and two
    reads, one more run. *)
Example computed_scenario :
  let s1 := (computed cell_gatter cell_setup).2 in
  let s2 := outcome_state (exec 1 (read_times 0 3) s1) in
  let s3 := outcome_state (exec 1 (Put 0 "count" (VNum 5) (read_times 0 2)) s2) in
  runs_of 0 (trace s1) = 0 ∧
  exec 1 (read_times 0 3) s1 = Ok (VNum 2) s2 ∧
  runs_of 0 (trace s2) = 1 ∧
  bucket s2 0 "count" = Some [0] ∧
  exec 1 (Put 0 "count" (VNum 5) (read_times 0 2)) s2 = Ok (VNum 6) s3 ∧
  runs_of 0 (trace s3) = 2 ∧ emits (trace s3) = [VNum 1; VNum 5].
Proof. vm_compute. split_and!; done. Qed.


Lemma flush_stops_at_raising_callback_witness :
  let s0 := set_tick false (λ _, []) three_callbacks_job in
  let s1 := outcome_state (run_callbacks 0 [Some (Emit (VNum 1) (Ret VUndef))] s0) in
  let s2 := outcome_state (exec 0 (Throw (VStr "boom")) (log EvTick s1)) in
  nextTickPending s0 = false ∧ nextTickCallbacks s0 = [] ∧
  flushCallbacks 0 three_callbacks_job = Err (VStr "boom") s2 ∧
  run_task 0 (FlushTick 0) three_callbacks_job = Some (settle 0 (Rejected (VStr "boom")) s2) ∧
  promises (settle 0 (Rejected (VStr "boom")) s2) !! 0 = Some (Rejected (VStr "boom")) ∧
  ticks (trace (settle 0 (Rejected (VStr "boom")) s2)) = ticks (trace three_callbacks_job) + 1 + 1 ∧
  tick_consistent (settle 0 (Rejected (VStr "boom")) s2).
Proof.
  intros s0 s1 s2.
  apply (flush_stops_at_raising_callback 0 three_callbacks_job 0
           [Some (Emit (VNum 1) (Ret VUndef))] [Some (Emit (VNum 3) (Ret VUndef))]
           (Throw (VStr "boom")) (VStr "boom") s1 s2).
  - apply wf_no_closures; reflexivity.
  - reflexivity.
  - reflexivity.
  - reflexivity.
  - reflexivity.
  - reflexivity.
Defined.

(** ** What rendering does to the document *)

Section RendererFacts.
Import Renderer.

Lemma vnode_nested_ind (P : vnode → Prop) :
  (∀ s, P (VString s)) →
  (∀ ty text props children items el, Forall P items → P (VObject ty text props children items el)) →
  (∀ text subTree children el, P subTree → P (VComponent text subTree children el)) →
  ∀ v, P v.
Proof.
  intros Hs Ho Hc. fix IH 1. intros [s|ty text props children items el|text subTree children el].
  - apply Hs.
  - apply Ho. induction items as [|v items IHitems]; constructor; [apply IH|apply IHitems].
  - apply Hc, IH.
Qed.

Lemma children_of_app_l d h i : i < length d → children_of (d ++ [h]) i = children_of d i.
Proof. intros Hi. unfold children_of. by rewrite lookup_app_l. Qed.

Lemma children_of_ge d i : length d ≤ i → children_of d i = [].
Proof. intros Hi. unfold children_of. by rewrite lookup_ge_None_2. Qed.

Lemma children_of_with_children g (d : document) i n :
  is_elem d n →
  children_of (alter (with_children g) n d) i =
  if decide (n = i) then g (children_of d i) else children_of d i.
Proof.
  intros [e He]. unfold children_of. case_decide as Hn.
  - subst. by rewrite list_lookup_alter_eq, He.
  - by rewrite list_lookup_alter_ne.
Qed.

Lemma with_children_id g h :
  (∀ e, h = Elem e → g (childNodes e) = childNodes e) → with_children g h = h.
Proof. destruct h as [|e]; [done|]. intros H. simpl. rewrite (H e eq_refl). by destruct e. Qed.

Lemma detach_only el parent (d : document) :
  (∀ i, i ≠ parent → el ∉ children_of d i) →
  detach el d = alter (with_children (filter (λ c, c ≠ el))) parent d.
Proof.
  intros H. apply list_eq. intros i. unfold detach. rewrite list_lookup_fmap.
  destruct (decide (parent = i)) as [->|Hne].
  - by rewrite list_lookup_alter_eq.
  - rewrite list_lookup_alter_ne by done.
    destruct (d !! i) as [h|] eqn:E; [|done]. simpl. f_equal.
    apply with_children_id. intros e ->.
    specialize (H i (not_eq_sym Hne)). unfold children_of in H. rewrite E in H.
    clear E. induction (childNodes e) as [|c l IH]; [done|].
    apply not_elem_of_cons in H as [Hc Hl].
    rewrite filter_cons_True by done. by rewrite IH.
Qed.

Lemma filter_fresh (el : node) (l : list node) : el ∉ l → filter (λ c, c ≠ el) l = l.
Proof.
  induction l as [|c l IH]; [done|]. intros [Hc Hl]%not_elem_of_cons.
  rewrite filter_cons_True by done. by rewrite IH.
Qed.

Lemma filter_snoc_fresh (el : node) (l : list node) :
  el ∉ l → filter (λ c, c ≠ el) (l ++ [el]) = l.
Proof.
  intros H. rewrite filter_app, (filter_fresh _ _ H).
  assert (filter (λ c, c ≠ el) [el] = []) as ->; [|by rewrite app_nil_r].
  rewrite filter_cons_False; [done|]. intros Hn. by apply Hn.
Qed.

(** What attaching does, when [el] hangs nowhere but, possibly, under
    [parent]. *)
Lemma attach_spec parent el oldDom (d d' : document) :
  attach parent el oldDom d = Normal d' →
  (∀ i, i ≠ parent → el ∉ children_of d i) →
  (∀ old, oldDom = Some old → old ≠ el) →
  is_elem d parent ∧
  d' = alter (with_children (λ l, attach_list oldDom el (filter (λ c, c ≠ el) l))) parent d.
Proof.
  intros Ha Hel Hold. unfold attach, appendChild, replaceChild in Ha.
  destruct oldDom as [old|].
  - destruct (d !! parent) as [[|e]|] eqn:E; [done| |done].
    destruct (decide (old ∈ childNodes e)); [|done].
    destruct (decide (el = old)) as [->|Hne]; [by destruct (Hold old)|].
    injection Ha as <-. split; [by exists e|].
    rewrite (detach_only el parent d Hel), list_alter_alter_eq.
    apply list_alter_ext; [|done]. by intros [|?] _.
  - destruct (d !! parent) as [[|e]|] eqn:E; [done| |done].
    injection Ha as <-. split; [by exists e|].
    rewrite (detach_only el parent d Hel), list_alter_alter_eq.
    apply list_alter_ext; [|done]. by intros [|?] _.
Qed.

Lemma elem_of_replace_first old el l c :
  c ∈ replace_first old el l → c = el ∨ c ∈ l.
Proof.
  induction l as [|x l IH]; simpl; [by intros ?%elem_of_nil|].
  case_decide; rewrite !elem_of_cons; [tauto|].
  intros [->|Hc]; [by right; left|]. destruct (IH Hc); [by left|by right; right].
Qed.

Lemma elem_of_attach_list oldDom el l c :
  c ∈ attach_list oldDom el l → c = el ∨ c ∈ l.
Proof.
  destruct oldDom as [old|]; simpl; [apply elem_of_replace_first|].
  rewrite elem_of_app, list_elem_of_singleton. tauto.
Qed.

Lemma is_elem_lt (d : document) n : is_elem d n → n < length d.
Proof. intros [e He]. by eapply lookup_lt_Some. Qed.

(** The last step of [renderVNode]: [el], created first in [d], and its
    descendants are in [d1]; [el] is attached under [parent]. *)
Lemma mount_rendered parent oldDom (d d1 : document) el r :
  doc_ok d → is_elem d parent →
  (∀ old, oldDom = Some old → old < length d) →
  el = length d → length d < length d1 → doc_ok d1 →
  (∀ i, i < length d → i ≠ parent → d1 !! i = d !! i) →
  is_elem d1 parent →
  filter (λ c, c ≠ el) (children_of d1 parent) = children_of d parent →
  (∀ i c, length d ≤ i → c ∈ children_of d1 i → i < c) →
  mount parent oldDom (el, d1) = Normal r →
  r.1 = el ∧ rendered parent oldDom d el r.2.
Proof.
  intros Hok Hpar Holdlt Hel Hlen Hok1 Hfr Hpar1 Hch Hnew. unfold mount. simpl.
  destruct (attach parent el oldDom d1) as [d'|] eqn:Ha; [|done].
  intros [= <-]. simpl. split; [done|].
  pose proof (is_elem_lt _ _ Hpar) as Hplt.
  assert (Hnot : ∀ i, i ≠ parent → el ∉ children_of d1 i).
  { intros i Hi Hin. destruct (decide (i < length d)) as [Hlt|Hge].
    - unfold children_of in Hin. rewrite (Hfr i Hlt Hi) in Hin.
      pose proof (Hok i el Hin). lia.
    - pose proof (Hnew i el ltac:(lia) Hin). lia. }
  assert (Hold : ∀ old, oldDom = Some old → old ≠ el).
  { intros old Ho. specialize (Holdlt old Ho). lia. }
  destruct (attach_spec _ _ _ _ _ Ha Hnot Hold) as [_ ->].
  assert (Hc' : ∀ i, children_of (alter (with_children (λ l, attach_list oldDom el (filter (λ c, c ≠ el) l))) parent d1) i
                = if decide (parent = i) then attach_list oldDom el (children_of d parent) else children_of d1 i).
  { intros i. rewrite children_of_with_children by done. case_decide; [|done]. subst. by rewrite Hch. }
  split.
  - done.
  - by rewrite length_alter.
  - intros i c. rewrite Hc', length_alter. case_decide.
    + intros [->|Hin]%elem_of_attach_list; [lia|]. pose proof (Hok _ _ Hin). lia.
    + apply Hok1.
  - intros i Hi Hne. rewrite list_lookup_alter_ne by done. by apply Hfr.
  - destruct Hpar1 as [e1 He1]. eexists. by rewrite list_lookup_alter_eq, He1.
  - rewrite Hc'. by case_decide.
  - intros i c Hi. rewrite Hc'. case_decide; [lia|]. by apply Hnew.
Qed.
End RendererFacts.

Section RendererFacts2.
Import Renderer.

Lemma doc_ok_snoc (d : document) h :
  doc_ok d → children_of (d ++ [h]) (length d) = [] → doc_ok (d ++ [h]).
Proof.
  intros Hok Hh i c. rewrite length_app. simpl.
  destruct (decide (i < length d)) as [Hlt|Hge].
  - rewrite children_of_app_l by done. intros Hin. pose proof (Hok _ _ Hin). lia.
  - destruct (decide (i = length d)) as [->|Hne].
    + rewrite Hh. by intros ?%elem_of_nil.
    + rewrite children_of_ge by (rewrite length_app; simpl; lia). by intros ?%elem_of_nil.
Qed.

(** A node created and left without children, then attached. *)
Lemma leaf_rendered parent oldDom (d : document) h r :
  doc_ok d → is_elem d parent →
  (∀ old, oldDom = Some old → old < length d) →
  children_of (d ++ [h]) (length d) = [] →
  mount parent oldDom (length d, d ++ [h]) = Normal r →
  r.1 = length d ∧ rendered parent oldDom d (length d) r.2.
Proof.
  intros Hok Hpar Hold Hh Hm.
  pose proof (is_elem_lt _ _ Hpar) as Hplt.
  eapply (mount_rendered parent oldDom d (d ++ [h])); try done.
  - rewrite length_app. simpl. lia.
  - by apply doc_ok_snoc.
  - intros i Hi _. by rewrite lookup_app_l.
  - destruct Hpar as [e He]. exists e. by rewrite lookup_app_l.
  - rewrite children_of_app_l by done. apply filter_fresh.
    intros Hin. pose proof (Hok _ _ Hin). lia.
  - intros i c Hi. destruct (decide (i = length d)) as [->|Hne].
    + rewrite Hh. by intros ?%elem_of_nil.
    + rewrite children_of_ge by (rewrite length_app; simpl; lia). by intros ?%elem_of_nil.
Qed.

Lemma setProp_childNodes e key v e' : setProp e key v = Normal e' → childNodes e' = childNodes e.
Proof.
  unfold setProp. repeat case_decide.
  - by intros [= <-].
  - destruct v; by intros [= <-].
  - destruct (on_suffix key); [destruct v|]; try done; by intros [= <-].
Qed.

Lemma setProps_element_childNodes ps : ∀ e e',
  setProps_element e ps = Normal e' → childNodes e' = childNodes e.
Proof.
  induction ps as [|[key v] ps IH]; intros e e'; simpl; [by intros [= <-]|].
  destruct (setProp e key v) as [e1|] eqn:E; [|done].
  intros H. rewrite (IH _ _ H). by eapply setProp_childNodes.
Qed.

Lemma setProps_spec el ps (d d' : document) :
  setProps el ps d = Normal d' →
  ∃ e e', d !! el = Some (Elem e) ∧ d' = <[el := Elem e']> d ∧ childNodes e' = childNodes e.
Proof.
  unfold setProps. destruct (d !! el) as [[|e]|] eqn:E; [done| |done].
  destruct (setProps_element e ps) as [e'|] eqn:E'; [|done].
  intros [= <-]. exists e, e'. split_and!; [done..|]. by eapply setProps_element_childNodes.
Qed.

Lemma rendering_child (d dk : document) ce dk' :
  rendering d dk → rendered (length d) None dk ce dk' → rendering d dk'.
Proof.
  intros [Hg Hok Hfr He Hn] [Hel Hgr Hok' Hfr' Hpe Hpar Hnew]. split.
  - lia.
  - done.
  - intros i Hi. rewrite Hfr' by lia. by apply Hfr.
  - done.
  - intros i c Hi. destruct (decide (length dk ≤ i)) as [Hge|Hlt]; [by apply Hnew|].
    destruct (decide (i = length d)) as [->|Hne].
    + rewrite Hpar. simpl. intros [Hin|Hin]%elem_of_app; [by apply Hn|].
      apply list_elem_of_singleton in Hin. lia.
    + unfold children_of. rewrite Hfr' by lia. by apply Hn.
Qed.

Lemma forEach_child_rendering f (d : document) items : ∀ dk d',
  Forall (λ child, ∀ dk r, doc_ok dk → is_elem dk (length d) →
            f child dk = Normal r → rendered (length d) None dk r.1 r.2) items →
  rendering d dk →
  forEach_child f items dk = Normal d' → rendering d d'.
Proof.
  induction items as [|child items IH]; intros dk d' Hall Hdk; simpl.
  - by intros [= <-].
  - apply Forall_cons in Hall as [Hc Hall].
    destruct (f child dk) as [r|] eqn:E; [|done]. intros Hr.
    eapply IH; [done| |done]. eapply rendering_child; [done|].
    apply Hc; [apply Hdk..|done].
Qed.
End RendererFacts2.

Section RendererFacts3.
Import Renderer.

Lemma rendering_element (d : document) e :
  doc_ok d → childNodes e = [] → rendering d (d ++ [Elem e]).
Proof.
  intros Hok He.
  assert (Hc : children_of (d ++ [Elem e]) (length d) = []).
  { unfold children_of. by rewrite list_lookup_middle. }
  split.
  - rewrite length_app. simpl. lia.
  - by apply doc_ok_snoc.
  - intros i Hi. by rewrite lookup_app_l.
  - exists e. by rewrite list_lookup_middle.
  - intros i c Hi. destruct (decide (i = length d)) as [->|Hne].
    + rewrite Hc. by intros ?%elem_of_nil.
    + rewrite children_of_ge by (rewrite length_app; simpl; lia). by intros ?%elem_of_nil.
Qed.

Lemma insert_last (d : document) h h' : <[length d := h']> (d ++ [h]) = d ++ [h'].
Proof. rewrite insert_app_r_alt by lia. by rewrite Nat.sub_diag. Qed.

Lemma rendering_mount parent oldDom (d d3 : document) r :
  doc_ok d → is_elem d parent →
  (∀ old, oldDom = Some old → old < length d) →
  rendering d d3 →
  mount parent oldDom (length d, d3) = Normal r →
  r.1 = length d ∧ rendered parent oldDom d (length d) r.2.
Proof.
  intros Hok Hpar Hold [Hg Hok3 Hfr He Hn] Hm.
  pose proof (is_elem_lt _ _ Hpar) as Hplt.
  eapply (mount_rendered parent oldDom d d3); try done.
  - intros i Hi _. by apply Hfr.
  - destruct Hpar as [e Hpe]. exists e. by rewrite Hfr.
  - unfold children_of. rewrite Hfr by done. apply filter_fresh.
    intros Hin. pose proof (Hok parent (length d) Hin). lia.
Qed.

(** [renderVNode], when it returns: the node it returns is the first one
    it created; nothing changed in the document but under [parent], where
    that node is now attached, in the place of [oldDom] when there is
    one. *)
Lemma renderVNode_rendered v : ∀ parent oldDom (d : document) r,
  doc_ok d → is_elem d parent →
  (∀ old, oldDom = Some old → old < length d) →
  renderVNode v parent oldDom d = Normal r →
  r.1 = length d ∧ rendered parent oldDom d (length d) r.2.
Proof.
  induction v as [s|ty text props children items el IH|text subTree children el IH]
    using vnode_nested_ind; intros parent oldDom d r Hok Hpar Hold; simpl.
  - apply leaf_rendered; try done. unfold children_of. by rewrite list_lookup_middle.
  - case_decide.
    { apply leaf_rendered; try done. unfold children_of. by rewrite list_lookup_middle. }
    destruct ty as [tag|].
    2:{ apply leaf_rendered; try done. unfold children_of. by rewrite list_lookup_middle. }
    set (fresh := mkElement tag "" None [] [] [] []).
    destruct (match props with Some ps => setProps (length d) ps (d ++ [Elem fresh]) | None => Normal (d ++ [Elem fresh]) end)
      as [d2|] eqn:Hprops; [|done].
    assert (H2 : rendering d d2).
    { destruct props as [ps|].
      - apply setProps_spec in Hprops as (e & e' & He & -> & Hch).
        rewrite list_lookup_middle in He by done. injection He as <-.
        rewrite insert_last. by apply rendering_element.
      - injection Hprops as <-. by apply rendering_element. }
    destruct (match children with
              | NoChildren => Normal d2
              | TextChildren s => _
              | ArrayChildren _ => _
              end) as [d3|] eqn:Hch; [|done].
    assert (H3 : rendering d d3).
    { destruct children as [|s|ref].
      - by injection Hch as <-.
      - case_decide; [by injection Hch as <-|].
        destruct (mount (length d) None (createTextNode s d2)) as [r'|] eqn:Hm; [|done].
        injection Hch as <-.
        eapply rendering_child; [done|].
        apply (leaf_rendered (length d) None d2 (Text s) r'); try done.
        + apply H2.
        + apply H2.
        + unfold children_of. by rewrite list_lookup_middle.
      - eapply (forEach_child_rendering _ d items d2 d3); [|done|done].
        eapply Forall_impl; [exact IH|]. intros child Hc dk r' Hokk Hek Hr.
        simpl in Hc. destruct (Hc (length d) None dk r' Hokk Hek) as [Hel' Hrd]; [done..|].
        by rewrite Hel'. }
    by apply rendering_mount.
  - case_decide.
    { apply leaf_rendered; try done. unfold children_of. by rewrite list_lookup_middle. }
    destruct (renderVNode subTree parent None d) as [[el1 d1]|] eqn:Hsub; [|done].
    destruct (IH parent None d (el1, d1) Hok Hpar ltac:(done) Hsub) as [Hel [_ Hg Hok1 Hfr Hpe Hp Hn]].
    simpl in *. subst el1.
    destruct (set_el subTree (length d)); [|done].
    pose proof (is_elem_lt _ _ Hpar) as Hplt.
    apply (mount_rendered parent oldDom d d1); try done.
    rewrite Hp. simpl. apply filter_snoc_fresh.
    intros Hin. pose proof (Hok parent (length d) Hin). lia.
Qed.
End RendererFacts3.

Section RendererFacts4.
Import Renderer.

Lemma setProp_total e kv : prop_ok kv → ∃ e', setProp e kv.1 kv.2 = Normal e'.
Proof.
  destruct kv as [key v]. unfold prop_ok, setProp. simpl. intros H.
  repeat case_decide; [by eexists|destruct v; by eexists|].
  destruct (on_suffix key) eqn:E; [|by eexists].
  destruct H as [?|[?|[?|H]]]; [done..|].
  destruct v; [by destruct (H s0)|by eexists..].
Qed.

Lemma setProps_element_total ps : ∀ e,
  Forall prop_ok ps → ∃ e', setProps_element e ps = Normal e'.
Proof.
  induction ps as [|[key v] ps IH]; intros e Hall; simpl; [by eexists|].
  apply Forall_cons in Hall as [Hkv Hall].
  destruct (setProp_total e _ Hkv) as [e1 He1]. simpl in He1. rewrite He1. by apply IH.
Qed.

Lemma mount_total parent oldDom el (d1 : document) :
  is_elem d1 parent →
  (∀ old, oldDom = Some old → old ∈ children_of d1 parent) →
  ∃ r, mount parent oldDom (el, d1) = Normal r.
Proof.
  intros [e He] Hold. unfold mount, attach, appendChild, replaceChild. simpl.
  destruct oldDom as [old|]; rewrite He; [|by eexists].
  specialize (Hold old eq_refl). unfold children_of in Hold. rewrite He in Hold.
  rewrite decide_True by done. case_decide; by eexists.
Qed.

Lemma leaf_total parent oldDom (d : document) h :
  is_elem d parent →
  (∀ old, oldDom = Some old → old ∈ children_of d parent) →
  ∃ r, mount parent oldDom (length d, d ++ [h]) = Normal r.
Proof.
  intros Hpar Hold. pose proof (is_elem_lt _ _ Hpar) as Hlt.
  apply mount_total.
  - destruct Hpar as [e He]. exists e. by rewrite lookup_app_l.
  - intros old Ho. rewrite children_of_app_l by done. by apply Hold.
Qed.

Lemma forEach_child_total f (d : document) items : ∀ dk,
  Forall (λ child, ∀ dk, doc_ok dk → is_elem dk (length d) →
            ∃ r, f child dk = Normal r ∧ rendered (length d) None dk r.1 r.2) items →
  rendering d dk →
  ∃ d', forEach_child f items dk = Normal d'.
Proof.
  induction items as [|child items IH]; intros dk Hall Hdk; simpl; [by eexists|].
  apply Forall_cons in Hall as [Hc Hall].
  destruct (Hc dk) as (r & -> & Hr); [apply Hdk..|].
  apply IH; [done|]. by eapply rendering_child.
Qed.

Lemma renderVNode_total v : renderable v → ∀ parent oldDom (d : document),
  doc_ok d → is_elem d parent →
  (∀ old, oldDom = Some old → old ∈ children_of d parent) →
  ∃ r, renderVNode v parent oldDom d = Normal r.
Proof.
  induction v as [s|ty text props children items el IH|text subTree children el IH]
    using vnode_nested_ind; intros Hv parent oldDom d Hok Hpar Hold; simpl.
  - by apply leaf_total.
  - case_decide; [by apply leaf_total|].
    destruct ty as [tag|]; [|by apply leaf_total].
    inversion Hv as [|? ? ? ? ? ? Hps Hitems|]; subst.
    set (fresh := mkElement tag "" None [] [] [] []).
    assert (Hprops : ∃ d2, match props with Some ps => setProps (length d) ps (d ++ [Elem fresh]) | None => Normal (d ++ [Elem fresh]) end = Normal d2 ∧ rendering d d2).
    { destruct props as [ps|]; [|eexists; split; [done|by apply rendering_element]].
      unfold setProps. rewrite list_lookup_middle by done.
      destruct (setProps_element_total ps fresh Hps) as [e' He']. rewrite He'.
      eexists. split; [done|]. rewrite insert_last. apply rendering_element; [done|].
      by rewrite (setProps_element_childNodes _ _ _ He'). }
    destruct Hprops as (d2 & -> & H2).
    assert (Hch : ∃ d3, match children with
              | NoChildren => Normal d2
              | TextChildren s =>
                  if decide (s = "") then Normal d2
                  else match mount (length d) None (createTextNode s d2) with
                       | Normal r => Normal r.2
                       | Thrown err => Thrown err
                       end
              | ArrayChildren _ =>
                  forEach_child (λ child d0, renderVNode child (length d) None d0) items d2
              end = Normal d3 ∧ rendering d d3).
    { destruct children as [|s|ref].
      - by eexists.
      - case_decide; [by eexists|].
        destruct (leaf_total (length d) None d2 (Text s)) as [r' Hr']; [apply H2|done|].
        unfold createTextNode. rewrite Hr'. eexists. split; [done|].
        eapply rendering_child; [done|].
        apply (leaf_rendered (length d) None d2 (Text s) r'); try done; try apply H2.
        unfold children_of. by rewrite list_lookup_middle.
      - assert (Hall : Forall (λ child, ∀ dk, doc_ok dk → is_elem dk (length d) →
            ∃ r, renderVNode child (length d) None dk = Normal r ∧
                 rendered (length d) None dk r.1 r.2) items).
        { apply Forall_forall. intros child Hin dk Hokk Hek.
          rewrite Forall_forall in IH, Hitems.
          destruct (IH child Hin (Hitems child Hin) (length d) None dk Hokk Hek) as [r' Hr']; [done|].
          exists r'. split; [done|].
          destruct (renderVNode_rendered child (length d) None dk r' Hokk Hek) as [Hel' Hrd]; [done..|].
          by rewrite Hel'. }
        destruct (forEach_child_total _ d items d2 Hall H2) as [d3 Hd3].
        exists d3. split; [done|].
        eapply (forEach_child_rendering _ d items d2 d3); [|done|done].
        eapply Forall_impl; [exact Hall|]. intros child Hc dk r' Hokk Hek Hr.
        simpl in Hc. destruct (Hc dk Hokk Hek) as (r'' & Hr'' & Hrd).
        rewrite Hr in Hr''. by injection Hr'' as <-. }
    destruct Hch as (d3 & -> & H3).
    apply mount_total.
    + destruct Hpar as [e He]. exists e. rewrite (g_frame _ _ H3); [done|]. by eapply lookup_lt_Some.
    + intros old Ho. unfold children_of. rewrite (g_frame _ _ H3) by (by apply is_elem_lt).
      by apply Hold.
  - case_decide; [by apply leaf_total|].
    inversion Hv as [| |? ? ? ? Hobj Hsub]; subst.
    destruct (IH Hsub parent None d Hok Hpar) as [[el1 d1] Hr1]; [done|].
    rewrite Hr1.
    destruct (renderVNode_rendered subTree parent None d _ Hok Hpar ltac:(done) Hr1)
      as [Hel [_ Hg Hok1 Hfr Hpe Hp Hn]].
    simpl in *. subst el1.
    destruct subTree; [done|simpl..].
    + apply mount_total; [done|]. intros old Ho. rewrite Hp. simpl.
      apply elem_of_app. left. by apply Hold.
    + apply mount_total; [done|]. intros old Ho. rewrite Hp. simpl.
      apply elem_of_app. left. by apply Hold.
Qed.
End RendererFacts4.

Section PatchFacts.
Import Renderer.



(** Without a recorded host node the new tree is appended. *)
Lemma patch_appends_without_host_node (old n2 : vnode) (container : node) (d : document) :
  doc_ok d → is_elem d container →
  vnode_el old = None →
  strict_eq (vnode_children n2) (vnode_children old) = false →
  is_object n2 → renderable n2 →
  ∃ n2' d',
    patch (Some old) n2 container d = Normal (n2', d') ∧
    children_of d' container = children_of d container ++ [length d].
Proof.
  intros Hok Hc Hel Hne Hobj Hren. unfold patch. rewrite Hne, Hel.
  destruct (renderVNode_total n2 Hren container None d Hok Hc) as [r Hr]; [done|].
  destruct (renderVNode_rendered n2 container None d r Hok Hc) as [Hr1 Hrd]; [done..|].
  rewrite Hr, Hr1.
  destruct n2 as [s|ty text props children items el|text subTree children el]; [done|..].
  - eexists _, _. split; [done|]. by rewrite (r_parent _ _ _ _ _ Hrd).
  - eexists _, _. split; [done|]. by rewrite (r_parent _ _ _ _ _ Hrd).
Qed.
End PatchFacts.



(** ** A promise that nothing settles *)

Lemma microtasks_prim top s s' :
  prim top s s' →
  microtasks s' = microtasks s ∨
  microtasks s' = microtasks s ++ [FlushUpdate] ∨
  microtasks s' = microtasks s ++ [FlushTick (length (promises s))].
Proof.
  destruct 1; simpl; try (by left).
  - left. apply microtasks_track.
  - right. by left.
  - unfold nextTick. simpl. destruct (nextTickPending s); simpl; [by left|].
    right. by right.
  - left. apply microtasks_cleanup.
Qed.

Lemma orphan_prim top p s s' : prim top s s' → orphan p s → orphan p s'.
Proof.
  intros Hp [Hpr Hq]. split.
  - eapply prefix_lookup_Some; [done|]. by eapply promises_prim.
  - destruct (microtasks_prim _ _ _ Hp) as [E | [E | E]]; rewrite E; [done| |].
    + rewrite elem_of_app, list_elem_of_singleton. by intros [?|?].
    + rewrite elem_of_app, list_elem_of_singleton. intros [?|Heq]; [done|].
      injection Heq as ->. apply lookup_lt_Some in Hpr. lia.
Qed.

Lemma orphan_prims top p s s' : rtc (prim top) s s' → orphan p s → orphan p s'.
Proof. induction 1; eauto using orphan_prim. Qed.

Lemma orphan_frame p s s' :
  promises s' = promises s → microtasks s' = microtasks s → orphan p s → orphan p s'.
Proof. unfold orphan. by intros -> ->. Qed.

(** A run of an effect from the queue, and the visit of the queue,
    whether they return or raise. *)
Lemma run_after n x s : wf s → after (rtc (prim true) s) (run n x s).
Proof.
  intros Hwf. unfold run, run_body.
  destruct (effects s !! x) as [eff|] eqn:E; [|apply rtc_refl].
  assert (H0 : prim true s (begin_run x s)) by (constructor; by left).
  pose proof (exec_body_sound _ (step_sound n) (fn eff) _ (wf_prim _ _ _ H0 Hwf)) as H1.
  destruct (exec_body _ _ _) as [v1 s1|x1 s1|]; simpl in *; [| |done].
  - eapply rtc_l; [done|]. eapply rtc_r; [by apply prims_top|constructor].
  - eapply rtc_l; [done|]. eapply rtc_r; [by apply prims_top|constructor].
Qed.

Lemma drain_after n : ∀ i s, wf s → after (rtc (prim true) s) (drain n i s).
Proof.
  induction n as [|n IH]; intros i s Hwf; simpl; [done|].
  destruct (updateQueue s !! i) as [x|]; [|apply rtc_refl].
  pose proof (run_after n x s Hwf) as H1.
  destruct (run n x s) as [v1 s1|x1 s1|]; simpl in *; [|done..].
  eapply after_mono; [|apply (IH (S i) s1); by eapply wf_prims].
  intros s2. by apply rtc_trans.
Qed.

Lemma unsettled_prims top p s s' : rtc (prim top) s s' → unsettled p s → unsettled p s'.
Proof. intros H [Hwf Ho]. split; [by eapply wf_prims|by eapply orphan_prims]. Qed.

Lemma unsettled_frame p s s' :
  computeds s' = computeds s → watchers s' = watchers s → effects s' = effects s →
  (∀ x, x ∈ updateQueue s' → x ∈ updateQueue s) →
  promises s' = promises s → microtasks s' = microtasks s →
  unsettled p s → unsettled p s'.
Proof.
  intros Hc Hw He Hq Hp Hm [Hwf Ho]. split; [by apply (wf_frame s)|by apply (orphan_frame p s)].
Qed.

Lemma run_callbacks_unsettled n p cbs : ∀ s,
  unsettled p s → after (unsettled p) (run_callbacks n cbs s).
Proof.
  induction cbs as [|[c|] cbs IH]; intros s Hs; simpl; [done| |].
  - assert (H0 : unsettled p (log EvTick s)) by (by apply (unsettled_frame p s)).
    pose proof (exec_sound n c (log EvTick s) (un_wf _ _ H0)) as H1.
    destruct (exec n c (log EvTick s)) as [v1 s1|x1 s1|]; simpl in *; [| |done].
    + apply IH. by eapply unsettled_prims.
    + by eapply unsettled_prims.
  - apply IH. by apply (unsettled_frame p s).
Qed.

Lemma settle_other p q r s : q ≠ p → unsettled p s → unsettled p (settle q r s).
Proof.
  intros Hne [Hwf [Hpr Hq]]. split; [by apply (wf_frame s)|]. split; [|done].
  unfold settle. simpl. by rewrite list_lookup_alter_ne.
Qed.

Lemma run_task_unsettled n p t s s' :
  t ≠ FlushTick p → unsettled p s → run_task n t s = Some s' → unsettled p s'.
Proof.
  intros Ht Hs. destruct t as [|q]; simpl.
  - unfold flush_update.
    assert (H0 : unsettled p (set_update false id s)) by (by apply (unsettled_frame p s)).
    pose proof (drain_after n 0 _ (un_wf _ _ H0)) as H1.
    destruct (drain n 0 (set_update false id s)) as [v1 s1|x1 s1|]; simpl in *; [| |done].
    + intros [= <-]. apply (unsettled_frame p s1); try done.
      * by intros x ?%elem_of_nil.
      * by eapply unsettled_prims.
    + intros [= <-]. apply (unsettled_frame p s1); try done. by eapply unsettled_prims.
  - unfold flushCallbacks.
    assert (H0 : unsettled p (set_tick false (λ _, []) s)) by (by apply (unsettled_frame p s)).
    pose proof (run_callbacks_unsettled n p (nextTickCallbacks s) _ H0) as H1.
    destruct (run_callbacks n (nextTickCallbacks s) _) as [v1 s1|x1 s1|]; simpl in *; [| |done].
    + intros [= <-]. apply settle_other; [congruence|done].
    + intros [= <-]. apply settle_other; [congruence|done].
Qed.

Lemma later_unsettled p s s' : later s s' → unsettled p s → unsettled p s'.
Proof.
  intros Hl Hs. destruct Hl as [n c s v s' He|n c s x s' He|n s s' Hne Hm].
  - pose proof (exec_sound n c s (un_wf _ _ Hs)) as H1. rewrite He in H1.
    by eapply unsettled_prims.
  - pose proof (exec_sound n c s (un_wf _ _ Hs)) as H1. rewrite He in H1.
    by eapply unsettled_prims.
  - unfold next_microtask in Hm. destruct (microtasks s) as [|t q] eqn:E; [done|].
    destruct Hs as [Hwf [Hpr Hq]]. eapply (run_task_unsettled n p t); [| |done].
    + intros ->. apply Hq. rewrite E. by left.
    + split; [by apply (wf_frame s)|]. split; [done|]. simpl. rewrite E. simpl.
      intros Hin. apply Hq. rewrite E. by right.
Qed.

Lemma nextTick_pending cbfn s :
  nextTickPending s = true →
  nextTick cbfn s =
  (length (promises s),
   set_promises (λ l, l ++ [Pending]) (set_tick (nextTickPending s) (λ l, l ++ [cbfn]) s)).
Proof. intros H. unfold nextTick. simpl. by rewrite H. Qed.

(** The promise returned by a call of [nextTick] made while a flush is
    pending stays pending, whatever top-level code and microtasks run
    afterwards. *)
Theorem nextTick_while_pending_never_settles (cbfn : option prog) (s s' : state) :
  wf s →
  (∀ q, FlushTick q ∈ microtasks s → q < length (promises s)) →
  nextTickPending s = true →
  rtc later (nextTick cbfn s).2 s' →
  promises s' !! (nextTick cbfn s).1 = Some Pending.
Proof.
  intros Hwf Hq Hpend Hl.
  assert (H0 : unsettled (nextTick cbfn s).1 (nextTick cbfn s).2).
  { split; [eapply wf_prim; [apply (prim_nextTick true)|done]|].
    rewrite (nextTick_pending _ _ Hpend). simpl. split; simpl.
    - by rewrite list_lookup_middle.
    - intros Hin. apply Hq in Hin. lia. }
  assert (H1 : unsettled (nextTick cbfn s).1 s').
  { revert H0. generalize (nextTick cbfn s).1. induction Hl; eauto using later_unsettled. }
  apply H1.
Qed.

(** The hypotheses hold after a first call of [nextTick]: the promise of
    the second call is still pending once the flush has run. *)
Example second_promise_stays_pending :
  let s := (nextTick None init).2 in
  let s' := default init (next_microtask 1 (nextTick None s).2) in
  nextTickPending s = true ∧ promises s' !! 1 = Some Pending.
Proof.
  intros s s'. split; [reflexivity|].
  apply (nextTick_while_pending_never_settles None s s').
  - apply wf_no_closures; reflexivity.
  - intros q Hq. vm_compute in Hq. apply list_elem_of_singleton in Hq.
    injection Hq as ->. vm_compute. lia.
  - reflexivity.
  - apply rtc_once. apply (later_microtask 1); [by vm_compute|].
    vm_compute. reflexivity.
Qed.

(** ** Invariants of the runtime *)

Lemma after_and (P R : state → Prop) o : after P o → after R o → after (λ s, P s ∧ R s) o.
Proof. destruct o; simpl; auto. Qed.

Lemma effects_length_prim top s s' : prim top s s' → length (effects s') = length (effects s).
Proof.
  destruct 1; simpl; try done.
  - unfold track. destruct (activeEffect s); [|done]. simpl. by rewrite length_alter.
  - by rewrite nextTick_effects.
  - unfold cleanup. destruct (effects s !! e); [|done]. simpl. by rewrite length_alter.
Qed.

Lemma effects_length_prims top s s' : rtc (prim top) s s' → length (effects s') = length (effects s).
Proof. induction 1 as [|s1 s2 s3 H1 _ IH]; [done|]. rewrite IH. by eapply effects_length_prim. Qed.

Section Keeps.
Context (J : state → Prop) (Q : state → eid → Prop).
Hypothesis HK : keeps (λ _, True) J Q.
Hypothesis Hwf : ∀ s, J s → wf s.
Hypothesis Hjob : ∀ s, J s → job_ok s.

Local Abbreviation kept s := (λ s', J s' ∧ rtc (prim false) s s').

(** The nested runs are those of effects with a scheduler that [Q] allows. *)
Local Abbreviation call_q s c :=
  (match c with
   | CRun x => Q s x ∧ is_Some (scheduler_of s x)
   | _ => True
   end).

Lemma Q_prims s s' x : rtc (prim false) s s' → Q s x → Q s' x.
Proof. intros H. apply (k_mono _ _ _ HK). by apply (effects_length_prims false). Qed.

Lemma kept_refl s : J s → kept s s.
Proof. intros H. split; [done|apply rtc_refl]. Qed.

Lemma kept_step s s1 o :
  rtc (prim false) s s1 → after (kept s1) o → after (kept s) o.
Proof.
  intros H. apply after_mono. intros s2 [H2 H3]. split; [done|]. by etrans.
Qed.

Section Nested.
Variable rec : call → state → outcome.
Hypothesis Hrec : ∀ c s, J s → call_q s c → after (kept s) (rec c s).

Lemma run_scheduler_keeps x sch s :
  J s → Q s x → scheduler_of s x = Some sch → after (kept s) (run_scheduler rec sch s).
Proof.
  intros HIs HQ Hx. destruct sch as [c|w]; simpl.
  - destruct (computeds s !! c) as [cc|] eqn:E; simpl; [|by apply kept_refl].
    assert (H0 : prim false s (set_computeds (alter mark_dirty c) s))
      by (apply prim_computed; by intros []).
    eapply kept_step; [by apply rtc_once|]. apply Hrec; [|done].
    apply (k_computed _ _ _ HK); [by intros []|done..].
  - destruct (watchers s !! w) as [wr|] eqn:E; simpl; [|by apply kept_refl].
    assert (Hc : call_q s (CRun (watchEffect_of wr))).
    { split; [by eapply (k_watch_run _ _ _ HK)|]. by apply (wf_watchers _ (Hwf _ HIs) w). }
    pose proof (Hrec (CRun (watchEffect_of wr)) s HIs Hc) as H1.
    destruct (rec (CRun (watchEffect_of wr)) s) as [nv s1|x1 s1|]; simpl in *; [|done..].
    destruct H1 as [HI1 Hs1].
    pose proof (Hrec (CExec (cb wr nv (default VUndef (ov <$> watchers s1 !! w)))) s1 HI1 I) as H2.
    destruct (rec (CExec _) s1) as [v2 s2|x2 s2|]; simpl in *; [| |done].
    + destruct H2 as [HI2 Hs2]. split.
      * apply (k_watcher _ _ _ HK); [by intros []|done..].
      * etrans; [done|]. eapply rtc_r; [done|]. apply prim_watcher. by intros [].
    + destruct H2 as [HI2 Hs2]. split; [done|]. by etrans.
Qed.

Lemma notify_keeps effs : ∀ s,
  J s → Forall (Q s) effs → after (kept s) (notify rec effs s).
Proof.
  induction effs as [|e rest IH]; intros s HIs HQ; simpl; [by apply kept_refl|].
  apply Forall_cons in HQ as [HQe HQr].
  destruct (scheduler_of s e) as [sch|] eqn:E.
  - pose proof (run_scheduler_keeps e sch s HIs HQe E) as H1.
    destruct (run_scheduler rec sch s) as [v s1|x s1|]; simpl in *; [|done..].
    destruct H1 as [HI1 Hs1].
    eapply kept_step; [done|]. apply IH; [done|].
    eapply Forall_impl; [done|]. intros x. by apply Q_prims.
  - assert (H0 : prim false s (enqueue e s)) by (by apply prim_enqueue).
    eapply kept_step; [by apply rtc_once|]. apply IH.
    + by apply (k_enqueue _ _ _ HK).
    + eapply Forall_impl; [done|]. intros x. apply Q_prims. by apply rtc_once.
Qed.

Lemma trigger_body_keeps t f s : J s → after (kept s) (trigger_body rec t f s).
Proof.
  intros HIs. unfold trigger_body.
  destruct (targetMap s !! t) as [depMap|] eqn:Et; simpl; [|by apply kept_refl].
  destruct (depMap !! f) as [depSet|] eqn:Ef; simpl; [|by apply kept_refl].
  assert (HQ : Forall (Q s) depSet).
  { apply Forall_forall. intros x Hx. apply (k_snapshot _ _ _ HK t f depSet); try done.
    unfold bucket. rewrite Et. simpl. done. }
  pose proof (notify_keeps depSet s HIs HQ) as H1.
  destruct (notify rec depSet s) as [v s1|x s1|]; simpl in *; [|done..].
  destruct H1 as [HI1 Hs1].
  destruct (updatePendding s1) eqn:E; [done|]. split.
  - by apply (k_schedule _ _ _ HK).
  - eapply rtc_r; [done|]. by apply prim_schedule.
Qed.

Lemma read_computed_keeps c s : J s → after (kept s) (read_computed rec c s).
Proof.
  intros HIs. unfold read_computed.
  destruct (computeds s !! c) as [cc|] eqn:E; simpl; [|by apply kept_refl].
  assert (Ht : prim false s (track (computedObj cc) "value" s)) by constructor.
  assert (HI1 : J (track (computedObj cc) "value" s)) by (by apply (k_track _ _ _ HK)).
  destruct (dirty cc); simpl; [|split; [done|by apply rtc_once]].
  assert (Hc : call_q (track (computedObj cc) "value" s) (CRun (computedEffect cc))).
  { split; [|rewrite scheduler_of_track; by apply (wf_computeds _ (Hwf _ HIs) c)].
    apply (k_computed_run _ _ _ HK c); [done..|]. by rewrite computeds_track. }
  pose proof (Hrec (CRun (computedEffect cc)) _ HI1 Hc) as H1.
  destruct (rec (CRun (computedEffect cc)) _) as [v s1|x s1|]; simpl in *; [| |done].
  - destruct H1 as [HI2 Hs2]. split.
    + apply (k_computed _ _ _ HK); [by intros []|done..].
    + eapply rtc_l; [done|]. eapply rtc_r; [done|]. apply prim_computed. by intros [].
  - destruct H1 as [HI2 Hs2]. split; [done|]. by eapply rtc_l.
Qed.

Lemma exec_body_keeps p : ∀ s, J s → after (kept s) (exec_body rec p s).
Proof.
  induction p as [v|x|v k IH|t f k IH|t f v k IH|c k IH|cbfn k IH]; intros s HIs; simpl.
  - by apply kept_refl.
  - by apply kept_refl.
  - eapply kept_step; [apply rtc_once, prim_emit|]. apply IH.
    by apply (k_log _ _ _ HK).
  - assert (H1 : rtc (prim false) s (log (EvGet t f (reflect_get t f (track t f s))) (track t f s))).
    { eapply rtc_l; [apply prim_track|]. apply rtc_once, prim_get. }
    eapply kept_step; [done|]. apply IH.
    apply (k_log _ _ _ HK); [done..|]. by apply (k_track _ _ _ HK).
  - assert (H0 : prim false s (log (EvSet t f v) (reflect_set t f v s))) by constructor.
    assert (HJ0 : J (log (EvSet t f v) (reflect_set t f v s))).
    { apply (k_log _ _ _ HK); [done..|]. by apply (k_set _ _ _ HK). }
    pose proof (trigger_body_keeps t f _ HJ0) as H1.
    destruct (trigger_body rec t f _) as [v1 s1|x s1|]; simpl in *; [| |done].
    + destruct H1 as [HI1 Hs1]. eapply kept_step; [by eapply rtc_l|]. by apply IH.
    + destruct H1 as [HI1 Hs1]. split; [done|]. by eapply rtc_l.
  - pose proof (read_computed_keeps c s HIs) as H1.
    destruct (read_computed rec c s) as [v1 s1|x s1|]; simpl in *; [|done..].
    destruct H1 as [HI1 Hs1]. eapply kept_step; [done|]. by apply IH.
  - pose proof (prim_nextTick false cbfn s) as H0.
    pose proof (k_nextTick _ _ _ HK cbfn s I HIs) as HI1.
    destruct (nextTick cbfn s) as [p s1]; simpl in *.
    eapply kept_step; [by apply rtc_once|]. by apply IH.
Qed.

(** A run, of an effect that [Q] allows: whether its function returns
    or raises, [J] holds afterwards. *)
Lemma run_body_keeps e s : J s → Q s e → after J (run_body rec e s).
Proof.
  intros HIs HQ. unfold run_body.
  destruct (effects s !! e) as [eff|] eqn:E; simpl; [|done].
  assert (HJ0 : J (begin_run e s)) by (by apply (k_begin _ _ _ HK)).
  pose proof (exec_body_keeps (fn eff) _ HJ0) as H1.
  destruct (exec_body rec (fn eff) _) as [v s1|x s1|]; simpl in *; [| |done].
  - apply (k_end _ _ _ HK); [done|]. apply H1.
  - apply (k_end _ _ _ HK); [done|]. apply H1.
Qed.

Lemma run_body_kept e s :
  J s → Q s e → is_Some (scheduler_of s e) → after (kept s) (run_body rec e s).
Proof.
  intros HIs HQ He. unfold run_body.
  destruct (effects s !! e) as [eff|] eqn:E; simpl; [|by apply kept_refl].
  assert (H0 : prim false s (begin_run e s)) by (constructor; by right).
  assert (HI0 : J (begin_run e s)) by (by apply (k_begin _ _ _ HK)).
  pose proof (exec_body_keeps (fn eff) _ HI0) as H1.
  destruct (exec_body rec (fn eff) _) as [v s1|x s1|]; simpl in *; [| |done].
  - destruct H1 as [HI1 Hs1]. split; [by apply (k_end _ _ _ HK)|].
    eapply rtc_l; [done|]. eapply rtc_r; [done|]. constructor.
  - destruct H1 as [HI1 Hs1]. split; [by apply (k_end _ _ _ HK)|].
    eapply rtc_l; [done|]. eapply rtc_r; [done|]. constructor.
Qed.
End Nested.

Lemma step_kept n : ∀ c s, J s → call_q s c → after (kept s) (step n c s).
Proof.
  induction n as [|n IH]; intros c s HIs Hc; simpl; [done|].
  destruct c as [p|e|t f].
  - by apply exec_body_keeps.
  - destruct Hc. by apply run_body_kept.
  - by apply trigger_body_keeps.
Qed.

Lemma exec_keeps n p s : J s → after J (exec n p s).
Proof.
  intros HIs. eapply after_mono; [|apply (exec_body_keeps (step n) (step_kept n) p s HIs)].
  by intros s' [? _].
Qed.

Lemma run_keeps n x s : J s → Q s x → after J (run n x s).
Proof. apply run_body_keeps, step_kept. Qed.

Lemma drain_keeps n : ∀ i s, J s → after J (drain n i s).
Proof.
  induction n as [|n IH]; intros i s HIs; simpl; [done|].
  destruct (updateQueue s !! i) as [x|] eqn:E; [|done].
  assert (HQ : Q s x).
  { apply (k_queue _ _ _ HK); [done..|]. by eapply list_elem_of_lookup_2. }
  pose proof (run_keeps n x s HIs HQ) as H1.
  destruct (run n x s) as [v1 s1|x1 s1|]; simpl in *; [|done..].
  by apply IH.
Qed.

Lemma run_callbacks_keeps n cbs : ∀ s, J s → after J (run_callbacks n cbs s).
Proof.
  induction cbs as [|[c|] cbs IH]; intros s HIs; simpl; [done| |].
  - assert (H0 : J (log EvTick s)) by (by apply (k_log _ _ _ HK)).
    pose proof (exec_keeps n c _ H0) as H1.
    destruct (exec n c (log EvTick s)) as [v1 s1|x1 s1|]; simpl in *; [|done..].
    by apply IH.
  - apply IH. by apply (k_log _ _ _ HK).
Qed.

Lemma next_microtask_keeps n s s' :
  J s → next_microtask n s = Some s' → J s'.
Proof.
  intros HIs. unfold next_microtask.
  destruct (microtasks s) as [|[|p] q] eqn:E; [by intros [= <-]| |]; simpl.
  - unfold flush_update.
    pose proof (drain_keeps n 0 _ (k_pop_update _ _ _ HK q s I HIs E)) as H1.
    destruct (drain n 0 _) as [v1 s1|x1 s1|]; simpl in *; [| |done].
    + intros [= <-]. by apply (k_clear _ _ _ HK).
    + intros [= <-]. by apply (k_log _ _ _ HK).
  - unfold flushCallbacks.
    pose proof (k_pop_tick _ _ _ HK p q s I HIs E) as H0.
    pose proof (run_callbacks_keeps n (nextTickCallbacks (set_microtasks tail s)) _ H0) as H1.
    assert (Hu : unsettled p (set_tick false (λ _, []) (set_microtasks tail s))).
    { split; [by apply Hwf|]. apply (orphan_frame p (set_microtasks tail s)); [done..|].
      by apply (Hjob s HIs p q). }
    pose proof (run_callbacks_unsettled n p (nextTickCallbacks (set_microtasks tail s)) _ Hu) as H2.
    destruct (run_callbacks n _ _) as [v1 s1|x1 s1|]; simpl in *; [| |done].
    + intros [= <-]. apply (k_settle _ _ _ HK); [done..|apply H2].
    + intros [= <-]. apply (k_settle _ _ _ HK); [done..|apply H2].
Qed.

Lemma later_keeps s s' : J s → later s s' → J s'.
Proof.
  intros HIs Hl. destruct Hl as [n p s v s' He|n p s x s' He|n s s' _ Hm].
  - pose proof (exec_keeps n p s HIs) as H1. by rewrite He in H1.
  - pose proof (exec_keeps n p s HIs) as H1. by rewrite He in H1.
  - by eapply next_microtask_keeps.
Qed.

Lemma happens_keeps s s' : J s → happens s s' → J s'.
Proof.
  intros HIs Hh. destruct Hh as [s s' Hl|obj s|v s|gatter s|n gatter callback s e o Hw|n gatter s e o Hw|e s].
  - by eapply later_keeps.
  - by apply (k_reactive _ _ _ HK).
  - unfold ref. apply (k_reactive _ _ _ HK {[ "value" := v ]} s I HIs).
  - by apply (k_computed_new _ _ _ HK).
  - unfold watch in Hw. simpl in Hw.
    destruct (k_watch_new _ _ _ HK gatter callback s I HIs) as [HI2 HQ].
    match type of Hw with context [run n ?x ?s2] =>
      pose proof (run_keeps n x s2 HI2 HQ) as H1; destruct (run n x s2) as [v1 s3|x1 s3|] end;
      simpl in *; [| |done].
    + injection Hw as <- <-. simpl. apply (k_watcher _ _ _ HK); [by intros []|done..].
    + by injection Hw as <- <-.
  - unfold watchEffect in Hw. simpl in Hw.
    destruct (k_effect_new _ _ _ HK gatter s I HIs) as [HI1 HQ].
    match type of Hw with context [run n ?x ?s1] =>
      pose proof (run_keeps n x s1 HI1 HQ) as H1; destruct (run n x s1) as [v1 s3|x1 s3|] end;
      simpl in *; [| |done].
    + by injection Hw as <- <-.
    + by injection Hw as <- <-.
  - by apply (k_cleanup _ _ _ HK).
Qed.

Lemma happened_keeps s s' : J s → rtc happens s s' → J s'.
Proof. intros HIs H. induction H; eauto using happens_keeps. Qed.
End Keeps.

Lemma keeps_and (C J : state → Prop) (Qc Q : state → eid → Prop) :
  keeps (λ _, True) C Qc → keeps C J Q →
  keeps (λ _, True) (λ s, C s ∧ J s) (λ s x, Qc s x ∧ Q s x).
Proof.
  intros HC HJ. split.
  - intros s s' x Hp [H1 H2]. split; [by eapply (k_mono _ _ _ HC)|by eapply (k_mono _ _ _ HJ)].
  - intros t f s _ [H1 H2]. split; [by apply (k_track _ _ _ HC)|by apply (k_track _ _ _ HJ)].
  - intros ev s Hev _ [H1 H2]. split; [by apply (k_log _ _ _ HC)|by apply (k_log _ _ _ HJ)].
  - intros t f v s _ [H1 H2]. split; [by apply (k_set _ _ _ HC)|by apply (k_set _ _ _ HJ)].
  - intros t f l x s _ [H1 H2] Hl Hx.
    split; [by eapply (k_snapshot _ _ _ HC)|by eapply (k_snapshot _ _ _ HJ)].
  - intros x s _ [H1 H2] [Q1 Q2] Hs.
    split; [by apply (k_enqueue _ _ _ HC)|by apply (k_enqueue _ _ _ HJ)].
  - intros s _ [H1 H2] Hp. split; [by apply (k_schedule _ _ _ HC)|by apply (k_schedule _ _ _ HJ)].
  - intros g c s Hg _ [H1 H2].
    split; [by apply (k_computed _ _ _ HC)|by apply (k_computed _ _ _ HJ)].
  - intros g w s Hg _ [H1 H2].
    split; [by apply (k_watcher _ _ _ HC)|by apply (k_watcher _ _ _ HJ)].
  - intros cbfn s _ [H1 H2].
    split; [by apply (k_nextTick _ _ _ HC)|by apply (k_nextTick _ _ _ HJ)].
  - intros x w wr s _ [H1 H2] [Q1 Q2] Hs Hw.
    split; [by eapply (k_watch_run _ _ _ HC)|by eapply (k_watch_run _ _ _ HJ)].
  - intros c cc s _ [H1 H2] Hc.
    split; [by eapply (k_computed_run _ _ _ HC)|by eapply (k_computed_run _ _ _ HJ)].
  - intros x s _ [H1 H2] Hs. split; [by apply (k_queue _ _ _ HC)|by apply (k_queue _ _ _ HJ)].
  - intros x s _ [H1 H2] Hx [Q1 Q2].
    split; [by apply (k_begin _ _ _ HC)|by apply (k_begin _ _ _ HJ)].
  - intros s _ [H1 H2]. split; [by apply (k_end _ _ _ HC)|by apply (k_end _ _ _ HJ)].
  - intros q s _ [H1 H2] Hm.
    split; [by eapply (k_pop_update _ _ _ HC)|by eapply (k_pop_update _ _ _ HJ)].
  - intros s _ [H1 H2]. split; [by apply (k_clear _ _ _ HC)|by apply (k_clear _ _ _ HJ)].
  - intros p q s _ [H1 H2] Hm.
    split; [by eapply (k_pop_tick _ _ _ HC)|by eapply (k_pop_tick _ _ _ HJ)].
  - intros p r s _ [H1 H2] Ho. split; [by apply (k_settle _ _ _ HC)|by apply (k_settle _ _ _ HJ)].
  - intros obj s _ [H1 H2]. split; [by apply (k_reactive _ _ _ HC)|by apply (k_reactive _ _ _ HJ)].
  - intros body s _ [H1 H2].
    destruct (k_effect_new _ _ _ HC body s I H1) as [? ?].
    destruct (k_effect_new _ _ _ HJ body s H1 H2) as [? ?]. done.
  - intros body callback s _ [H1 H2].
    destruct (k_watch_new _ _ _ HC body callback s I H1) as [? ?].
    destruct (k_watch_new _ _ _ HJ body callback s H1 H2) as [? ?]. done.
  - intros gatter s _ [H1 H2].
    split; [by apply (k_computed_new _ _ _ HC)|by apply (k_computed_new _ _ _ HJ)].
  - intros e s _ [H1 H2]. split; [by apply (k_cleanup _ _ _ HC)|by apply (k_cleanup _ _ _ HJ)].
Qed.

(** ** The registry in every state *)

Lemma bucket_track t f s t' f' :
  bucket (track t f s) t' f' =
  match activeEffect s with
  | None => bucket s t' f'
  | Some a => if decide ((t', f') = (t, f)) then Some (set_add a (default [] (bucket s t f)))
              else bucket s t' f'
  end.
Proof.
  unfold track, bucket. destruct (activeEffect s) as [a|]; [|done]. simpl.
  case_decide as Hd.
  - injection Hd as -> ->. rewrite lookup_insert_eq. simpl. rewrite lookup_insert_eq.
    destruct (targetMap s !! t); done.
  - destruct (decide (t' = t)) as [->|Ht].
    + rewrite lookup_insert_eq. simpl. rewrite lookup_insert_ne by congruence.
      destruct (targetMap s !! t); simpl; [done|]. by rewrite lookup_empty.
    + by rewrite lookup_insert_ne.
Qed.

Lemma sane_of s s' :
  wf s' →
  (∀ t f l x, bucket s' t f = Some l → x ∈ l → ∃ l0, bucket s t f = Some l0 ∧ x ∈ l0) →
  (∀ x eff, effects s !! x = Some eff →
     ∃ eff', effects s' !! x = Some eff' ∧ deps eff' = deps eff) →
  (∀ x, x ∈ updateQueue s' → x ∈ updateQueue s) →
  (∀ x, x ∈ effectStack s' → x ∈ effectStack s) →
  activeEffect s' = last (effectStack s') →
  (∀ x, scheduler_of s' x = scheduler_of s x) →
  (∀ w, watchEffect_of <$> watchers s' !! w = watchEffect_of <$> watchers s !! w) →
  (∀ c, computedEffect <$> computeds s' !! c = computedEffect <$> computeds s !! c) →
  sane s → sane s'.
Proof.
  intros Hwf Hb He Hq Hst Ha Hsch Hw Hc [_ Sb Sq Ss Sa Sw Sc Sl].
  assert (Hv : ∀ x, x < length (effects s) → x < length (effects s')).
  { intros x Hx. destruct (lookup_lt_is_Some_2 _ _ Hx) as [eff Heff].
    destruct (He _ _ Heff) as (eff' & H' & _). by eapply lookup_lt_Some. }
  split; [done| | | |done| | |].
  - intros t f l x Hl Hx. destruct (Hb _ _ _ _ Hl Hx) as (l0 & Hl0 & Hx0).
    destruct (Sb _ _ _ _ Hl0 Hx0) as (eff & Heff & Hd).
    destruct (He _ _ Heff) as (eff' & H' & Hd'). exists eff'. by rewrite Hd'.
  - intros x Hx. auto.
  - intros x Hx. auto.
  - intros x w. rewrite Hsch, Hw. apply Sw.
  - intros x c. rewrite Hsch, Hc. apply Sc.
  - intros c cc Hcc. rewrite Hsch. specialize (Hc c). rewrite Hcc in Hc. simpl in Hc.
    destruct (computeds s !! c) as [cc0|] eqn:E; [|done]. simpl in Hc.
    injection Hc as ->. by apply Sl.
Qed.

(** A change that leaves the registry, the effects, the queue, the stack
    and the closures as they are. *)
Lemma sane_frame s s' :
  targetMap s' = targetMap s → effects s' = effects s →
  updateQueue s' = updateQueue s → effectStack s' = effectStack s →
  activeEffect s' = activeEffect s →
  watchers s' = watchers s → computeds s' = computeds s →
  sane s → sane s'.
Proof.
  intros Ht He Hq Hs Ha Hw Hc Hsane. apply (sane_of s); try done.
  - apply (wf_frame s); try done; [by intros x; rewrite Hq|apply Hsane].
  - intros t f l x. unfold bucket. rewrite Ht. eauto.
  - intros x eff. rewrite He. eauto.
  - intros x. by rewrite Hq.
  - intros x. by rewrite Hs.
  - rewrite Ha, Hs. apply Hsane.
  - intros x. unfold scheduler_of. by rewrite He.
  - intros w. by rewrite Hw.
  - intros c. by rewrite Hc.
Qed.

Lemma effects_cleanup_deps e s x eff :
  effects s !! x = Some eff →
  ∃ eff', effects (cleanup e s) !! x = Some eff' ∧ deps eff' = deps eff.
Proof.
  intros Hx. unfold cleanup. destruct (effects s !! e) as [eff0|] eqn:E; [|eauto].
  simpl. rewrite list_lookup_alter. case_decide; [|eauto].
  subst. rewrite Hx. simpl. eauto.
Qed.

Lemma bucket_cleanup_sub e s t f l x :
  bucket (cleanup e s) t f = Some l → x ∈ l →
  ∃ l0, bucket s t f = Some l0 ∧ x ∈ l0.
Proof.
  destruct (effects s !! e) as [eff|] eqn:E.
  - rewrite (bucket_cleanup _ _ _ _ _ E). case_decide; [|eauto].
    destruct (bucket s t f) as [l0|]; simpl; [|done].
    intros [= <-] [_ Hx]%elem_of_set_delete. eauto.
  - unfold cleanup. rewrite E. eauto.
Qed.

Lemma activeEffect_cleanup e s : activeEffect (cleanup e s) = activeEffect s.
Proof. unfold cleanup. by destruct (effects s !! e). Qed.

Lemma wf_cleanup e s : wf s → wf (cleanup e s).
Proof.
  intros [H1 H2 H3]. split.
  - intros c cc. rewrite computeds_cleanup, scheduler_of_cleanup. apply H1.
  - intros w wr. rewrite watchers_cleanup, scheduler_of_cleanup. apply H2.
  - intros x. rewrite updateQueue_cleanup, scheduler_of_cleanup. apply H3.
Qed.

Lemma sane_cleanup e s : sane s → sane (cleanup e s).
Proof.
  intros Hs. apply (sane_of s); try done.
  - apply wf_cleanup, Hs.
  - apply bucket_cleanup_sub.
  - apply effects_cleanup_deps.
  - intros x. by rewrite updateQueue_cleanup.
  - intros x. by rewrite effectStack_cleanup.
  - rewrite activeEffect_cleanup, effectStack_cleanup. apply Hs.
  - intros x. apply scheduler_of_cleanup.
  - intros w. by rewrite watchers_cleanup.
  - intros c. by rewrite computeds_cleanup.
Qed.

Lemma scheduler_of_new_effect body sch s x :
  x < length (effects s) →
  scheduler_of (new_effect body sch s).2 x = scheduler_of s x.
Proof. intros Hx. unfold scheduler_of. simpl. by rewrite lookup_app_l. Qed.

Lemma scheduler_of_new_effect_eq body sch s :
  scheduler_of (new_effect body sch s).2 (length (effects s)) = sch.
Proof. unfold scheduler_of. simpl. by rewrite list_lookup_middle. Qed.

Lemma scheduler_of_new_effect_ge body sch s x :
  length (effects s) < x → scheduler_of (new_effect body sch s).2 x = None.
Proof.
  intros Hx. unfold scheduler_of. simpl. rewrite lookup_ge_None_2; [done|].
  rewrite length_app. simpl. lia.
Qed.

Lemma is_Some_scheduler_lt s x : is_Some (scheduler_of s x) → x < length (effects s).
Proof.
  unfold scheduler_of. intros [sch H].
  destruct (effects s !! x) eqn:E; [|done]. by eapply lookup_lt_Some.
Qed.

(** What an effect appended to the table leaves as it was. *)
Lemma sane_new_effect body sch s s' :
  sane s →
  targetMap s' = targetMap s → effects s' = effects s ++ [mkEffect body [] None sch] →
  updateQueue s' = updateQueue s → effectStack s' = effectStack s →
  activeEffect s' = activeEffect s →
  (∀ x w, scheduler_of s' x = Some (SWatch w) → watchEffect_of <$> watchers s' !! w = Some x) →
  (∀ x c, scheduler_of s' x = Some (SComputed c) → computedEffect <$> computeds s' !! c = Some x) →
  (∀ c cc, computeds s' !! c = Some cc → scheduler_of s' (computedEffect cc) = Some (SComputed c)) →
  (∀ w wr, watchers s' !! w = Some wr → is_Some (scheduler_of s' (watchEffect_of wr))) →
  sane s'.
Proof.
  intros Hs Ht He Hq Hst Ha Hw Hc Hl Hww.
  assert (Hold : ∀ x, x < length (effects s) → scheduler_of s' x = scheduler_of s x).
  { intros x Hx. unfold scheduler_of. rewrite He. by rewrite lookup_app_l. }
  assert (Hlen : length (effects s') = S (length (effects s))).
  { rewrite He, length_app. simpl. lia. }
  split.
  - split.
    + intros c cc Hcc. by rewrite (Hl _ _ Hcc).
    + done.
    + intros x. rewrite Hq. intros Hx. rewrite Hold; [by apply (wf_queue _ (sane_wf _ Hs))|].
      by apply (sane_queue _ Hs).
  - intros t f l x. unfold bucket. rewrite Ht. intros Hb Hx.
    destruct (sane_buckets _ Hs _ _ _ _ Hb Hx) as (eff & Heff & Hd).
    exists eff. split; [|done]. rewrite He. by apply lookup_app_l_Some.
  - intros x. rewrite Hq, Hlen. intros Hx%(sane_queue _ Hs). lia.
  - intros x. rewrite Hst, Hlen. intros Hx%(sane_stack _ Hs). lia.
  - rewrite Ha, Hst. apply Hs.
  - done.
  - done.
  - done.
Qed.

Lemma keeps_sane : keeps (λ _, True) sane (λ s x, x < length (effects s)).
Proof.
  split.
  - intros s s' x Hp. by rewrite Hp.
  - (* track *)
    intros t f s _ Hs.
    assert (Hwf : wf (track t f s)) by (eapply wf_prim; [apply (prim_track true)|apply Hs]).
    destruct (activeEffect s) as [a|] eqn:Ea; [|by rewrite track_top].
    assert (Ha : a < length (effects s)).
    { apply (sane_stack _ Hs). apply last_Some_elem_of. by rewrite <- (sane_active _ Hs). }
    destruct (lookup_lt_is_Some_2 _ _ Ha) as [effa Heffa].
    assert (Heff : effects (track t f s) = alter (with_deps (set_add (t, f))) a (effects s)).
    { unfold track. by rewrite Ea. }
    split; [done| | | | | | |].
    + intros t' f' l x. rewrite bucket_track, Ea, Heff. case_decide as Hd.
      * injection Hd as -> ->. intros [= <-] [->|Hx]%elem_of_set_add.
        -- rewrite list_lookup_alter_eq, Heffa. simpl. eexists. split; [done|]. simpl.
           apply elem_of_set_add. by left.
        -- destruct (bucket s t f) as [l0|] eqn:El; [|by apply elem_of_nil in Hx].
           destruct (sane_buckets _ Hs _ _ _ _ El Hx) as (eff & He & Hdp).
           rewrite list_lookup_alter. case_decide; [|eauto]. subst.
           rewrite He. simpl. eexists. split; [done|]. simpl. apply elem_of_set_add. by right.
      * intros Hl Hx. destruct (sane_buckets _ Hs _ _ _ _ Hl Hx) as (eff & He & Hdp).
        rewrite list_lookup_alter. case_decide; [|eauto]. subst.
        rewrite He. simpl. eexists. split; [done|]. simpl. apply elem_of_set_add. by right.
    + intros x. rewrite updateQueue_track, Heff, length_alter. apply Hs.
    + intros x. rewrite effectStack_track, Heff, length_alter. apply Hs.
    + rewrite activeEffect_track, effectStack_track. apply Hs.
    + intros x w. rewrite scheduler_of_track, watchers_track. apply Hs.
    + intros x c. rewrite scheduler_of_track, computeds_track. apply Hs.
    + intros c cc. rewrite scheduler_of_track, computeds_track. apply Hs.
  - (* log *)
    intros ev s _ _ Hs. by apply (sane_frame s).
  - (* set *)
    intros t f v s _ Hs. by apply (sane_frame s).
  - (* snapshot *)
    intros t f l x s _ Hs Hl Hx. destruct (sane_buckets _ Hs _ _ _ _ Hl Hx) as (eff & He & _).
    by eapply lookup_lt_Some.
  - (* enqueue *)
    intros x s _ Hs Hx Hsch.
    assert (Hwf : wf (enqueue x s)) by (eapply wf_prim; [by apply (prim_enqueue true)|apply Hs]).
    destruct Hs as [_ Sb Sq Ss Sa Sw Sc Sl]. split; try done.
    intros y. simpl. rewrite elem_of_set_add. intros [->|Hy]; auto.
  - (* schedule *)
    intros s _ Hs Hp. by apply (sane_frame s).
  - (* computed *)
    intros g c s Hg _ Hs. apply (sane_of s); try done; try eauto.
    + eapply wf_prim; [by apply (prim_computed true)|apply Hs].
    + apply Hs.
    + intros c'. simpl. rewrite list_lookup_alter. case_decide; [|done]. subst.
      destruct (computeds s !! c') as [cc|]; simpl; [|done]. by destruct (Hg cc) as [_ ->].
  - (* watcher *)
    intros g w s Hg _ Hs. apply (sane_of s); try done; try eauto.
    + eapply wf_prim; [by apply (prim_watcher true)|apply Hs].
    + apply Hs.
    + intros w'. simpl. rewrite list_lookup_alter. case_decide; [|done]. subst.
      destruct (watchers s !! w') as [wr|]; simpl; [|done]. by destruct (Hg wr) as [-> _].
  - (* nextTick *)
    intros cbfn s _ Hs.
    apply (sane_frame s); try done; unfold nextTick; simpl; by destruct (nextTickPending s).
  - (* watch run *)
    intros x w wr s _ Hs Hx Hsch Hw.
    pose proof (sane_watch _ Hs _ _ Hsch) as H. rewrite Hw in H. simpl in H. by injection H as ->.
  - (* computed run *)
    intros c cc s _ Hs Hc. apply is_Some_scheduler_lt. by apply (wf_computeds _ (sane_wf _ Hs) c).
  - (* queue *)
    intros x s _ Hs. apply Hs.
  - (* begin *)
    intros x s _ Hs [eff Hx] Hlt.
    pose proof (sane_cleanup x s Hs) as [_ Sb Sq Ss Sa Sw Sc Sl].
    assert (Hlen : length (effects (cleanup x s)) = length (effects s)).
    { unfold cleanup. rewrite Hx. simpl. by rewrite length_alter. }
    split; try done.
    + eapply wf_prim; [apply (prim_begin true); by left|apply Hs].
    + intros y. simpl. rewrite elem_of_app, list_elem_of_singleton.
      intros [Hy| ->]; [by apply Ss|]. by rewrite Hlen.
    + simpl. by rewrite last_snoc.
  - (* end *)
    intros s _ Hs. apply (sane_of s); try done; try eauto.
    + eapply wf_prim; [apply (prim_end true)|apply Hs].
    + intros x. simpl. intros Hin.
      destruct (effectStack s) as [|a st] using rev_ind; [done|].
      rewrite removelast_last in Hin. apply elem_of_app. by left.
  - (* pop update *)
    intros q s _ Hs _. by apply (sane_frame s).
  - (* clear *)
    intros s _ Hs. apply (sane_of s); try done; try eauto.
    + apply (wf_frame s); try done; [|apply Hs]. by intros x ?%elem_of_nil.
    + by intros x ?%elem_of_nil.
    + apply Hs.
  - (* pop tick *)
    intros p q s _ Hs _. by apply (sane_frame s).
  - (* settle *)
    intros p r s _ Hs _. by apply (sane_frame s).
  - (* reactive *)
    intros obj s _ Hs. by apply (sane_frame s).
  - (* watchEffect *)
    intros body s _ Hs. split; [|simpl; rewrite length_app; simpl; lia].
    assert (Hnew : ∀ x sch, scheduler_of (new_effect body None s).2 x = Some sch →
                     scheduler_of s x = Some sch).
    { intros x sch Hx. destruct (decide (x < length (effects s))) as [Hlt|Hge].
      - by rewrite scheduler_of_new_effect in Hx.
      - destruct (decide (x = length (effects s))) as [->|Hne].
        + by rewrite scheduler_of_new_effect_eq in Hx.
        + rewrite scheduler_of_new_effect_ge in Hx by lia. done. }
    apply (sane_new_effect body None s); try done.
    + intros x w Hx%Hnew. by apply (sane_watch _ Hs).
    + intros x c Hx%Hnew. by apply (sane_computed _ Hs).
    + intros c cc Hc. simpl in Hc. pose proof (sane_cell _ Hs _ _ Hc) as H.
      rewrite scheduler_of_new_effect; [done|]. apply is_Some_scheduler_lt. by rewrite H.
    + intros w wr Hw. simpl in Hw. pose proof (wf_watchers _ (sane_wf _ Hs) _ _ Hw) as H.
      rewrite scheduler_of_new_effect; [done|]. by apply is_Some_scheduler_lt.
  - (* watch *)
    intros body callback s _ Hs. simpl. split; [|rewrite length_app; simpl; lia].
    set (e := length (effects s)). set (w := length (watchers s)).
    set (s1 := (new_effect body (Some (SWatch w)) s).2).
    set (s' := set_watchers (λ l, l ++ [mkWatcher e callback VUndef]) s1).
    change (sane s').
    assert (Hsch : ∀ x, scheduler_of s' x = scheduler_of s1 x) by done.
    assert (Hnew : ∀ x sch, scheduler_of s' x = Some sch →
                     (x < e ∧ scheduler_of s x = Some sch) ∨ (x = e ∧ sch = SWatch w)).
    { intros x sch. rewrite Hsch. intros Hx. destruct (decide (x < e)) as [Hlt|Hge].
      - left. unfold s1 in Hx. by rewrite scheduler_of_new_effect in Hx.
      - right. destruct (decide (x = e)) as [->|Hne].
        + unfold s1, e in Hx. rewrite scheduler_of_new_effect_eq in Hx. by injection Hx as <-.
        + unfold s1 in Hx. rewrite scheduler_of_new_effect_ge in Hx by (unfold e in *; lia). done. }
    apply (sane_new_effect body (Some (SWatch w)) s); try done.
    + intros x w' [[Hlt Hx]|[-> [= ->]]]%Hnew; simpl.
      * pose proof (sane_watch _ Hs _ _ Hx) as H.
        destruct (watchers s !! w') as [wr|] eqn:E; [|done].
        by rewrite (lookup_app_l_Some _ _ _ _ E).
      * unfold w. by rewrite list_lookup_middle.
    + intros x c [[Hlt Hx]|[-> [=]]]%Hnew. simpl. by apply (sane_computed _ Hs).
    + intros c cc Hc. simpl in Hc. pose proof (sane_cell _ Hs _ _ Hc) as H.
      rewrite Hsch. unfold s1. rewrite scheduler_of_new_effect; [done|].
      apply is_Some_scheduler_lt. by rewrite H.
    + intros w' wr. simpl. intros [Hw|[_ Hw]]%lookup_app_Some.
      * pose proof (wf_watchers _ (sane_wf _ Hs) _ _ Hw) as H.
        rewrite Hsch. unfold s1. rewrite scheduler_of_new_effect; [done|].
        by apply is_Some_scheduler_lt.
      * apply list_lookup_singleton_Some in Hw as [_ <-]. simpl.
        rewrite Hsch. unfold s1, e. by rewrite scheduler_of_new_effect_eq.
  - (* computed *)
    intros gatter s _ Hs. unfold computed. simpl.
    set (e := length (effects s)). set (c := length (computeds s)).
    set (s0 := set_heap (λ h, h ++ [{[ "value" := VNull ]}]) s).
    assert (Hs0 : sane s0) by (by apply (sane_frame s)).
    set (s1 := (new_effect gatter (Some (SComputed c)) s0).2).
    set (s' := set_computeds (λ l, l ++ [mkComputed (length (heap s)) e true VUndef]) s1).
    change (sane s').
    assert (Hsch : ∀ x, scheduler_of s' x = scheduler_of s1 x) by done.
    assert (Hnew : ∀ x sch, scheduler_of s' x = Some sch →
                     (x < e ∧ scheduler_of s0 x = Some sch) ∨ (x = e ∧ sch = SComputed c)).
    { intros x sch. rewrite Hsch. intros Hx. destruct (decide (x < e)) as [Hlt|Hge].
      - left. unfold s1 in Hx. by rewrite scheduler_of_new_effect in Hx.
      - right. destruct (decide (x = e)) as [->|Hne].
        + unfold s1 in Hx. change e with (length (effects s0)) in Hx.
          rewrite scheduler_of_new_effect_eq in Hx. by injection Hx as <-.
        + unfold s1 in Hx. rewrite scheduler_of_new_effect_ge in Hx by (unfold e in *; simpl; lia).
          done. }
    apply (sane_new_effect gatter (Some (SComputed c)) s0); try done.
    + intros x w [[Hlt Hx]|[-> [=]]]%Hnew. simpl. by apply (sane_watch _ Hs0).
    + intros x c' [[Hlt Hx]|[-> [= ->]]]%Hnew; simpl.
      * pose proof (sane_computed _ Hs0 _ _ Hx) as H. simpl in H.
        destruct (computeds s !! c') as [cc|] eqn:E; [|done].
        by rewrite (lookup_app_l_Some _ _ _ _ E).
      * unfold c. by rewrite list_lookup_middle.
    + intros c' cc. simpl. intros [Hc|[Hle Hc]]%lookup_app_Some.
      * pose proof (sane_cell _ Hs0 _ _ Hc) as H.
        rewrite Hsch. unfold s1. rewrite scheduler_of_new_effect; [done|].
        apply is_Some_scheduler_lt. by rewrite H.
      * apply list_lookup_singleton_Some in Hc as [Hc <-]. simpl.
        rewrite Hsch. unfold s1. change e with (length (effects s0)).
        rewrite scheduler_of_new_effect_eq.
        f_equal. f_equal. unfold c. lia.
    + intros w wr Hw. simpl in Hw. pose proof (wf_watchers _ (sane_wf _ Hs) _ _ Hw) as H.
      rewrite Hsch. unfold s1. rewrite scheduler_of_new_effect; [done|].
      by apply is_Some_scheduler_lt.
  - (* cleanup *)
    intros e s _ Hs. by apply sane_cleanup.
Qed.

Lemma sane_init : sane init.
Proof.
  split.
  - apply wf_no_closures; done.
  - intros t f l x. unfold bucket. simpl. by rewrite lookup_empty.
  - by intros x ?%elem_of_nil.
  - by intros x ?%elem_of_nil.
  - done.
  - intros x w. unfold scheduler_of. simpl. by destruct x.
  - intros x c. unfold scheduler_of. simpl. by destruct x.
  - intros c cc. simpl. by destruct c.
Qed.

(** ** The two schedulers in every state *)

Lemma flags_frame s s' :
  microtasks s' = microtasks s → updatePendding s' = updatePendding s →
  nextTickPending s' = nextTickPending s → nextTickCallbacks s' = nextTickCallbacks s →
  promises s' = promises s → updateQueue s' = updateQueue s →
  flags_ok s → flags_ok s'.
Proof.
  intros Hm Hu Hn Hc Hp Hq [F1 F2 F3 F4 F5]. split.
  - by rewrite Hm, Hu.
  - unfold tick_consistent. by rewrite Hm, Hn.
  - by rewrite Hc, Hn.
  - intros p. rewrite Hm, Hp. apply F4.
  - by rewrite Hq.
Qed.

Lemma nextTickCallbacks_track t f s : nextTickCallbacks (track t f s) = nextTickCallbacks s.
Proof. unfold track. by destruct (activeEffect s). Qed.
Lemma promises_track t f s : promises (track t f s) = promises s.
Proof. unfold track. by destruct (activeEffect s). Qed.
Lemma nextTickCallbacks_cleanup e s : nextTickCallbacks (cleanup e s) = nextTickCallbacks s.
Proof. unfold cleanup. by destruct (effects s !! e). Qed.
Lemma promises_cleanup e s : promises (cleanup e s) = promises s.
Proof. unfold cleanup. by destruct (effects s !! e). Qed.
Lemma updatePendding_cleanup e s : updatePendding (cleanup e s) = updatePendding s.
Proof. unfold cleanup. by destruct (effects s !! e). Qed.

Lemma flags_track t f s : flags_ok s → flags_ok (track t f s).
Proof.
  apply flags_frame.
  - apply microtasks_track.
  - apply updatePendding_track.
  - apply nextTickPending_track.
  - apply nextTickCallbacks_track.
  - apply promises_track.
  - apply updateQueue_track.
Qed.

Lemma flags_cleanup e s : flags_ok s → flags_ok (cleanup e s).
Proof.
  apply flags_frame.
  - apply microtasks_cleanup.
  - apply updatePendding_cleanup.
  - apply nextTickPending_cleanup.
  - apply nextTickCallbacks_cleanup.
  - apply promises_cleanup.
  - apply updateQueue_cleanup.
Qed.

Lemma filter_snoc_false {A} (P : A → bool) l x : P x = false → filter P (l ++ [x]) = filter P l.
Proof.
  intros H. rewrite filter_app. rewrite filter_cons_False by (rewrite H; by intros []).
  by rewrite filter_nil, app_nil_r.
Qed.

Lemma filter_snoc_true {A} (P : A → bool) l x : P x = true → filter P (l ++ [x]) = filter P l ++ [x].
Proof. intros H. rewrite filter_app. by rewrite filter_cons_True by (by rewrite H). Qed.

Lemma flags_job s : flags_ok s → job_ok s.
Proof.
  intros [F1 F2 F3 F4 F5] p q Hm. split; simpl.
  - apply F4. rewrite Hm. by left.
  - rewrite Hm. simpl. unfold tick_consistent in F2. rewrite Hm in F2.
    rewrite filter_cons_True in F2 by exact I. simpl in F2.
    intros Hin. assert (Hf : FlushTick p ∈ filter is_tick q) by (by apply list_elem_of_filter).
    destruct (filter is_tick q); [by apply elem_of_nil in Hf|].
    simpl in F2. by destruct (nextTickPending s).
Qed.

Lemma keeps_flags : keeps (λ _, True) flags_ok (λ _ _, True).
Proof.
  split; try done.
  - intros t f s _. apply flags_track.
  - intros ev s _ _. by apply flags_frame.
  - intros t f v s _. by apply flags_frame.
  - (* enqueue *)
    intros x s _ [F1 F2 F3 F4 F5] _ _. split; try done. simpl. by apply set_add_NoDup.
  - (* schedule *)
    intros s _ [F1 F2 F3 F4 F5] Hp. split; try done; simpl.
    + rewrite filter_snoc_true by done. rewrite length_app, F1, Hp. done.
    + unfold tick_consistent in *. simpl. by rewrite filter_snoc_false.
    + intros p [Hin|Hin]%elem_of_app; [by apply F4|].
      by apply list_elem_of_singleton in Hin.
  - intros g c s _ _. by apply flags_frame.
  - intros g w s _ _. by apply flags_frame.
  - (* nextTick *)
    intros cbfn s _ [F1 F2 F3 F4 F5]. unfold nextTick. simpl.
    destruct (nextTickPending s) eqn:Hp; simpl.
    + split; try done; simpl.
      * unfold tick_consistent in *. simpl. by rewrite Hp in *.
      * intros p Hin. apply lookup_app_l_Some. by apply F4.
    + split; try done; simpl.
      * by rewrite filter_snoc_false.
      * unfold tick_consistent in *. simpl. rewrite Hp in F2.
        rewrite filter_snoc_true by done. rewrite length_app, F2. done.
      * intros p [Hin|Hin]%elem_of_app; [apply lookup_app_l_Some; by apply F4|].
        apply list_elem_of_singleton in Hin. injection Hin as ->.
        by rewrite list_lookup_middle.
  - (* begin *)
    intros x s _ Hf _ _. apply (flags_frame (cleanup x s)); try done. by apply flags_cleanup.
  - (* end *)
    intros s _. by apply flags_frame.
  - (* pop update *)
    intros q s _ [F1 F2 F3 F4 F5] Hm. unfold tick_consistent in *.
    rewrite Hm in F1, F2, F4. split; try done; simpl.
    + rewrite Hm. simpl. rewrite filter_cons_True in F1 by exact I. simpl in F1.
      destruct (updatePendding s); simpl in F1; [lia|done].
    + unfold tick_consistent. simpl. rewrite Hm. simpl.
      by rewrite filter_cons_False in F2 by (by intros []).
    + intros p. rewrite Hm. simpl. intros Hin. apply F4. by right.
  - (* clear *)
    intros s _ [F1 F2 F3 F4 F5]. split; try done. simpl. apply NoDup_nil_2.
  - (* pop tick *)
    intros p q s _ [F1 F2 F3 F4 F5] Hm.
    pose proof (flags_job s (mkFlagsOk s F1 F2 F3 F4 F5) p q Hm) as [_ Hnot].
    unfold tick_consistent in *.
    rewrite Hm in F1, F2, F4. split; try done; simpl.
    + rewrite Hm. simpl. by rewrite filter_cons_False in F1 by (by intros []).
    + unfold tick_consistent. simpl. rewrite Hm. simpl.
      rewrite filter_cons_True in F2 by exact I. simpl in F2.
      destruct (nextTickPending s); simpl in F2; [lia|done].
    + intros p'. rewrite Hm. simpl. intros Hin. apply F4. by right.
  - (* settle *)
    intros p r s _ [F1 F2 F3 F4 F5] [Hp Hnot]. split; try done.
    intros p' Hin. unfold settle. simpl. rewrite list_lookup_alter_ne; [by apply F4|].
    by intros ->.
  - intros obj s _. by apply flags_frame.
  - intros body s _ Hf. split; [|done]. by apply (flags_frame s).
  - intros body callback s _ Hf. split; [|done]. by apply (flags_frame s).
  - intros gatter s _. by apply flags_frame.
  - intros e s _. apply flags_cleanup.
Qed.

Lemma flags_init : flags_ok init.
Proof. split; [done|done|done|by intros p ?%elem_of_nil|apply NoDup_nil_2]. Qed.

Lemma keeps_weaken (C J : state → Prop) (Q : state → eid → Prop) :
  keeps (λ _, True) J Q → keeps C J Q.
Proof. intros []. split; eauto. Qed.

(** Both invariants are kept together. *)
Lemma keeps_steady :
  keeps (λ _, True) (λ s, sane s ∧ flags_ok s) (λ s x, x < length (effects s) ∧ True).
Proof. apply keeps_and; [apply keeps_sane|apply keeps_weaken, keeps_flags]. Qed.

Lemma steady_wf s : sane s ∧ flags_ok s → wf s.
Proof. intros [H _]. apply H. Qed.

Lemma steady_job s : sane s ∧ flags_ok s → job_ok s.
Proof. intros [_ H]. by apply flags_job. Qed.

Lemma reachable_steady s : reachable s → sane s ∧ flags_ok s.
Proof.
  intros H. eapply (happened_keeps _ _ keeps_steady steady_wf steady_job); [|exact H].
  split; [apply sane_init|apply flags_init].
Qed.

Lemma reachable_sane s : reachable s → sane s.
Proof. intros H. by apply reachable_steady. Qed.

Lemma reachable_flags s : reachable s → flags_ok s.
Proof. intros H. by apply reachable_steady. Qed.

(** An invariant kept on top of the two. *)
Lemma steady_keeps (J : state → Prop) (Q : state → eid → Prop) s s' :
  keeps (λ s, sane s ∧ flags_ok s) J Q →
  sane s → flags_ok s → J s → rtc happens s s' → J s'.
Proof.
  intros HK Hs Hf HJ Hh.
  destruct (happened_keeps _ _ (keeps_and _ _ _ _ keeps_steady HK)
              (λ s H, steady_wf s (proj1 H)) (λ s H, steady_job s (proj1 H))
              s s' (conj (conj Hs Hf) HJ) Hh) as [_ H].
  exact H.
Qed.

(** ** The stack of running effects *)

Lemma activeEffect_nextTick cbfn s : activeEffect (nextTick cbfn s).2 = activeEffect s.
Proof. unfold nextTick. simpl. by destruct (nextTickPending s). Qed.
Lemma effectStack_nextTick cbfn s : effectStack (nextTick cbfn s).2 = effectStack s.
Proof. unfold nextTick. simpl. by destruct (nextTickPending s). Qed.

Section Stack.
Variable rec : call → state → outcome.

Local Abbreviation top_ok s := (activeEffect s = last (effectStack s)).
Local Abbreviation same_stack s :=
  (λ s', effectStack s' = effectStack s ∧ activeEffect s' = activeEffect s).

Hypothesis Hrec : ∀ c s, top_ok s → after (same_stack s) (rec c s).

Lemma same_stack_step s s1 o :
  same_stack s s1 → (top_ok s1 → after (same_stack s1) o) → top_ok s → after (same_stack s) o.
Proof.
  intros [H1 H2] Ho Hs. eapply after_mono; [|apply Ho; congruence].
  intros s2 [H3 H4]. split; congruence.
Qed.

Lemma run_scheduler_stack sch s : top_ok s → after (same_stack s) (run_scheduler rec sch s).
Proof.
  intros Hs. destruct sch as [c|w]; simpl.
  - destruct (computeds s !! c) as [cc|]; simpl; [|done].
    apply (same_stack_step s (set_computeds (alter mark_dirty c) s)); [done|apply Hrec|done].
  - destruct (watchers s !! w) as [wr|]; simpl; [|done].
    pose proof (Hrec (CRun (watchEffect_of wr)) s Hs) as H1.
    destruct (rec (CRun (watchEffect_of wr)) s) as [nv s1|x s1|]; simpl in *; [|done..].
    assert (Hs1 : top_ok s1) by (destruct H1; congruence).
    pose proof (Hrec (CExec (cb wr nv (default VUndef (ov <$> watchers s1 !! w)))) s1 Hs1) as H2.
    destruct (rec (CExec _) s1) as [v2 s2|x s2|]; simpl in *; [| |done].
    + destruct H1, H2. split; congruence.
    + destruct H1, H2. split; congruence.
Qed.

Lemma notify_stack effs : ∀ s, top_ok s → after (same_stack s) (notify rec effs s).
Proof.
  induction effs as [|e rest IH]; intros s Hs; simpl; [done|].
  destruct (scheduler_of s e) as [sch|].
  - pose proof (run_scheduler_stack sch s Hs) as H1.
    destruct (run_scheduler rec sch s) as [v s1|x s1|]; simpl in *; [|done..].
    eapply same_stack_step; [done|apply IH|done].
  - apply (same_stack_step s (enqueue e s)); [done|apply IH|done].
Qed.

Lemma trigger_body_stack t f s : top_ok s → after (same_stack s) (trigger_body rec t f s).
Proof.
  intros Hs. unfold trigger_body.
  destruct (targetMap s !! t) as [depMap|]; simpl; [|done].
  destruct (depMap !! f) as [depSet|]; simpl; [|done].
  pose proof (notify_stack depSet s Hs) as H1.
  destruct (notify rec depSet s) as [v s1|x s1|]; simpl in *; [|done..].
  by destruct (updatePendding s1).
Qed.

Lemma begin_end_stack e s s1 :
  top_ok s → same_stack (begin_run e s) s1 → same_stack s (end_run s1).
Proof.
  intros Ha [H1 H2]. simpl in *. rewrite effectStack_cleanup in H1.
  rewrite H1, removelast_last. by rewrite Ha.
Qed.

Lemma begin_run_top e s : top_ok (begin_run e s).
Proof. simpl. by rewrite last_snoc. Qed.

Lemma read_computed_stack c s : top_ok s → after (same_stack s) (read_computed rec c s).
Proof.
  intros Hs. unfold read_computed.
  destruct (computeds s !! c) as [cc|]; simpl; [|done].
  assert (H0 : same_stack s (track (computedObj cc) "value" s)).
  { split; [apply effectStack_track|apply activeEffect_track]. }
  destruct (dirty cc); simpl; [|done].
  assert (Hs1 : top_ok (track (computedObj cc) "value" s)) by (destruct H0; congruence).
  pose proof (Hrec (CRun (computedEffect cc)) _ Hs1) as H1.
  destruct (rec (CRun (computedEffect cc)) _) as [v s1|x s1|]; simpl in *; [| |done].
  - destruct H0, H1. split; congruence.
  - destruct H0, H1. split; congruence.
Qed.

Lemma exec_body_stack p : ∀ s, top_ok s → after (same_stack s) (exec_body rec p s).
Proof.
  induction p as [v|x|v k IH|t f k IH|t f v k IH|c k IH|cbfn k IH]; intros s Hs; simpl.
  - done.
  - done.
  - apply (same_stack_step s (log (EvEmit v) s)); [done|apply IH|done].
  - eapply same_stack_step; [|apply IH|done]. simpl.
    split; [apply effectStack_track|apply activeEffect_track].
  - pose proof (trigger_body_stack t f (log (EvSet t f v) (reflect_set t f v s)) Hs) as H1.
    destruct (trigger_body rec t f _) as [v1 s1|x s1|]; simpl in *; [|done..].
    eapply same_stack_step; [done|apply IH|done].
  - pose proof (read_computed_stack c s Hs) as H1.
    destruct (read_computed rec c s) as [v1 s1|x s1|]; simpl in *; [|done..].
    eapply same_stack_step; [done|apply IH|done].
  - pose proof (effectStack_nextTick cbfn s) as H1.
    pose proof (activeEffect_nextTick cbfn s) as H2.
    destruct (nextTick cbfn s) as [p s1]; simpl in *.
    eapply same_stack_step; [done|apply IH|done].
Qed.

Lemma run_body_stack e s : top_ok s → after (same_stack s) (run_body rec e s).
Proof.
  intros Ha. unfold run_body.
  destruct (effects s !! e) as [eff|]; simpl; [|done].
  pose proof (exec_body_stack (fn eff) (begin_run e s) (begin_run_top e s)) as H1.
  destruct (exec_body rec (fn eff) _) as [v s1|x s1|]; simpl in H1 |- *; [| |done].
  - by apply (begin_end_stack e).
  - by apply (begin_end_stack e).
Qed.
End Stack.

Lemma step_stack n : ∀ c s,
  activeEffect s = last (effectStack s) →
  after (λ s', effectStack s' = effectStack s ∧ activeEffect s' = activeEffect s) (step n c s).
Proof.
  induction n as [|n IH]; intros c s Hs; simpl; [done|].
  destruct c as [p|e|t f].
  - by apply exec_body_stack.
  - by apply run_body_stack.
  - by apply trigger_body_stack.
Qed.

Lemma exec_stack n p s :
  activeEffect s = last (effectStack s) →
  after (λ s', effectStack s' = effectStack s ∧ activeEffect s' = activeEffect s) (exec n p s).
Proof. apply exec_body_stack, step_stack. Qed.

Lemma run_stack n e s :
  activeEffect s = last (effectStack s) →
  after (λ s', effectStack s' = effectStack s ∧ activeEffect s' = activeEffect s) (run n e s).
Proof. apply run_body_stack, step_stack. Qed.

(** X1.  [run] ends in a [finally] block that pops the stack and makes
    its new top the active effect.  So when the active effect is the top
    of the stack before a run, the stack and the active effect are, after
    the run, what they were before it: whether the function of the effect
    returned or raised, and whatever effects it ran in between. *)
Theorem run_restores_the_active_effect (n : nat) (e : eid) (s s' : state) (r : value) :
  activeEffect s = last (effectStack s) →
  run n e s = Ok r s' ∨ run n e s = Err r s' →
  effectStack s' = effectStack s ∧ activeEffect s' = activeEffect s.
Proof.
  intros Hs Hr. pose proof (run_stack n e s Hs) as H.
  destruct Hr as [Hr|Hr]; by rewrite Hr in H.
Qed.

(** ** No effect runs between two tasks *)

Lemma idle_top s : idle s → activeEffect s = last (effectStack s).
Proof. by intros [-> ->]. Qed.

Lemma idle_same s s' :
  effectStack s' = effectStack s → activeEffect s' = activeEffect s → idle s → idle s'.
Proof. unfold idle. by intros -> ->. Qed.

Lemma exec_idle n p s : idle s → after idle (exec n p s).
Proof.
  intros Hs. eapply after_mono; [|by apply exec_stack, idle_top].
  intros s' [H1 H2]. by apply (idle_same s).
Qed.

Lemma run_idle n x s : idle s → after idle (run n x s).
Proof.
  intros Hs. eapply after_mono; [|by apply run_stack, idle_top].
  intros s' [H1 H2]. by apply (idle_same s).
Qed.

Lemma drain_idle n : ∀ i s, idle s → after idle (drain n i s).
Proof.
  induction n as [|n IH]; intros i s Hs; simpl; [done|].
  destruct (updateQueue s !! i) as [x|]; [|done].
  pose proof (run_idle n x s Hs) as H1.
  destruct (run n x s) as [v1 s1|x1 s1|]; simpl in *; [|done..].
  by apply IH.
Qed.

Lemma run_callbacks_idle n cbs : ∀ s, idle s → after idle (run_callbacks n cbs s).
Proof.
  induction cbs as [|[c|] cbs IH]; intros s Hs; simpl; [done| |].
  - pose proof (exec_idle n c (log EvTick s) Hs) as H1.
    destruct (exec n c (log EvTick s)) as [v1 s1|x1 s1|]; simpl in *; [|done..].
    by apply IH.
  - by apply IH.
Qed.

Lemma happens_idle s s' : idle s → happens s s' → idle s'.
Proof.
  intros Hs Hh.
  destruct Hh as [s s' Hl|obj s|v s|gatter s|n gatter callback s e o Hw|n gatter s e o Hw|e s];
    try done.
  - destruct Hl as [n p s v s' He|n p s x s' He|n s s' _ Hm].
    + pose proof (exec_idle n p s Hs) as H1. by rewrite He in H1.
    + pose proof (exec_idle n p s Hs) as H1. by rewrite He in H1.
    + unfold next_microtask in Hm.
      destruct (microtasks s) as [|[|p] q]; [by injection Hm as <-| |]; simpl in Hm.
      * unfold flush_update in Hm.
        pose proof (drain_idle n 0 (set_update false id (set_microtasks tail s)) Hs) as H1.
        destruct (drain n 0 _) as [v1 s1|x1 s1|]; simpl in *; [| |done]; by injection Hm as <-.
      * unfold flushCallbacks in Hm.
        pose proof (run_callbacks_idle n (nextTickCallbacks (set_microtasks tail s))
                      (set_tick false (λ _, []) (set_microtasks tail s)) Hs) as H1.
        destruct (run_callbacks n _ _) as [v1 s1|x1 s1|]; simpl in *; [| |done]; by injection Hm as <-.
  - unfold watch in Hw. simpl in Hw.
    match type of Hw with context [run n ?x ?s0] =>
      pose proof (run_idle n x s0 Hs) as H1; destruct (run n x s0) as [v1 s3|x1 s3|] end;
      simpl in *; [| |done]; by injection Hw as <- <-.
  - unfold watchEffect in Hw. simpl in Hw.
    match type of Hw with context [run n ?x ?s0] =>
      pose proof (run_idle n x s0 Hs) as H1; destruct (run n x s0) as [v1 s3|x1 s3|] end;
      simpl in *; [| |done]; by injection Hw as <- <-.
  - unfold dispose. apply (idle_same s); [apply effectStack_cleanup|apply activeEffect_cleanup|done].
Qed.

Lemma reachable_idle s : reachable s → idle s.
Proof.
  intros H. assert (Hi : idle init) by done. revert Hi. unfold reachable in H.
  generalize init H. clear H. intros s0 H. induction H; eauto using happens_idle.
Qed.

(** ** An effect that has been disposed of *)

Lemma disposed_grow e r s s' l :
  effects s' = effects s ++ l → targetMap s' = targetMap s →
  effectStack s' = effectStack s → updateQueue s' = updateQueue s →
  runs_of e (trace s') = runs_of e (trace s) →
  disposed e r s → disposed e r s'.
Proof.
  intros He Ht Hs Hq Hr [D1 D2 D3 D4 D5 D6].
  assert (Hl : effects s' !! e = effects s !! e).
  { rewrite He. apply lookup_app_l. by apply lookup_lt_is_Some_1. }
  split.
  - by rewrite Hl.
  - unfold scheduler_of. by rewrite Hl.
  - by rewrite Hs.
  - intros t f l0. unfold bucket. rewrite Ht. apply D4.
  - by rewrite Hq.
  - by rewrite Hr.
Qed.

Lemma disposed_frame e r s s' :
  effects s' = effects s → targetMap s' = targetMap s →
  effectStack s' = effectStack s → updateQueue s' = updateQueue s →
  runs_of e (trace s') = runs_of e (trace s) →
  disposed e r s → disposed e r s'.
Proof. intros He. apply (disposed_grow e r s s' []). by rewrite app_nil_r. Qed.

Lemma disposed_fresh e r s : disposed e r s → length (effects s) ≠ e.
Proof. intros Hd Heq. destruct (d_effect _ _ _ Hd) as [eff He]. apply lookup_lt_Some in He. lia. Qed.

Lemma runs_of_begin_other e x s :
  x ≠ e → runs_of e (trace (begin_run x s)) = runs_of e (trace s).
Proof.
  intros Hne. simpl. rewrite trace_cleanup, runs_of_app. unfold runs_of at 2.
  rewrite filter_cons_False by congruence. simpl. lia.
Qed.

Lemma is_Some_effects_cleanup x s e :
  is_Some (effects s !! e) → is_Some (effects (cleanup x s) !! e).
Proof.
  intros [eff He]. destruct (effects_cleanup_deps x s e eff He) as (eff' & -> & _). done.
Qed.

Lemma disposed_cleanup e r x s : disposed e r s → disposed e r (cleanup x s).
Proof.
  intros [D1 D2 D3 D4 D5 D6]. split.
  - by apply is_Some_effects_cleanup.
  - intros c. by rewrite scheduler_of_cleanup.
  - by rewrite effectStack_cleanup.
  - intros t f l Hl Hin. destruct (bucket_cleanup_sub _ _ _ _ _ _ Hl Hin) as (l0 & Hl0 & Hin0).
    by eapply D4.
  - by rewrite updateQueue_cleanup.
  - by rewrite trace_cleanup.
Qed.

Lemma keeps_disposed e r :
  keeps (λ s, sane s ∧ flags_ok s) (disposed e r) (λ _ x, x ≠ e).
Proof.
  split.
  - done.
  - (* track *)
    intros t f s [Hs _] [D1 D2 D3 D4 D5 D6].
    destruct (activeEffect s) as [a|] eqn:Ea; [|by rewrite track_top].
    assert (Ha : a ≠ e).
    { intros ->. apply D3. apply last_Some_elem_of. by rewrite <- (sane_active _ Hs). }
    split.
    + unfold track. rewrite Ea. simpl. rewrite list_lookup_alter_ne by done. done.
    + intros c. by rewrite scheduler_of_track.
    + by rewrite effectStack_track.
    + intros t' f' l. rewrite bucket_track, Ea. case_decide; [|apply D4].
      intros [= <-] [->|Hin]%elem_of_set_add; [done|].
      destruct (bucket s t f) as [l0|] eqn:El; [by eapply D4|by apply elem_of_nil in Hin].
    + by rewrite updateQueue_track.
    + by rewrite trace_track.
  - intros ev s Hev _ Hd. apply (disposed_frame e r s); try done. by apply runs_of_log_other.
  - intros t f v s _ Hd. by apply (disposed_frame e r s).
  - intros t f l x s _ Hd Hl Hx ->. by eapply (d_buckets _ _ _ Hd).
  - intros x s _ [D1 D2 D3 D4 D5 D6] Hx _. split; try done.
    simpl. rewrite elem_of_set_add. by intros [?|?].
  - intros s _ Hd _. by apply (disposed_frame e r s).
  - intros g c s _ _ Hd. by apply (disposed_frame e r s).
  - intros g w s _ _ Hd. by apply (disposed_frame e r s).
  - intros cbfn s _ Hd.
    apply (disposed_frame e r s); try done; unfold nextTick; simpl; by destruct (nextTickPending s).
  - intros x w wr s [Hs _] Hd Hx Hsch Hw.
    pose proof (sane_watch _ Hs _ _ Hsch) as H. rewrite Hw in H. simpl in H. by injection H as ->.
  - intros c cc s [Hs _] Hd Hc Heq. apply (d_kind _ _ _ Hd c). rewrite <- Heq.
    by apply (sane_cell _ Hs).
  - intros x s _ Hd Hx ->. by apply (d_queue _ _ _ Hd).
  - (* begin *)
    intros x s _ Hd _ Hx.
    pose proof (disposed_cleanup e r x s Hd) as [D1 D2 D3 D4 D5 D6]. split; try done.
    + simpl. rewrite elem_of_app, list_elem_of_singleton. by intros [?|?].
    + rewrite runs_of_begin_other by done. rewrite <- D6. by rewrite trace_cleanup.
  - (* end *)
    intros s _ [D1 D2 D3 D4 D5 D6]. split; try done.
    simpl. intros Hin. apply D3.
    destruct (effectStack s) as [|a st] using rev_ind; [done|].
    rewrite removelast_last in Hin. apply elem_of_app. by left.
  - intros q s _ Hd _. by apply (disposed_frame e r s).
  - intros s _ [D1 D2 D3 D4 D5 D6]. split; try done. simpl. apply not_elem_of_nil.
  - intros p q s _ Hd _. by apply (disposed_frame e r s).
  - intros p q s _ Hd _. by apply (disposed_frame e r s).
  - intros obj s _ Hd. by apply (disposed_frame e r s).
  - intros body s _ Hd. split; [|by apply (disposed_fresh e r)].
    by apply (disposed_grow e r s _ [mkEffect body [] None None]).
  - intros body callback s _ Hd. split; [|by apply (disposed_fresh e r)].
    by eapply (disposed_grow e r s).
  - intros gatter s _ Hd. by eapply (disposed_grow e r s).
  - intros x s _ Hd. by apply disposed_cleanup.
Qed.

Lemma dispose_disposed e s :
  sane s → idle s → is_Some (effects s !! e) →
  (∀ c, scheduler_of s e ≠ Some (SComputed c)) → e ∉ updateQueue s →
  disposed e (runs_of e (trace s)) (dispose e s).
Proof.
  intros Hs [Hst _] [eff He] Hsch Hq. unfold dispose. split.
  - by apply is_Some_effects_cleanup.
  - intros c. by rewrite scheduler_of_cleanup.
  - rewrite effectStack_cleanup, Hst. apply not_elem_of_nil.
  - intros t f l. rewrite (bucket_cleanup _ _ _ _ _ He). case_decide as Hd.
    + destruct (bucket s t f); [|done]. intros [= <-]. apply not_elem_of_set_delete.
    + intros Hl Hin. destruct (sane_buckets _ Hs _ _ _ _ Hl Hin) as (eff' & He' & Hd').
      rewrite He in He'. by injection He' as <-.
  - by rewrite updateQueue_cleanup.
  - by rewrite trace_cleanup.
Qed.

(** X2.  A disposer works: once the disposer of an effect made by
    [watch] or by [watchEffect] has been called, from top-level code and
    while the effect was not waiting in the update queue, the function of
    the effect is never called again (nor, for [watch], its callback,
    which the scheduler calls after a run), the effect is never queued and
    is a member of no bucket, whatever the program does afterwards. *)
Theorem disposed_effect_never_runs_again (e : eid) (s s' : state) :
  reachable s → is_Some (effects s !! e) →
  (∀ c, scheduler_of s e ≠ Some (SComputed c)) → e ∉ updateQueue s →
  rtc happens (dispose e s) s' →
  runs_of e (trace s') = runs_of e (trace s) ∧
  (e ∉ updateQueue s') ∧
  (∀ t f, e ∉ default [] (bucket s' t f)).
Proof.
  intros Hr He Hsch Hq Hh.
  pose proof (reachable_sane s Hr) as Hs.
  pose proof (dispose_disposed e s Hs (reachable_idle s Hr) He Hsch Hq) as Hd.
  assert (Hr0 : reachable (dispose e s)).
  { eapply rtc_r; [exact Hr|apply happens_dispose]. }
  pose proof (steady_keeps _ _ _ _ (keeps_disposed e (runs_of e (trace s)))
                (reachable_sane _ Hr0) (reachable_flags _ Hr0) Hd Hh) as Hd'.
  split_and!; [apply Hd'..|].
  intros t f. destruct (bucket s' t f) as [l|] eqn:El; simpl; [|apply not_elem_of_nil].
  by eapply (d_buckets _ _ _ Hd').
Qed.

(** X3.  In every state, an effect is a member only of buckets that its
    [deps] records.  So [cleanup], which visits [deps], takes the effect
    out of every bucket: after a call of its disposer, an effect is
    subscribed to nothing. *)
Theorem dispose_unsubscribes_from_every_key (e : eid) (s : state) (t : target) (f : key) :
  reachable s → e ∉ default [] (bucket (dispose e s) t f).
Proof.
  intros Hr. pose proof (reachable_sane s Hr) as Hs. unfold dispose.
  destruct (effects s !! e) as [eff|] eqn:He.
  - rewrite (bucket_cleanup _ _ _ _ _ He). case_decide as Hd.
    + destruct (bucket s t f); simpl; [apply not_elem_of_set_delete|apply not_elem_of_nil].
    + destruct (bucket s t f) as [l|] eqn:El; simpl; [|apply not_elem_of_nil].
      intros Hin. destruct (sane_buckets _ Hs _ _ _ _ El Hin) as (eff' & He' & Hd').
      rewrite He in He'. by injection He' as <-.
  - unfold cleanup. rewrite He.
    destruct (bucket s t f) as [l|] eqn:El; simpl; [|apply not_elem_of_nil].
    intros Hin. destruct (sane_buckets _ Hs _ _ _ _ El Hin) as (eff' & He' & _). congruence.
Qed.

(** ** The flags and the microtask queue *)

Lemma filter_length_pos {A} (P : A → bool) (l : list A) x :
  x ∈ l → P x = true → 0 < length (filter P l).
Proof.
  intros Hin HP. assert (H : x ∈ filter P l) by (apply list_elem_of_filter; by rewrite HP).
  destruct (filter P l); [by apply elem_of_nil in H|simpl; lia].
Qed.

Lemma filter_length_elem {A} (P : A → bool) (l : list A) :
  0 < length (filter P l) → ∃ x, x ∈ l ∧ P x = true.
Proof.
  destruct (filter P l) as [|x l'] eqn:E; [simpl; lia|]. intros _.
  assert (H : x ∈ filter P l) by (rewrite E; by left).
  apply list_elem_of_filter in H as [HP Hin]. exists x. split; [done|].
  by destruct (P x).
Qed.

(** X4.  A flush of the update queue waits in the microtask queue exactly
    when [updatePendding] is set, and never more than one: however many
    writes and triggers there are, also from inside running effects. *)
Theorem update_flag_tells_the_queued_flush (s : state) :
  reachable s →
  (updatePendding s = true ↔ FlushUpdate ∈ microtasks s) ∧
  length (filter is_update (microtasks s)) ≤ 1.
Proof.
  intros Hr. pose proof (f_update _ (reachable_flags s Hr)) as H. split; [split|].
  - intros Hp. rewrite Hp in H.
    destruct (filter_length_elem is_update (microtasks s)) as ([|p] & Hin & Hx); [lia|done..].
  - intros Hin. pose proof (filter_length_pos is_update _ _ Hin eq_refl) as Hpos.
    destruct (updatePendding s); [done|lia].
  - destruct (updatePendding s); lia.
Qed.

(** X5.  A job of [nextTick] waits in the microtask queue exactly when
    [nextTickPending] is set, and never more than one; and whenever a
    callback is registered, such a job waits, holding a promise that is
    still pending: no registered callback is left without a flush. *)
Theorem next_tick_flag_tells_the_queued_job (s : state) :
  reachable s →
  (nextTickPending s = true ↔ ∃ p, FlushTick p ∈ microtasks s) ∧
  length (filter is_tick (microtasks s)) ≤ 1 ∧
  (nextTickCallbacks s ≠ [] →
   ∃ p, FlushTick p ∈ microtasks s ∧ promises s !! p = Some Pending).
Proof.
  intros Hr. destruct (reachable_flags s Hr) as [_ F2 F3 F4 _].
  unfold tick_consistent in F2.
  assert (H1 : nextTickPending s = true → ∃ p, FlushTick p ∈ microtasks s).
  { intros Hp. rewrite Hp in F2.
    destruct (filter_length_elem is_tick (microtasks s)) as ([|p] & Hin & Hx); [lia|done|].
    by exists p. }
  split_and!.
  - split; [done|]. intros [p Hin].
    pose proof (filter_length_pos is_tick _ _ Hin eq_refl) as Hpos.
    destruct (nextTickPending s); [done|lia].
  - destruct (nextTickPending s); lia.
  - intros Hc. destruct (H1 (F3 Hc)) as [p Hin]. exists p. split; [done|by apply F4].
Qed.


(** ** A flush that ends by an exception *)

(** X7.  When the function of an effect raises during the flush of the
    update queue, the flush ends there and [updateQueue.clear()] is not
    reached: every effect that was in the queue, those that have run
    included, is still in it afterwards, in the same order. *)
Theorem flush_that_raises_keeps_the_queue (n : nat) (s s' : state) (x : value) :
  wf s → NoDup (updateQueue s) →
  flush_update n s = Err x s' →
  updateQueue s `prefix_of` updateQueue s' ∧ NoDup (updateQueue s').
Proof.
  intros Hwf Hnd. unfold flush_update.
  assert (Hwf0 : wf (set_update false id s)) by (by apply (wf_frame s)).
  pose proof (drain_after n 0 _ Hwf0) as H1.
  destruct (drain n 0 (set_update false id s)) as [v1 s1|x1 s1|]; simpl in *; [done| |done].
  intros [= _ <-]. by apply (queue_prims true (set_update false id s) s1).
Qed.

(** ** What a run subscribes to *)

Section Reads.
Variables (rec : call → state → outcome) (e : eid) (tr0 : list event).

(** While effect [e] runs: it is a member of the buckets of the keys it
    has read since the start of the run, and of no other. *)
Lemma reader_subscribes p :
  reader p → ∀ s seg,
  activeEffect s = Some e → trace s = tr0 ++ seg →
  (∀ t f, e ∈ default [] (bucket s t f) ↔ ∃ w, EvGet t f w ∈ seg) →
  ∃ v s' seg',
    exec_body rec p s = Ok v s' ∧ trace s' = tr0 ++ seg' ∧
    (∀ t f, e ∈ default [] (bucket s' t f) ↔ ∃ w, EvGet t f w ∈ seg').
Proof.
  intros Hp. induction Hp as [v|v k _ IH|t f k _ IH]; intros s seg Ha Htr Hb; simpl.
  - by exists v, s, seg.
  - apply (IH (log (EvEmit v) s) (seg ++ [EvEmit v])); [done|simpl; by rewrite Htr, app_assoc|].
    intros t f. rewrite (Hb t f). split; intros [w Hw]; exists w.
    + apply elem_of_app. by left.
    + apply elem_of_app in Hw as [Hw|Hw]; [done|]. by apply list_elem_of_singleton in Hw.
  - set (v := reflect_get t f (track t f s)).
    apply (IH v (log (EvGet t f v) (track t f s)) (seg ++ [EvGet t f v])).
    + simpl. by rewrite activeEffect_track.
    + simpl. by rewrite trace_track, Htr, app_assoc.
    + intros t' f'. change (bucket (log (EvGet t f v) (track t f s)) t' f')
        with (bucket (track t f s) t' f').
      rewrite bucket_track, Ha. case_decide as Hd.
      * injection Hd as -> ->. simpl. split.
        -- intros _. exists v. apply elem_of_app. right. by left.
        -- intros _. apply elem_of_set_add. by left.
      * rewrite (Hb t' f'). split; intros [w Hw]; exists w.
        -- apply elem_of_app. by left.
        -- apply elem_of_app in Hw as [Hw|Hw]; [done|].
           apply list_elem_of_singleton in Hw. congruence.
Qed.
End Reads.

Lemma cleanup_unsubscribes e s t f : sane s → e ∉ default [] (bucket (cleanup e s) t f).
Proof.
  intros Hs. destruct (effects s !! e) as [eff|] eqn:He.
  - rewrite (bucket_cleanup _ _ _ _ _ He). case_decide as Hd.
    + destruct (bucket s t f); simpl; [apply not_elem_of_set_delete|apply not_elem_of_nil].
    + destruct (bucket s t f) as [l|] eqn:El; simpl; [|apply not_elem_of_nil].
      intros Hin. destruct (sane_buckets _ Hs _ _ _ _ El Hin) as (eff' & He' & Hd').
      rewrite He in He'. by injection He' as <-.
  - unfold cleanup. rewrite He.
    destruct (bucket s t f) as [l|] eqn:El; simpl; [|apply not_elem_of_nil].
    intros Hin. destruct (sane_buckets _ Hs _ _ _ _ El Hin) as (eff' & He' & _). congruence.
Qed.

(** X8.  Dependencies are collected afresh at every run, in the
    registry: after a run of an effect whose function only reads, the
    effect is a member of the bucket of (t, f) exactly when the run has
    read (t, f); what earlier runs had read and this one has not is
    forgotten. *)
Theorem run_subscribes_to_what_it_reads (n : nat) (e : eid) (s : state) (eff : ReactiveEffect) :
  reachable s → effects s !! e = Some eff → reader (fn eff) →
  ∃ v s', run n e s = Ok v s' ∧
    ∀ t f, e ∈ default [] (bucket s' t f) ↔
           ∃ w, EvGet t f w ∈ drop (length (trace s)) (trace s').
Proof.
  intros Hr He Hrd. pose proof (reachable_sane s Hr) as Hs.
  unfold run, run_body. rewrite He.
  destruct (reader_subscribes (step n) e (trace s) (fn eff) Hrd (begin_run e s) [EvRun e])
    as (v & s1 & seg & Hex & Htr & Hb).
  - done.
  - simpl. by rewrite trace_cleanup.
  - intros t f. change (bucket (begin_run e s) t f) with (bucket (cleanup e s) t f). split.
    + intros Hin. by apply cleanup_unsubscribes in Hin.
    + intros [w Hw]. by apply list_elem_of_singleton in Hw.
  - rewrite Hex. exists v, (end_run s1). split; [done|].
    intros t f. change (bucket (end_run s1) t f) with (bucket s1 t f).
    change (trace (end_run s1)) with (trace s1). rewrite Htr, drop_app_length. apply Hb.
Qed.

(** ** A cell made by [ref] *)

(** X9.  Reading the [value] of a handle that [ref(v)] has just
    returned gives [v]; after an assignment of [w] to it, reading gives
    [w]; and from top-level code, with no effect subscribed, these reads
    and this write subscribe nothing and schedule nothing. *)
Theorem ref_round_trip (n : nat) (v w : value) (s : state) :
  activeEffect s = None → targetMap s !! length (heap s) = None →
  let h := (ref v s).1 in
  let s1 := (ref v s).2 in
  (∃ s2, exec n (get_value h Ret) s1 = Ok v s2) ∧
  (∃ s3, exec n (set_value h w (get_value h Ret)) s1 = Ok w s3 ∧
         targetMap s3 = targetMap s ∧ updateQueue s3 = updateQueue s ∧
         microtasks s3 = microtasks s).
Proof.
  intros Ha Ht h s1.
  assert (Hh : heap s1 = heap s ++ [{[ "value" := v ]}]) by done.
  assert (Ha1 : activeEffect s1 = None) by done.
  split.
  - unfold exec. simpl. rewrite (track_top _ _ s1 Ha1).
    assert (Hv : reflect_get (length (heap s)) "value" s1 = v).
    { unfold reflect_get. rewrite Hh, list_lookup_middle by done. simpl.
      by rewrite lookup_singleton_eq. }
    rewrite Hv. by eexists.
  - unfold exec. simpl. unfold trigger_body. simpl. rewrite Ht. simpl.
    rewrite track_top by done.
    match goal with |- context [reflect_get ?t ?f ?s0] =>
      assert (Hv : reflect_get t f s0 = w) end.
    { unfold reflect_get. simpl. rewrite list_lookup_alter_eq, list_lookup_middle by done. simpl.
      by rewrite lookup_insert_eq. }
    rewrite Hv. eexists. split_and!; done.
Qed.

(** ** A watcher of one property *)

(** A run of an effect whose function is [() => state.f]. *)
Lemma run_selector n e s t f ds dl sch :
  effects s !! e = Some (mkEffect (Get t f Ret) ds dl sch) →
  run n e s = Ok (reflect_get t f s)
                 (end_run (log (EvGet t f (reflect_get t f s)) (track t f (begin_run e s)))).
Proof.
  intros He. unfold run, run_body. rewrite He. simpl.
  assert (Hv : reflect_get t f (track t f (begin_run e s)) = reflect_get t f s).
  { apply reflect_get_heap. rewrite heap_track. simpl. apply heap_cleanup. }
  by rewrite Hv.
Qed.

Lemma targetMap_cleanup_nil e s eff :
  effects s !! e = Some eff → deps eff = [] → targetMap (cleanup e s) = targetMap s.
Proof. intros He Hd. unfold cleanup. rewrite He. simpl. by rewrite Hd. Qed.

Lemma notify_app rec l1 l2 s :
  notify rec (l1 ++ l2) s =
  match notify rec l1 s with
  | Ok _ s' => notify rec l2 s'
  | o => o
  end.
Proof.
  revert s. induction l1 as [|x l1 IH]; intros s; simpl; [done|].
  destruct (scheduler_of s x) as [sch|]; [|apply IH].
  destruct (run_scheduler rec sch s); [apply IH|done..].
Qed.

Lemma set_add_fresh `{EqDecision A} (x : A) l : x ∉ l → set_add x l = l ++ [x].
Proof. intros H. unfold set_add. by rewrite decide_False. Qed.

Lemma set_delete_snoc `{EqDecision A} (x : A) l : x ∉ l → set_delete x (l ++ [x]) = l.
Proof.
  intros H. unfold set_delete. rewrite filter_app, filter_cons_False by (intros ?; done).
  rewrite filter_nil, app_nil_r. by apply set_delete_absent.
Qed.

Lemma run_after_selector n e s t f ds dl sch :
  effects s !! e = Some (mkEffect (Get t f Ret) ds dl sch) →
  run n e s = Ok (reflect_get t f s) (after_selector e t f s).
Proof. apply run_selector. Qed.

Lemma after_selector_spec e t f s eff :
  effects s !! e = Some eff →
  heap (after_selector e t f s) = heap s ∧
  trace (after_selector e t f s) = trace s ++ [EvRun e; EvGet t f (reflect_get t f s)] ∧
  watchers (after_selector e t f s) = watchers s ∧
  updateQueue (after_selector e t f s) = updateQueue s ∧
  updatePendding (after_selector e t f s) = updatePendding s ∧
  microtasks (after_selector e t f s) = microtasks s ∧
  effectStack (after_selector e t f s) = effectStack s ∧
  activeEffect (after_selector e t f s) = last (effectStack s) ∧
  effects (after_selector e t f s) !! e =
    Some (mkEffect (fn eff) (set_add (t, f) (deps eff)) (Some 0%Z) (scheduler eff)) ∧
  (∀ x, scheduler_of (after_selector e t f s) x = scheduler_of s x) ∧
  bucket (after_selector e t f s) t f =
    Some (set_add e (default [] (bucket (cleanup e s) t f))).
Proof.
  intros He. unfold after_selector.
  assert (Ha : activeEffect (begin_run e s) = Some e) by done.
  set (sb := begin_run e s) in *.
  assert (Hst : effectStack sb = effectStack s ++ [e]).
  { unfold sb. simpl. by rewrite effectStack_cleanup. }
  split_and!.
  - change (heap (track t f sb) = heap s). rewrite heap_track. apply heap_cleanup.
  - change (trace (track t f sb) ++ [EvGet t f (reflect_get t f s)] = trace s ++ [EvRun e; EvGet t f (reflect_get t f s)]).
    rewrite trace_track. unfold sb. simpl. rewrite trace_cleanup. by rewrite <- app_assoc.
  - change (watchers (track t f sb) = watchers s). rewrite watchers_track. apply watchers_cleanup.
  - change (updateQueue (track t f sb) = updateQueue s). rewrite updateQueue_track.
    apply updateQueue_cleanup.
  - change (updatePendding (track t f sb) = updatePendding s). rewrite updatePendding_track.
    apply updatePendding_cleanup.
  - change (microtasks (track t f sb) = microtasks s). rewrite microtasks_track.
    apply microtasks_cleanup.
  - change (removelast (effectStack (track t f sb)) = effectStack s).
    rewrite effectStack_track, Hst. apply removelast_last.
  - change (last (removelast (effectStack (track t f sb))) = last (effectStack s)).
    by rewrite effectStack_track, Hst, removelast_last.
  - change (effects (track t f sb) !! e = Some (mkEffect (fn eff) (set_add (t, f) (deps eff)) (Some 0%Z) (scheduler eff))).
    unfold track. rewrite Ha. simpl. rewrite list_lookup_alter_eq.
    unfold cleanup. rewrite He. simpl. by rewrite list_lookup_alter_eq, He.
  - intros x. change (scheduler_of (track t f sb) x = scheduler_of s x).
    rewrite scheduler_of_track. apply (scheduler_of_cleanup e s x).
  - change (bucket (track t f sb) t f = Some (set_add e (default [] (bucket (cleanup e s) t f)))).
    rewrite bucket_track, Ha. by rewrite decide_True.
Qed.

Lemma bucket_frame s s' t f : targetMap s' = targetMap s → bucket s' t f = bucket s t f.
Proof. unfold bucket. by intros ->. Qed.

(** X10.  [watch(() => state.f, cb)], called from top-level code, runs
    the selector once and does not call [cb].  A later assignment of [v]
    to [state.f] then calls [cb] before it returns, once, with [v] and the
    value that the selector returned the time before; the selector has
    been run again first, so the callback starts in a state where the
    read gives [v]; and if [cb] raises, so does the assignment.  (The
    other subscribers of the property are effects without scheduler.) *)
Theorem watch_callback_gets_new_and_old_value (n : nat) (s : state) (t : target) (f : key)
    (callback : value → value → prog) (v : value) (k : prog) :
  reachable s → t < length (heap s) →
  (∀ l x, bucket s t f = Some l → x ∈ l → scheduler_of s x = None) →
  ∃ e s1 sA,
    watch n (Get t f Ret) callback s = Some (e, Ok VUndef s1) ∧
    trace s1 = trace s ++ [EvRun e; EvGet t f (reflect_get t f s)] ∧
    trace sA = trace s1 ++ [EvSet t f v; EvRun e; EvGet t f v] ∧
    reflect_get t f sA = v ∧
    exec (S n) (Put t f v k) s1 =
      match exec n (callback v (reflect_get t f s)) sA with
      | Ok _ sB =>
          let sC := set_watchers (alter (store_ov v) (length (watchers s))) sB in
          exec (S n) k (if updatePendding sC then sC else schedule_flush sC)
      | o => o
      end.
Proof.
  intros Hr Ht Hdef.
  pose proof (reachable_sane s Hr) as Hs.
  set (e := length (effects s)). set (w := length (watchers s)).
  set (v0 := reflect_get t f s). set (l0 := default [] (bucket s t f)).
  set (s2 := set_watchers (λ l, l ++ [mkWatcher e callback VUndef])
               (new_effect (Get t f Ret) (Some (SWatch w)) s).2).
  assert (He2 : effects s2 !! e = Some (mkEffect (Get t f Ret) [] None (Some (SWatch w)))).
  { unfold s2, e. simpl. by rewrite list_lookup_middle. }
  assert (Hfresh : e ∉ l0).
  { unfold l0. destruct (bucket s t f) as [l|] eqn:El; simpl; [|apply not_elem_of_nil].
    intros Hin. destruct (sane_buckets _ Hs _ _ _ _ El Hin) as (eff & Heq & _).
    apply lookup_lt_Some in Heq. unfold e in Heq. lia. }
  assert (Hold2 : ∀ x, x ∈ l0 → scheduler_of s2 x = None).
  { intros x Hx. unfold l0 in Hx.
    destruct (bucket s t f) as [l|] eqn:El; [|by apply elem_of_nil in Hx].
    simpl in Hx. destruct (sane_buckets _ Hs _ _ _ _ El Hx) as (eff & Heq & _).
    apply lookup_lt_Some in Heq.
    change (scheduler_of (new_effect (Get t f Ret) (Some (SWatch w)) s).2 x = None).
    rewrite scheduler_of_new_effect by done. by eapply Hdef. }
  assert (Hb2 : bucket (cleanup e s2) t f = bucket s t f).
  { apply bucket_frame. by rewrite (targetMap_cleanup_nil e s2 _ He2). }
  assert (Hw2 : watchers s2 !! w = Some (mkWatcher e callback VUndef)).
  { unfold s2, w. simpl. by rewrite list_lookup_middle. }
  assert (Hh2 : heap s2 = heap s) by done.
  assert (Htr2 : trace s2 = trace s) by done.
  assert (Hv2 : reflect_get t f s2 = v0) by done.
  (* the first run of the selector *)
  pose proof (run_after_selector n e s2 t f _ _ _ He2) as Hrun2.
  destruct (after_selector_spec e t f s2 _ He2)
    as (Hh & Htr & Hw & _ & _ & _ & _ & _ & Heff & Hsch & Hb).
  rewrite Hv2 in Hrun2, Htr. rewrite Hb2 in Hb. rewrite Hh2 in Hh. rewrite Htr2 in Htr.
  fold l0 in Hb. rewrite (set_add_fresh e l0 Hfresh) in Hb.
  cbn [fn deps scheduler] in Heff. rewrite set_add_fresh in Heff by apply not_elem_of_nil.
  assert (Hwatch : watch n (Get t f Ret) callback s
                   = Some (e, Ok VUndef (set_watchers (alter (store_ov v0) w)
                                           (after_selector e t f s2)))).
  { change (watch n (Get t f Ret) callback s) with
      (match run n e s2 with
       | Ok v s3 => Some (e, Ok VUndef (set_watchers (alter (store_ov v) w) s3))
       | Err x s3 => Some (e, Err x s3)
       | OutOfFuel => None
       end).
    by rewrite Hrun2. }
  clear Hrun2. revert Hh Htr Hw Heff Hsch Hb Hwatch.
  generalize (after_selector e t f s2). intros a2 Hh Htr Hw Heff Hsch Hb Hwatch.
  set (s1 := set_watchers (alter (store_ov v0) w) a2) in *.
  assert (He1 : effects s1 !! e
                = Some (mkEffect (Get t f Ret) ([] ++ [(t, f)]) (Some 0%Z) (Some (SWatch w))))
    by exact Heff.
  assert (Hw1 : watchers s1 !! w = Some (mkWatcher e callback v0)).
  { unfold s1. cbn [watchers set_watchers]. by rewrite Hw, list_lookup_alter_eq, Hw2. }
  assert (Hb1 : bucket s1 t f = Some (l0 ++ [e])) by exact Hb.
  assert (Hold : ∀ x, x ∈ l0 → scheduler_of s1 x = None).
  { intros x Hx. change (scheduler_of a2 x = None). rewrite Hsch. by apply Hold2. }
  assert (Hh1 : heap s1 = heap s) by exact Hh.
  assert (Htr1 : trace s1 = trace s ++ [EvRun e; EvGet t f v0]) by exact Htr.
  clearbody s1. clear Hh Htr Hw Heff Hsch Hb a2.
  (* the assignment *)
  set (s1' := log (EvSet t f v) (reflect_set t f v s1)).
  assert (Hb1' : bucket s1' t f = Some (l0 ++ [e])) by exact Hb1.
  assert (Hold' : ∀ x, x ∈ l0 → scheduler_of s1' x = None) by exact Hold.
  assert (He1' : effects s1' !! e
                 = Some (mkEffect (Get t f Ret) ([] ++ [(t, f)]) (Some 0%Z) (Some (SWatch w))))
    by exact He1.
  assert (Hw1' : watchers s1' !! w = Some (mkWatcher e callback v0)) by exact Hw1.
  assert (Hv1' : reflect_get t f s1' = v).
  { apply reflect_get_set_eq. by rewrite Hh1. }
  assert (Htr1' : trace s1' = trace s1 ++ [EvSet t f v]) by done.
  assert (Hput : ∀ rec, exec_body rec (Put t f v k) s1 =
            match trigger_body rec t f s1' with
            | Ok _ s3 => exec_body rec k s3
            | o => o
            end) by done.
  clearbody s1'.
  set (sq := foldl (λ s x, enqueue x s) s1' l0).
  destruct (foldl_enqueue_frame l0 s1') as (Qh & Qtm & Qe & _ & _ & Qtr & _).
  fold sq in Qh, Qtm, Qe, Qtr.
  assert (Hws : watchers sq = watchers s1').
  { unfold sq. clear. generalize s1'. induction l0 as [|x l IH]; intros s0; [done|].
    simpl. by rewrite IH. }
  assert (Hnq : ∀ rec, notify rec l0 s1' = Ok VUndef sq).
  { intros rec. by apply notify_default. }
  clearbody sq.
  assert (Heq : effects sq !! e
                = Some (mkEffect (Get t f Ret) ([] ++ [(t, f)]) (Some 0%Z) (Some (SWatch w))))
    by (by rewrite Qe).
  assert (Hvq : reflect_get t f sq = v).
  { by rewrite (reflect_get_heap t f s1' sq Qh). }
  pose proof (run_after_selector n e sq t f _ _ _ Heq) as Hrunq.
  destruct (after_selector_spec e t f sq _ Heq)
    as (Ah & Atr & Aw & _ & _ & _ & _ & _ & _ & _ & _).
  rewrite Hvq in Hrunq, Atr.
  revert Hrunq Ah Atr Aw. generalize (after_selector e t f sq). intros aq Hrunq Ah Atr Aw.
  exists e, s1, aq. split_and!.
  - done.
  - done.
  - rewrite Atr, Qtr, Htr1'. by rewrite <- app_assoc.
  - by rewrite (reflect_get_heap t f sq aq Ah).
  - unfold exec at 1. rewrite Hput.
    unfold trigger_body. unfold bucket in Hb1'.
    destruct (targetMap s1' !! t) as [depMap|]; [|done]. simpl in Hb1'. rewrite Hb1'.
    rewrite notify_app, Hnq. cbn [notify].
    assert (Hsq : scheduler_of sq e = Some (SWatch w)) by (unfold scheduler_of; by rewrite Heq).
    rewrite Hsq. cbn [run_scheduler].
    rewrite Hws, Hw1'. cbn [watchEffect_of cb].
    change (step (S n) (CRun e) sq) with (run n e sq).
    rewrite Hrunq.
    rewrite Aw, Hws, Hw1'. cbn [fmap option_fmap option_map default ov].
    change (id v0) with v0.
    change (step (S n) (CExec (callback v v0)) aq) with (exec n (callback v v0) aq).
    destruct (exec n (callback v v0) aq) as [r sB|x sB|]; done.
Qed.

(** ** Components *)

Section ComponentFacts.
Import Component.

Lemma run_setup_current p : ∀ st,
  Lifecycle.currentInstance nat
    (match run_setup p st with Returned _ st' | Raised _ st' => st' end)
  = Lifecycle.currentInstance nat st.
Proof.
  induction p as [r|e|fn k IH|fn k IH]; intros st; simpl; [done..| |].
  - unfold Lifecycle.onMounted. destruct (Lifecycle.currentInstance nat st) eqn:E; simpl.
    + rewrite IH. done.
    + rewrite IH. done.
  - unfold Lifecycle.onUpdated. destruct (Lifecycle.currentInstance nat st) eqn:E; simpl.
    + rewrite IH. done.
    + rewrite IH. done.
Qed.

Lemma run_setup_instances p : ∀ st i inst,
  Lifecycle.currentInstance nat st = Some i →
  Lifecycle.instances nat st !! i = Some inst →
  Lifecycle.instances nat
    (match run_setup p st with Returned _ st' | Raised _ st' => st' end)
  = <[i := Lifecycle.mkInstance nat
             (Lifecycle.mkHooks nat
                (Lifecycle.mounted nat (Lifecycle.hooks nat inst) ++ registers_mounted p)
                (Lifecycle.updated nat (Lifecycle.hooks nat inst) ++ registers_updated p))
             (Lifecycle.isMounted nat inst)]> (Lifecycle.instances nat st).
Proof.
  induction p as [r|e|fn k IH|fn k IH]; intros st i inst Hc Hi; simpl.
  - rewrite !app_nil_r. destruct inst as [[m u] b]. simpl. by rewrite list_insert_id.
  - rewrite !app_nil_r. destruct inst as [[m u] b]. simpl. by rewrite list_insert_id.
  - unfold Lifecycle.onMounted. rewrite Hc.
    erewrite IH; [|done|simpl; by rewrite list_lookup_alter_eq, Hi].
    simpl. rewrite <- app_assoc. simpl.
    apply list_eq. intros j. destruct (decide (j = i)) as [->|Hne].
    + rewrite !list_lookup_insert_eq; [done|..].
      * by eapply lookup_lt_Some.
      * rewrite length_alter. by eapply lookup_lt_Some.
    + rewrite !list_lookup_insert_ne by done. by rewrite list_lookup_alter_ne.
  - unfold Lifecycle.onUpdated. rewrite Hc.
    erewrite IH; [|done|simpl; by rewrite list_lookup_alter_eq, Hi].
    simpl. rewrite <- app_assoc. simpl.
    apply list_eq. intros j. destruct (decide (j = i)) as [->|Hne].
    + rewrite !list_lookup_insert_eq; [done|..].
      * by eapply lookup_lt_Some.
      * rewrite length_alter. by eapply lookup_lt_Some.
    + rewrite !list_lookup_insert_ne by done. by rewrite list_lookup_alter_ne.
Qed.

(** X11.  [setupComponent] makes the instance current while [setup]
    runs: the hooks that [setup] registers with [onMounted] and
    [onUpdated] are appended to the lists of that instance, in the order
    of the calls, no other instance changes, and when [setup] has
    returned an object no instance is current any more. *)
Theorem setup_registers_hooks_in_order (i : nat) (su : setup_prog)
    (st st' : Lifecycle.lstate nat) (inst : Lifecycle.ComponentInstance nat)
    (state : gmap string value) :
  Lifecycle.instances nat st !! i = Some inst →
  setupComponent i su st = Returned state st' →
  Lifecycle.currentInstance nat st' = None ∧
  Lifecycle.instances nat st' =
    <[i := Lifecycle.mkInstance nat
             (Lifecycle.mkHooks nat
                (Lifecycle.mounted nat (Lifecycle.hooks nat inst) ++ registers_mounted su)
                (Lifecycle.updated nat (Lifecycle.hooks nat inst) ++ registers_updated su))
             (Lifecycle.isMounted nat inst)]> (Lifecycle.instances nat st).
Proof.
  intros Hi. unfold setupComponent.
  pose proof (run_setup_instances su (Lifecycle.enter_setup nat i st) i inst eq_refl Hi) as H.
  destruct (run_setup su (Lifecycle.enter_setup nat i st)) as [[r|] st1|e st1]; [|done..].
  intros [= _ <-]. split; [done|]. exact H.
Qed.

(** X12.  Nothing resets [currentInstance] when [setup] raises, or
    returns something that is not an object (so that [reactive] raises):
    the instance stays current after [setupComponent] has raised, and a
    hook registered later, outside of any [setup], is appended to the
    list of that instance. *)
Theorem failed_setup_leaves_its_instance_current (i : nat) (su : setup_prog)
    (st st' : Lifecycle.lstate nat) (inst : Lifecycle.ComponentInstance nat)
    (error : string) (fn : nat) :
  Lifecycle.instances nat st !! i = Some inst →
  setupComponent i su st = Raised error st' →
  Lifecycle.currentInstance nat st' = Some i ∧
  ∃ st'', Lifecycle.onMounted nat fn st' = Normal st'' ∧
          Lifecycle.mounted nat <$> (Lifecycle.hooks nat <$> Lifecycle.instances nat st'' !! i)
          = Some (Lifecycle.mounted nat (Lifecycle.hooks nat inst) ++ registers_mounted su ++ [fn]).
Proof.
  intros Hi. unfold setupComponent.
  pose proof (run_setup_instances su (Lifecycle.enter_setup nat i st) i inst eq_refl Hi) as H.
  pose proof (run_setup_current su (Lifecycle.enter_setup nat i st)) as Hc.
  assert (Hgoal : ∀ st1,
    Lifecycle.currentInstance nat st1 = Some i →
    Lifecycle.instances nat st1 =
      <[i := Lifecycle.mkInstance nat
               (Lifecycle.mkHooks nat
                  (Lifecycle.mounted nat (Lifecycle.hooks nat inst) ++ registers_mounted su)
                  (Lifecycle.updated nat (Lifecycle.hooks nat inst) ++ registers_updated su))
               (Lifecycle.isMounted nat inst)]> (Lifecycle.instances nat (Lifecycle.enter_setup nat i st)) →
    Lifecycle.currentInstance nat st1 = Some i ∧
    ∃ st'', Lifecycle.onMounted nat fn st1 = Normal st'' ∧
            Lifecycle.mounted nat <$> (Lifecycle.hooks nat <$> Lifecycle.instances nat st'' !! i)
            = Some (Lifecycle.mounted nat (Lifecycle.hooks nat inst) ++ registers_mounted su ++ [fn])).
  { intros st1 Hc1 Hi1. split; [done|]. unfold Lifecycle.onMounted. rewrite Hc1.
    eexists. split; [done|]. simpl. rewrite list_lookup_alter_eq, Hi1.
    rewrite list_lookup_insert_eq by (by eapply lookup_lt_Some). simpl.
    by rewrite <- app_assoc. }
  destruct (run_setup su (Lifecycle.enter_setup nat i st)) as [[r|] st1|e st1]; [done|..].
  - intros [= _ <-]. by apply Hgoal.
  - intros [= _ <-]. by apply Hgoal.
Qed.

(** ** The render effect *)

Section RenderFacts.
Variable raises : nat → option string.

Lemma call_hooks_returns hs arg : ∀ calls calls',
  call_hooks raises hs arg calls = (None, calls') →
  calls' = calls ++ ((λ h, (h, arg)) <$> hs).
Proof.
  induction hs as [|h hs IH]; intros calls calls'; simpl.
  - intros [= <-]. by rewrite app_nil_r.
  - destruct (raises h); [done|]. intros Hc. rewrite (IH _ _ Hc). by rewrite <- app_assoc.
Qed.

Lemma call_hooks_returns_fst hs arg calls calls' :
  call_hooks raises hs arg calls = (None, calls') → calls'.*1 = calls.*1 ++ hs.
Proof.
  intros H. rewrite (call_hooks_returns _ _ _ _ H), fmap_app. f_equal.
  clear. induction hs as [|h hs IH]; [done|]. rewrite !fmap_cons. simpl. by f_equal.
Qed.

Lemma render_effect_mounted subTree container m m' :
  render_effect raises subTree container m = Rendered m' →
  m_hooks m' = m_hooks m ∧ m_isMounted m' = true ∧
  (m_calls m').*1 = (m_calls m).*1 ++
    (if m_isMounted m then Lifecycle.updated nat (m_hooks m)
     else Lifecycle.mounted nat (m_hooks m)).
Proof.
  unfold render_effect. destruct (m_isMounted m).
  - destruct (Renderer.patch _ _ _ _) as [[n2 d]|]; [|done].
    destruct (call_hooks _ _ _ _) as [[e|] calls] eqn:E; [done|].
    intros [= <-]. simpl. split_and!; [done..|]. by eapply call_hooks_returns_fst.
  - destruct (Renderer.patch _ _ _ _) as [[n2 d]|]; [|done].
    destruct (call_hooks _ _ _ _) as [[e|] calls] eqn:E; [done|].
    intros [= <-]. simpl. split_and!; [done..|]. by eapply call_hooks_returns_fst.
Qed.

Lemma render_effects_updated ts container : ∀ m m',
  m_isMounted m = true →
  render_effects raises ts container m = Rendered m' →
  m_hooks m' = m_hooks m ∧
  (m_calls m').*1 = (m_calls m).*1 ++
    concat (replicate (length ts) (Lifecycle.updated nat (m_hooks m))).
Proof.
  induction ts as [|t ts IH]; intros m m' Hm; simpl.
  - intros [= <-]. by rewrite app_nil_r.
  - destruct (render_effect raises t container m) as [m1|e m1|e] eqn:E; [|done..].
    destruct (render_effect_mounted _ _ _ _ E) as (Hh & Hm1 & Hc). rewrite Hm in Hc.
    intros Hr. destruct (IH _ _ Hm1 Hr) as [Hh' Hc'].
    split; [congruence|]. rewrite Hc', Hc, Hh. by rewrite <- app_assoc.
Qed.

(** X13.  The hooks registered with [onMounted] are called at the first
    run of the render effect, each once and in the order of their
    registration, and at no later run; those registered with [onUpdated]
    are called, in order, at every later run, whether or not [patch] has
    changed the document. *)
Theorem mounted_hooks_once_updated_hooks_every_time (t0 : Renderer.vnode)
    (ts : list Renderer.vnode) (container : nat) (m m' : mounting) :
  m_isMounted m = false →
  render_effects raises (t0 :: ts) container m = Rendered m' →
  (m_calls m').*1 = (m_calls m).*1 ++ Lifecycle.mounted nat (m_hooks m) ++
                    concat (replicate (length ts) (Lifecycle.updated nat (m_hooks m))).
Proof.
  intros Hm. simpl.
  destruct (render_effect raises t0 container m) as [m1|e m1|e] eqn:E; [|done..].
  destruct (render_effect_mounted _ _ _ _ E) as (Hh & Hm1 & Hc). rewrite Hm in Hc.
  intros Hr. destruct (render_effects_updated _ _ _ _ Hm1 Hr) as [_ Hc'].
  rewrite Hc', Hc, Hh. by rewrite <- app_assoc.
Qed.

Lemma patch_first subTree container (d : list Renderer.host) n2 d' :
  Renderer.doc_ok d → Renderer.is_elem d container →
  Renderer.patch None subTree container d = Normal (n2, d') →
  Renderer.vnode_el n2 = Some (length d) ∧
  Renderer.doc_ok d' ∧ Renderer.is_elem d' container ∧
  Renderer.children_of d' container = Renderer.children_of d container ++ [length d] ∧
  (∀ i, i < length d → i ≠ container → d' !! i = d !! i).
Proof.
  intros Hok Hc. unfold Renderer.patch.
  destruct (Renderer.renderVNode subTree container None d) as [r|] eqn:Hr; [|done].
  destruct (renderVNode_rendered subTree container None d r Hok Hc) as [Hr1 Hrd]; [done..|].
  destruct (Renderer.set_el subTree r.1) as [n2'|] eqn:Hs; [|done].
  intros [= <- <-]. split_and!.
  - rewrite Hr1 in Hs. destruct subTree; simpl in Hs; [done|by injection Hs as <-..].
  - apply Hrd.
  - apply Hrd.
  - by rewrite (Renderer.r_parent _ _ _ _ _ Hrd).
  - apply Hrd.
Qed.


(** X15.  [mountComponent] runs [setup], then the render effect, once.
    When it returns, no instance is current, the component is mounted,
    its tree is recorded with its host node, the last child of the
    container, and the hooks that [setup] has registered with [onMounted]
    have been called, each once, in the order of their registration, with
    the rendered tree. *)
Theorem mount_calls_the_hooks_that_setup_registered (su : setup_prog)
    (rd : gmap string value → Renderer.vnode) (container : nat) (p : browser)
    (i : nat) (m : mounting) (st' : Lifecycle.lstate nat) :
  Renderer.doc_ok (p_dom p) → Renderer.is_elem (p_dom p) container →
  mountComponent raises su rd container p = Mounted i m st' →
  Lifecycle.currentInstance nat st' = None ∧
  m_isMounted m = true ∧
  m_hooks m = Lifecycle.mkHooks nat (registers_mounted su) (registers_updated su) ∧
  ∃ n2, m_vnode m = Some n2 ∧
        Renderer.vnode_el n2 = Some (length (p_dom p)) ∧
        Renderer.children_of (m_dom m) container
          = Renderer.children_of (p_dom p) container ++ [length (p_dom p)] ∧
        m_calls m = p_calls p ++ ((λ h, (h, n2)) <$> registers_mounted su).
Proof.
  intros Hok Hc. unfold mountComponent.
  set (st0 := Lifecycle.mkLState nat _ _).
  set (i0 := length (Lifecycle.instances nat (p_lifecycle p))).
  assert (Hi : Lifecycle.instances nat st0 !! i0 = Some (Lifecycle.new_instance nat)).
  { unfold st0, i0. simpl. by rewrite list_lookup_middle. }
  destruct (setupComponent i0 su st0) as [state st1|e st1] eqn:Hs; [|done].
  assert (Hcur : Lifecycle.currentInstance nat st1 = None ∧
                 Lifecycle.instances nat st1
                 = <[i0 := Lifecycle.mkInstance nat
                             (Lifecycle.mkHooks nat (registers_mounted su) (registers_updated su))
                             false]> (Lifecycle.instances nat st0)).
  { revert Hs. unfold setupComponent.
    pose proof (run_setup_instances su (Lifecycle.enter_setup nat i0 st0) i0 _ eq_refl Hi) as H.
    destruct (run_setup su (Lifecycle.enter_setup nat i0 st0)) as [[r|] st2|e st2]; [|done..].
    intros [= _ <-]. split; [done|]. exact H. }
  destruct Hcur as [Hcur Hinst].
  assert (Hhs : default (Lifecycle.createHookQueue nat)
                  (Lifecycle.hooks nat <$> Lifecycle.instances nat st1 !! i0)
                = Lifecycle.mkHooks nat (registers_mounted su) (registers_updated su)).
  { rewrite Hinst. by rewrite list_lookup_insert_eq by (by eapply lookup_lt_Some). }
  rewrite Hhs. unfold render_effect.
  cbn [m_isMounted m_vnode m_dom m_hooks m_calls Lifecycle.mounted].
  destruct (Renderer.patch None (rd state) container (p_dom p)) as [[n2 d]|] eqn:Hp;
    [|intros; discriminate].
  destruct (patch_first _ _ _ _ _ Hok Hc Hp) as (Hel & _ & _ & Hch & _).
  destruct (call_hooks raises (registers_mounted su) n2 (p_calls p)) as [[e|] calls] eqn:E;
    [intros; discriminate|].
  intros [= <- <- <-]. simpl. split_and!; [done..|].
  exists n2. split_and!; [done..|]. by eapply call_hooks_returns.
Qed.
End RenderFacts.

(** X16.  A component with no [setup] function cannot be mounted with
    [createApp]: [render] hands the node to [patch], [renderVNode] finds
    a node whose type is an object and hands it back to [render], and so
    on; no nesting depth is enough for a result. *)
Theorem root_without_setup_never_mounts (raises : nat → option string) (depth : nat)
    (c : component) (container : nat) (p : browser) :
  setup c = None → render_root raises depth c container p = None.
Proof. intros Hs. induction depth as [|depth IH]; simpl; [done|]. by rewrite Hs, IH. Qed.
End ComponentFacts.

(** X17.  Between two tasks no effect is running: whatever the program
    has done, effects and callbacks that raised included, the stack of
    effects is empty and no effect is active; so a read made by top-level
    code subscribes nothing. *)
Theorem no_effect_is_active_between_tasks (s : state) :
  reachable s →
  effectStack s = [] ∧ activeEffect s = None ∧ ∀ t f, track t f s = s.
Proof.
  intros Hr. destruct (reachable_idle s Hr) as [H1 H2].
  split_and!; [done..|]. intros t f. by apply track_top.
Qed.

(** ** [renderVNode] and [setProps] *)

Section RenderContract.
Import Renderer.






End RenderContract.

Section Children.
Import Renderer.

(** Attaching a node changes lists of children, and nothing else of any
    node. *)
Lemma attach_lookup parent el oldDom (d d' : document) i :
  attach parent el oldDom d = Normal d' →
  ∃ g, d' !! i = with_children g <$> d !! i.
Proof.
  unfold attach, appendChild, replaceChild.
  destruct oldDom as [old|]; destruct (d !! parent) as [[|e]|] eqn:E; try done.
  - case_decide; [|done]. case_decide.
    + intros [= <-]. exists id. destruct (d !! i) as [[|e0]|]; simpl; [done| |done].
      by destruct e0.
    + intros [= <-]. rewrite list_lookup_alter. unfold detach. rewrite !list_lookup_fmap.
      case_decide.
      * eexists (λ l, replace_first old el (filter (λ c, c ≠ el) l)).
        subst i. by rewrite E.
      * by eexists.
  - intros [= <-]. rewrite list_lookup_alter. unfold detach. rewrite !list_lookup_fmap.
    case_decide.
    + eexists (λ l, filter (λ c, c ≠ el) l ++ [el]).
      subst i. by rewrite E.
    + by eexists.
Qed.

Lemma mount_text parent oldDom el (d : document) r i s :
  mount parent oldDom (el, d) = Normal r → d !! i = Some (Text s) → r.2 !! i = Some (Text s).
Proof.
  unfold mount. simpl. destruct (attach parent el oldDom d) as [d'|] eqn:E; [|done].
  intros [= <-] Hi. simpl. destruct (attach_lookup _ _ _ _ _ i E) as [g ->]. by rewrite Hi.
Qed.

Lemma mount_tag parent oldDom el (d : document) r i e :
  mount parent oldDom (el, d) = Normal r → d !! i = Some (Elem e) →
  ∃ e', r.2 !! i = Some (Elem e') ∧ tagName e' = tagName e.
Proof.
  unfold mount. simpl. destruct (attach parent el oldDom d) as [d'|] eqn:E; [|done].
  intros [= <-] Hi. simpl. destruct (attach_lookup _ _ _ _ _ i E) as [g ->]. rewrite Hi.
  simpl. by eexists.
Qed.

Lemma setProp_tagName e key v e' : setProp e key v = Normal e' → tagName e' = tagName e.
Proof.
  unfold setProp. repeat case_decide.
  - by intros [= <-].
  - destruct v; by intros [= <-].
  - destruct (on_suffix key); [destruct v; [done|..]|]; by intros [= <-].
Qed.

Lemma setProps_element_tagName ps : ∀ e e',
  setProps_element e ps = Normal e' → tagName e' = tagName e.
Proof.
  induction ps as [|[k v] ps IH]; intros e e'; simpl; [by intros [= <-]|].
  destruct (setProp e k v) as [e1|] eqn:E; [|done].
  intros H. rewrite (IH _ _ H). by eapply setProp_tagName.
Qed.

(** The children of the new element [el], while strings are rendered
    under it one after the other. *)
Lemma forEach_strings el tag strs : ∀ (dk d3 : document) cs0 ss0,
  doc_ok dk → (∃ e, dk !! el = Some (Elem e) ∧ tagName e = tag) →
  children_of dk el = cs0 →
  Forall2 (λ c s, dk !! c = Some (Text s)) cs0 ss0 →
  forEach_child (λ child d, renderVNode child el None d) (VString <$> strs) dk = Normal d3 →
  (∃ e, d3 !! el = Some (Elem e) ∧ tagName e = tag) ∧
  Forall2 (λ c s, d3 !! c = Some (Text s)) (children_of d3 el) (ss0 ++ strs).
Proof.
  induction strs as [|s strs IH]; intros dk d3 cs0 ss0 Hok He Hch Hall; simpl.
  - intros [= <-]. split; [done|]. by rewrite Hch, app_nil_r.
  - destruct (mount el None (createTextNode s dk)) as [r|] eqn:Hm; [|done].
    assert (Hel : is_elem dk el) by (destruct He as (e & He & _); by exists e).
    destruct (leaf_rendered el None dk (Text s) r Hok Hel) as [Hr1 Hrd]; [done| |done|].
    { unfold children_of. by rewrite list_lookup_middle. }
    intros Hf. rewrite (app_assoc ss0 [s] strs : ss0 ++ s :: strs = (ss0 ++ [s]) ++ strs).
    apply (IH r.2 d3 (cs0 ++ [length dk]) (ss0 ++ [s])); [apply Hrd| | | |done].
    + destruct He as (e & He & Ht).
      destruct (mount_tag _ _ _ _ _ el e Hm) as (e' & He' & Ht').
      { unfold createTextNode. simpl. apply lookup_app_l_Some. done. }
      exists e'. split; [done|congruence].
    + rewrite (r_parent _ _ _ _ _ Hrd). simpl. by rewrite Hch.
    + apply Forall2_app.
      * eapply Forall2_impl; [done|]. intros c s' Hc. simpl in Hc.
        eapply mount_text; [done|]. unfold createTextNode. simpl. by apply lookup_app_l_Some.
      * constructor; [|constructor]. eapply mount_text; [done|].
        unfold createTextNode. simpl. by rewrite list_lookup_middle.
Qed.

(** The nodes other than [parent], when the new node hangs nowhere yet. *)
Lemma mount_others parent oldDom (d d3 : document) r i :
  doc_ok d → rendering d d3 → parent < length d →
  (∀ old, oldDom = Some old → old < length d) →
  mount parent oldDom (length d, d3) = Normal r →
  i ≠ parent → r.2 !! i = d3 !! i.
Proof.
  intros Hok [Hg Hok3 Hfr He Hn] Hpar Hold. unfold mount. simpl.
  destruct (attach parent (length d) oldDom d3) as [d'|] eqn:Ha; [|done].
  intros [= <-] Hi. simpl.
  assert (Hnot : ∀ j, j ≠ parent → length d ∉ children_of d3 j).
  { intros j Hj Hin. destruct (decide (j < length d)) as [Hlt|Hge].
    - unfold children_of in Hin. rewrite (Hfr j Hlt) in Hin.
      pose proof (Hok j (length d) Hin). lia.
    - pose proof (Hn j (length d) ltac:(lia) Hin). lia. }
  assert (Hold' : ∀ old, oldDom = Some old → old ≠ length d).
  { intros old Ho. specialize (Hold old Ho). lia. }
  destruct (attach_spec _ _ _ _ _ Ha Hnot Hold') as [_ ->].
  by rewrite list_lookup_alter_ne.
Qed.

(** X20.  A node with a tag and no [text], whose [children] is an array
    of strings, is rendered as an element of that tag whose children are
    text nodes, one for each string, holding the strings in the order of
    the array. *)
Theorem string_children_become_text_nodes_in_order (tag : string)
    (props : option (list (string * propval))) (ref : nat) (strs : list string)
    (el0 : option node) (parent : node) (oldDom : option node) (d : document)
    (r : node * document) :
  doc_ok d → is_elem d parent →
  (∀ old, oldDom = Some old → old ∈ children_of d parent) →
  renderVNode (VObject (TTag tag) "" props (ArrayChildren ref) (VString <$> strs) el0)
    parent oldDom d = Normal r →
  ∃ e, r.2 !! r.1 = Some (Elem e) ∧ tagName e = tag ∧
       (λ c, r.2 !! c) <$> childNodes e = (λ s, Some (Text s)) <$> strs.
Proof.
  intros Hok Hpar Hold. cbn [renderVNode]. rewrite decide_False by (intros H; by apply H).
  cbn [createElement].
  set (fresh := mkElement tag "" None [] [] [] []).
  destruct (match props with Some ps => setProps (length d) ps (d ++ [Elem fresh]) | None => Normal (d ++ [Elem fresh]) end)
    as [d2|] eqn:Hprops; [|done].
  assert (H2 : rendering d d2 ∧ ∃ e, d2 !! length d = Some (Elem e) ∧ tagName e = tag ∧ childNodes e = []).
  { destruct props as [ps|].
    - pose proof Hprops as Hp0. unfold setProps in Hp0. rewrite list_lookup_middle in Hp0 by done.
      destruct (setProps_element fresh ps) as [e'|] eqn:Es; [|done]. injection Hp0 as <-.
      pose proof (setProps_element_tagName _ _ _ Es) as Ht.
      pose proof (setProps_element_childNodes _ _ _ Es) as Hc.
      rewrite insert_last. split; [by apply rendering_element|].
      exists e'. by rewrite list_lookup_middle.
    - injection Hprops as <-. split; [by apply rendering_element|].
      exists fresh. by rewrite list_lookup_middle. }
  destruct H2 as [H2 (e2 & He2 & Ht2 & Hc2)].
  destruct (forEach_child _ _ d2) as [d3|] eqn:Hch; [|done].
  assert (H3 : rendering d d3).
  { eapply (forEach_child_rendering _ d (VString <$> strs) d2 d3); [|done|done].
    apply Forall_forall. intros child Hin dk r' Hokk Hek Hr.
    destruct (renderVNode_rendered child (length d) None dk r' Hokk Hek) as [Hel' Hrd]; [done..|].
    by rewrite Hel'. }
  destruct (forEach_strings (length d) tag strs d2 d3 [] [] (g_ok _ _ H2)) as [(e3 & He3 & Ht3) Hall].
  { by exists e2. }
  { unfold children_of. by rewrite He2, Hc2. }
  { constructor. }
  { exact Hch. }
  intros Hm.
  pose proof (is_elem_lt _ _ Hpar) as Hplt.
  assert (Hold' : ∀ old, oldDom = Some old → old < length d).
  { intros old Ho. apply (Hok parent). by apply Hold. }
  destruct (rendering_mount parent oldDom d d3 r Hok Hpar Hold' H3 Hm) as [Hr1 Hrd].
  assert (Hoth : ∀ i, i ≠ parent → r.2 !! i = d3 !! i).
  { intros i Hi. by eapply (mount_others parent oldDom d d3). }
  exists e3. rewrite Hr1. split_and!.
  - rewrite Hoth by lia. done.
  - done.
  - unfold children_of in Hall. rewrite He3 in Hall. simpl in Hall.
    assert (Hgt : ∀ c, c ∈ childNodes e3 → c ≠ parent).
    { intros c Hc. pose proof (g_new _ _ H3 (length d) c ltac:(lia)) as Hlt.
      unfold children_of in Hlt. rewrite He3 in Hlt. specialize (Hlt Hc). lia. }
    clear -Hall Hoth Hgt. revert Hgt. induction Hall as [|c s cs ss Hc _ IH]; intros Hgt; [done|].
    rewrite !fmap_cons. f_equal.
    + rewrite Hoth by (apply Hgt; by left). done.
    + apply IH. intros c' Hc'. apply Hgt. by right.
Qed.
End Children.

Lemma foldl_enqueue_computeds l : ∀ s,
  computeds (foldl (λ s x, enqueue x s) s l) = computeds s.
Proof. induction l as [|x l IH]; intros s; [done|]. simpl. by rewrite IH. Qed.

Lemma update_flag_in_queue s : flags_ok s → updatePendding s = true → FlushUpdate ∈ microtasks s.
Proof.
  intros Hf Hp. pose proof (f_update _ Hf) as H. rewrite Hp in H.
  destruct (filter_length_elem is_update (microtasks s)) as ([|p] & Hin & Hx); [lia|done..].
Qed.

Lemma scheduler_of_frame s s' x : effects s' = effects s → scheduler_of s' x = scheduler_of s x.
Proof. unfold scheduler_of. by intros ->. Qed.

(** X21.  An assignment to a property that the getter of a computed value
    has read evaluates nothing: the computed value is marked as out of
    date, and the effects that have read it are put in the update queue,
    like the effects that have read the property itself; a flush is
    scheduled.  (The subscribers other than the computed value are
    effects without scheduler.) *)
Theorem change_under_a_computed_queues_its_readers (n : nat) (s : state) (t : target) (f : key)
    (v : value) (k : prog) (c : cid) (cc : computed_cell) (l1 l2 : list eid) :
  reachable s →
  computeds s !! c = Some cc →
  bucket s t f = Some (l1 ++ computedEffect cc :: l2) →
  (∀ x, x ∈ l1 ++ l2 → scheduler_of s x = None) →
  (∀ x, x ∈ default [] (bucket s (computedObj cc) "value") → scheduler_of s x = None) →
  ∃ s', exec (S n) (Put t f v k) s = exec (S n) k s' ∧
    dirty <$> computeds s' !! c = Some true ∧
    (∀ x, x ∈ default [] (bucket s (computedObj cc) "value") → x ∈ updateQueue s') ∧
    (∀ x, x ∈ l1 ++ l2 → x ∈ updateQueue s') ∧
    updatePendding s' = true ∧ FlushUpdate ∈ microtasks s' ∧
    trace s' = trace s ++ [EvSet t f v].
Proof.
  intros Hr Hc Hb Hl Hlr.
  pose proof (reachable_sane s Hr) as Hs. pose proof (reachable_flags s Hr) as Hf.
  pose proof (sane_cell _ Hs _ _ Hc) as Hsch.
  set (ec := computedEffect cc) in *. set (cobj := computedObj cc) in *.
  set (lr := default [] (bucket s cobj "value")) in *.
  set (s0 := log (EvSet t f v) (reflect_set t f v s)).
  set (sa := foldl (λ s x, enqueue x s) s0 l1).
  destruct (foldl_enqueue_frame l1 s0) as (_ & Atm & Ae & Ami & Ap & Atr & Aq). fold sa in Atm, Ae, Ami, Ap, Atr, Aq.
  pose proof (foldl_enqueue_computeds l1 s0) as Ac. fold sa in Ac.
  set (sb := set_computeds (alter mark_dirty c) sa).
  set (sc := foldl (λ s x, enqueue x s) sb lr).
  destruct (foldl_enqueue_frame lr sb) as (_ & Ctm & Ce & Cmi & Cp & Ctr & Cq). fold sc in Ctm, Ce, Cmi, Cp, Ctr, Cq.
  pose proof (foldl_enqueue_computeds lr sb) as Cc. fold sc in Cc.
  set (sd := match bucket s cobj "value" with
             | Some _ => if updatePendding sc then sc else schedule_flush sc
             | None => sb
             end).
  assert (Hd : effects sd = effects s ∧ targetMap sd = targetMap s ∧
               computeds sd = alter mark_dirty c (computeds s) ∧
               trace sd = trace s ++ [EvSet t f v] ∧
               (∀ x, x ∈ lr ∨ x ∈ l1 → x ∈ updateQueue sd) ∧
               (updatePendding sd = true → FlushUpdate ∈ microtasks sd)).
  { assert (Hb0 : effects sb = effects s ∧ targetMap sb = targetMap s ∧
               computeds sb = alter mark_dirty c (computeds s) ∧
               trace sb = trace s ++ [EvSet t f v]).
    { unfold sb. cbn [effects targetMap computeds trace set_computeds].
      rewrite Ae, Atm, Ac, Atr. done. }
    destruct Hb0 as (B1 & B2 & B3 & B4).
    assert (Hpend : ∀ s1 : state, microtasks s1 = microtasks s → updatePendding s1 = updatePendding s →
              updatePendding s1 = true → FlushUpdate ∈ microtasks s1).
    { intros s1 Hm Hp Ht. rewrite Hm. apply (update_flag_in_queue s Hf). by rewrite <- Hp. }
    assert (Hsb : microtasks sb = microtasks s ∧ updatePendding sb = updatePendding s).
    { unfold sb. cbn [microtasks updatePendding set_computeds]. by rewrite Ami, Ap. }
    destruct Hsb as [B5 B6].
    unfold sd. destruct (bucket s cobj "value") as [l|] eqn:El.
    - assert (Hq : ∀ x, x ∈ lr ∨ x ∈ l1 → x ∈ updateQueue sc).
      { intros x Hx. apply Cq. destruct Hx as [Hx|Hx]; [by left|right].
        change (x ∈ updateQueue sa). apply Aq. by left. }
      assert (Hpc : updatePendding sc = true → FlushUpdate ∈ microtasks sc).
      { apply Hpend; [rewrite Cmi|rewrite Cp]; done. }
      destruct (updatePendding sc) eqn:Ep.
      + rewrite Ce, Ctm, Cc, Ctr. split_and!; try done. intros _. by apply Hpc.
      + cbn [effects targetMap computeds trace schedule_flush set_microtasks set_update updateQueue microtasks].
        rewrite Ce, Ctm, Cc, Ctr. split_and!; try done.
        intros _. apply elem_of_app. right. by left.
    - split_and!; try done.
      + intros x [Hx|Hx]; [by apply elem_of_nil in Hx|].
        change (x ∈ updateQueue sa). apply Aq. by left.
      + apply (Hpend sb); done. }
  destruct Hd as (De & Dtm & Dc & Dtr & Dq & Dp).
  set (se := foldl (λ s x, enqueue x s) sd l2).
  destruct (foldl_enqueue_frame l2 sd) as (_ & Etm & Ee & Emi & Ep & Etr & Eq). fold se in Etm, Ee, Emi, Ep, Etr, Eq.
  pose proof (foldl_enqueue_computeds l2 sd) as Ec. fold se in Ec.
  exists (if updatePendding se then se else schedule_flush se). split.
  - unfold exec at 1. cbn [exec_body]. fold s0.
    unfold trigger_body.
    assert (Hb0 : bucket s0 t f = Some (l1 ++ ec :: l2)) by done.
    unfold bucket in Hb0. destruct (targetMap s0 !! t) as [depMap|]; [|done].
    simpl in Hb0. rewrite Hb0.
    rewrite notify_app, (notify_default _ l1 s0).
    2:{ intros x Hx. change (scheduler_of s x = None). apply Hl, elem_of_app. by left. }
    fold sa. cbn [notify].
    rewrite (scheduler_of_frame s sa ec) by done. rewrite Hsch. cbn [run_scheduler].
    rewrite Ac. change (computeds s0) with (computeds s). rewrite Hc. fold cobj. fold sb.
    change (step (S n) (CTrigger cobj "value") sb) with (trigger_body (step n) cobj "value" sb).
    assert (Hinner : trigger_body (step n) cobj "value" sb = Ok VUndef sd).
    { unfold trigger_body, sd, lr in *. unfold bucket in *.
      change (targetMap sb) with (targetMap sa). rewrite Atm.
      change (targetMap s0) with (targetMap s).
      destruct (targetMap s !! cobj) as [dm|]; [|done]. simpl in *.
      destruct (dm !! "value") as [l|]; [|done]. simpl in *.
      rewrite (notify_default _ l sb); [done|].
      intros x Hx. rewrite (scheduler_of_frame s sb x) by (by rewrite <- Ae). by apply Hlr. }
    rewrite Hinner.
    rewrite (notify_default _ l2 sd).
    2:{ intros x Hx. rewrite (scheduler_of_frame s sd x) by done. apply Hl, elem_of_app. by right. }
    fold se. done.
  - assert (Hq : ∀ x, x ∈ lr ∨ x ∈ l1 ++ l2 → x ∈ updateQueue se).
    { intros x Hx. apply Eq. rewrite elem_of_app in Hx. destruct Hx as [Hx|[Hx|Hx]]; auto. }
    destruct (updatePendding se) eqn:Epe.
    + rewrite Ec, Dc, Etr, Emi. split_and!; auto.
      all: first [by rewrite list_lookup_alter_eq, Hc | apply Dp; by rewrite <- Ep].
    + cbn [computeds trace updateQueue updatePendding microtasks schedule_flush set_microtasks set_update].
      rewrite Ec, Dc, Etr. split_and!; auto.
      all: first [by rewrite list_lookup_alter_eq, Hc | apply elem_of_app; right; by left].
Qed.

(** ** The states of the example programs can be reached *)

Lemma reachable_init : reachable init.
Proof. apply rtc_refl. Qed.

Lemma reachable_step s s' : reachable s → happens s s' → reachable s'.
Proof. intros Hr Hh. by eapply rtc_r. Qed.

Lemma reachable_exec n p s :
  reachable s → exec n p s ≠ OutOfFuel → reachable (outcome_state (exec n p s)).
Proof.
  intros Hr Hne. destruct (exec n p s) as [v s'|x s'|] eqn:E; [| |done]; simpl.
  - eapply reachable_step; [done|]. by eapply happens_later, later_returns.
  - eapply reachable_step; [done|]. by eapply happens_later, later_raises.
Qed.

Lemma reachable_watchEffect n g s :
  reachable s → is_Some (watchEffect n g s) → reachable (state_after (watchEffect n g s)).
Proof.
  intros Hr [[e o] E]. rewrite E. eapply reachable_step; [done|].
  replace (state_after (Some (e, o))) with (outcome_state o) by (by destruct o).
  by eapply happens_watchEffect.
Qed.

Lemma reachable_counter_setup : reachable counter_setup.
Proof.
  unfold counter_setup. cbv zeta. apply reachable_watchEffect.
  - eapply reachable_step; [apply reachable_init|apply happens_reactive].
  - vm_compute. by eexists.
Qed.

Lemma reachable_stale_setup : reachable stale_setup.
Proof.
  unfold stale_setup. cbv zeta. apply reachable_watchEffect.
  - eapply reachable_step; [apply reachable_init|apply happens_reactive].
  - vm_compute. by eexists.
Qed.

Lemma reachable_cell_setup : reachable cell_setup.
Proof. eapply reachable_step; [apply reachable_init|apply happens_reactive]. Qed.

Lemma reachable_computed_setup : reachable computed_setup.
Proof.
  unfold computed_setup. apply reachable_watchEffect.
  - eapply reachable_step; [apply reachable_cell_setup|apply happens_computed].
  - vm_compute. by eexists.
Qed.

Lemma reachable_raising_setup : reachable raising_setup.
Proof.
  unfold raising_setup. cbv zeta. apply reachable_exec; [|by vm_compute].
  apply reachable_watchEffect.
  - eapply reachable_step; [apply reachable_init|apply happens_reactive].
  - vm_compute. by eexists.
Qed.

Lemma reachable_two_ticks : reachable two_ticks.
Proof. unfold two_ticks. apply reachable_exec; [apply reachable_init|by vm_compute]. Qed.

Lemma doc_ok_page : Renderer.doc_ok page.
Proof. intros i c Hc. destruct i as [|[|i]]; vm_compute in Hc; by apply elem_of_nil in Hc. Qed.

Lemma is_elem_page : Renderer.is_elem page 0.
Proof. eexists. reflexivity. Qed.

Lemma reader_branching : reader branching.
Proof.
  apply reader_get. intros v.
  destruct v as [| |[]| |]; apply reader_get; intros x; apply reader_emit, reader_ret.
Qed.

(** ** The theorems, on these programs *)

Lemma run_restores_the_active_effect_witness :
  let s' := outcome_state (run 1 0 raising_setup) in
  effectStack s' = effectStack raising_setup ∧ activeEffect s' = activeEffect raising_setup.
Proof.
  intros s'.
  apply (run_restores_the_active_effect 1 0 raising_setup s' (VStr "boom")).
  - vm_compute. reflexivity.
  - right. vm_compute. reflexivity.
Defined.

Lemma disposed_effect_never_runs_again_witness :
  runs_of 0 (trace counter_disposed) = runs_of 0 (trace counter_setup) ∧
  (0 ∉ updateQueue counter_disposed) ∧
  (∀ t f, 0 ∉ default [] (bucket counter_disposed t f)).
Proof.
  apply (disposed_effect_never_runs_again 0 counter_setup counter_disposed).
  - apply reachable_counter_setup.
  - exists (mkEffect (Get 0 "count" (λ v, Emit v (Ret VUndef))) [(0, "count")] (Some 0%Z) None).
    vm_compute. reflexivity.
  - intros c. vm_compute. discriminate.
  - replace (updateQueue counter_setup) with (@nil eid) by (vm_compute; reflexivity).
    apply not_elem_of_nil.
  - apply rtc_once, happens_later.
    apply (later_returns 1 (Put 0 "count" (VNum 1) (Ret VUndef)) (dispose 0 counter_setup)
             VUndef counter_disposed).
    vm_compute. reflexivity.
Defined.

Lemma dispose_unsubscribes_from_every_key_witness :
  0 ∉ default [] (bucket (dispose 0 counter_setup) 0 "count").
Proof.
  apply (dispose_unsubscribes_from_every_key 0 counter_setup 0 "count").
  apply reachable_counter_setup.
Defined.

Lemma update_flag_tells_the_queued_flush_witness :
  (updatePendding raising_setup = true ↔ FlushUpdate ∈ microtasks raising_setup) ∧
  length (filter is_update (microtasks raising_setup)) ≤ 1.
Proof.
  apply (update_flag_tells_the_queued_flush raising_setup). apply reachable_raising_setup.
Defined.

Lemma next_tick_flag_tells_the_queued_job_witness :
  (nextTickPending two_ticks = true ↔ ∃ p, FlushTick p ∈ microtasks two_ticks) ∧
  length (filter is_tick (microtasks two_ticks)) ≤ 1 ∧
  (nextTickCallbacks two_ticks ≠ [] →
   ∃ p, FlushTick p ∈ microtasks two_ticks ∧ promises two_ticks !! p = Some Pending).
Proof.
  apply (next_tick_flag_tells_the_queued_job two_ticks). apply reachable_two_ticks.
Defined.


Lemma flush_that_raises_keeps_the_queue_witness :
  let s := set_microtasks tail raising_setup in
  let s' := outcome_state (flush_update 1 s) in
  updateQueue s `prefix_of` updateQueue s' ∧ NoDup (updateQueue s').
Proof.
  intros s s'.
  apply (flush_that_raises_keeps_the_queue 1 s s' (VStr "boom")).
  - split.
    + intros c cc H. vm_compute in H. discriminate.
    + intros w wr H. vm_compute in H. discriminate.
    + intros x Hx. replace (updateQueue s) with [0] in Hx by (vm_compute; reflexivity).
      apply list_elem_of_singleton in Hx. subst x. vm_compute. reflexivity.
  - replace (updateQueue s) with [0] by (vm_compute; reflexivity). apply NoDup_singleton.
  - vm_compute. reflexivity.
Defined.

Lemma run_subscribes_to_what_it_reads_witness :
  ∃ v s', run 2 0 stale_setup = Ok v s' ∧
    ∀ t f, 0 ∈ default [] (bucket s' t f) ↔
           ∃ w, EvGet t f w ∈ drop (length (trace stale_setup)) (trace s').
Proof.
  apply (run_subscribes_to_what_it_reads 2 0 stale_setup
           (mkEffect branching [(0, "flag"); (0, "a")] (Some 0%Z) None)).
  - apply reachable_stale_setup.
  - vm_compute. reflexivity.
  - apply reader_branching.
Defined.

Lemma ref_round_trip_witness :
  let h := (ref (VNum 1) init).1 in
  let s1 := (ref (VNum 1) init).2 in
  (∃ s2, exec 0 (get_value h Ret) s1 = Ok (VNum 1) s2) ∧
  (∃ s3, exec 0 (set_value h (VNum 2) (get_value h Ret)) s1 = Ok (VNum 2) s3 ∧
         targetMap s3 = targetMap init ∧ updateQueue s3 = updateQueue init ∧
         microtasks s3 = microtasks init).
Proof.
  apply (ref_round_trip 0 (VNum 1) (VNum 2) init).
  - reflexivity.
  - reflexivity.
Defined.

Lemma watch_callback_gets_new_and_old_value_witness :
  ∃ e s1 sA,
    watch 1 (Get 0 "count" Ret) both_values cell_setup = Some (e, Ok VUndef s1) ∧
    trace s1 = trace cell_setup ++ [EvRun e; EvGet 0 "count" (reflect_get 0 "count" cell_setup)] ∧
    trace sA = trace s1 ++ [EvSet 0 "count" (VNum 5); EvRun e; EvGet 0 "count" (VNum 5)] ∧
    reflect_get 0 "count" sA = VNum 5 ∧
    exec 2 (Put 0 "count" (VNum 5) (Ret VUndef)) s1 =
      match exec 1 (both_values (VNum 5) (reflect_get 0 "count" cell_setup)) sA with
      | Ok _ sB =>
          let sC := set_watchers (alter (store_ov (VNum 5)) (length (watchers cell_setup))) sB in
          exec 2 (Ret VUndef) (if updatePendding sC then sC else schedule_flush sC)
      | o => o
      end.
Proof.
  apply (watch_callback_gets_new_and_old_value 1 cell_setup 0 "count" both_values
           (VNum 5) (Ret VUndef)).
  - apply reachable_cell_setup.
  - vm_compute. lia.
  - intros l x Hb. vm_compute in Hb. discriminate.
Defined.

Lemma change_under_a_computed_queues_its_readers_witness :
  ∃ s', exec 1 (Put 0 "count" (VNum 5) (Ret VUndef)) computed_setup = exec 1 (Ret VUndef) s' ∧
    dirty <$> computeds s' !! 0 = Some true ∧
    (∀ x, x ∈ default [] (bucket computed_setup
                            (computedObj (mkComputed 1 0 false (VNum 2))) "value") →
          x ∈ updateQueue s') ∧
    (∀ x, x ∈ [] ++ [] → x ∈ updateQueue s') ∧
    updatePendding s' = true ∧ FlushUpdate ∈ microtasks s' ∧
    trace s' = trace computed_setup ++ [EvSet 0 "count" (VNum 5)].
Proof.
  apply (change_under_a_computed_queues_its_readers 0 computed_setup 0 "count" (VNum 5)
           (Ret VUndef) 0 (mkComputed 1 0 false (VNum 2)) [] []).
  - apply reachable_computed_setup.
  - vm_compute. reflexivity.
  - vm_compute. reflexivity.
  - intros x Hx. by apply elem_of_nil in Hx.
  - intros x Hx.
    replace (default [] (bucket computed_setup (computedObj (mkComputed 1 0 false (VNum 2))) "value"))
      with [1] in Hx by (vm_compute; reflexivity).
    apply list_elem_of_singleton in Hx. subst x. vm_compute. reflexivity.
Defined.

Lemma no_effect_is_active_between_tasks_witness :
  effectStack raising_setup = [] ∧ activeEffect raising_setup = None ∧
  ∀ t f, track t f raising_setup = raising_setup.
Proof.
  apply (no_effect_is_active_between_tasks raising_setup). apply reachable_raising_setup.
Defined.

Lemma setup_registers_hooks_in_order_witness :
  let st' := Lifecycle.mkLState nat
               [Lifecycle.mkInstance nat (Lifecycle.mkHooks nat [1; 3] [2]) false] None in
  Lifecycle.currentInstance nat st' = None ∧
  Lifecycle.instances nat st' =
    [Lifecycle.mkInstance nat (Lifecycle.mkHooks nat [1; 3] [2]) false].
Proof.
  intros st'.
  apply (setup_registers_hooks_in_order 0 hooks_setup one_instance st'
           (Lifecycle.new_instance nat) ∅).
  - reflexivity.
  - reflexivity.
Defined.

Lemma failed_setup_leaves_its_instance_current_witness :
  let st' := Lifecycle.mkLState nat
               [Lifecycle.mkInstance nat (Lifecycle.mkHooks nat [1] []) false] (Some 0) in
  Lifecycle.currentInstance nat st' = Some 0 ∧
  ∃ st'', Lifecycle.onMounted nat 7 st' = Normal st'' ∧
    Lifecycle.mounted nat <$> (Lifecycle.hooks nat <$> Lifecycle.instances nat st'' !! 0)
    = Some [1; 7].
Proof.
  intros st'.
  apply (failed_setup_leaves_its_instance_current 0 failing_setup one_instance st'
           (Lifecycle.new_instance nat) "boom" 7).
  - reflexivity.
  - reflexivity.
Defined.

Lemma mounted_hooks_once_updated_hooks_every_time_witness :
  let m' := mounting_of (Component.render_effects no_raise [tree1; tree3; tree1] 0 fresh_mounting) in
  (Component.m_calls m').*1 = [] ++ [1; 3] ++ concat (replicate 2 [2]).
Proof.
  intros m'.
  apply (mounted_hooks_once_updated_hooks_every_time no_raise tree1 [tree3; tree1] 0
           fresh_mounting m').
  - reflexivity.
  - vm_compute. reflexivity.
Defined.


Lemma mount_calls_the_hooks_that_setup_registered_witness :
  let r := Component.mountComponent no_raise hooks_setup (λ _, tree1) 0 empty_page in
  let m := (mounted_of r).2 in
  Lifecycle.currentInstance nat (lifecycle_of r) = None ∧
  Component.m_isMounted m = true ∧
  Component.m_hooks m = Lifecycle.mkHooks nat (Component.registers_mounted hooks_setup)
                          (Component.registers_updated hooks_setup) ∧
  ∃ n2, Component.m_vnode m = Some n2 ∧
        Renderer.vnode_el n2 = Some (length (Component.p_dom empty_page)) ∧
        Renderer.children_of (Component.m_dom m) 0
          = Renderer.children_of (Component.p_dom empty_page) 0
            ++ [length (Component.p_dom empty_page)] ∧
        Component.m_calls m
          = Component.p_calls empty_page
            ++ ((λ h, (h, n2)) <$> Component.registers_mounted hooks_setup).
Proof.
  intros r m.
  apply (mount_calls_the_hooks_that_setup_registered no_raise hooks_setup (λ _, tree1) 0
           empty_page (mounted_of r).1 m (lifecycle_of r)).
  - apply doc_ok_page.
  - apply is_elem_page.
  - vm_compute. reflexivity.
Defined.

Lemma root_without_setup_never_mounts_witness :
  Component.render_root no_raise 5 (Component.mkComponent None (λ _, tree1)) 0 empty_page = None.
Proof.
  apply (root_without_setup_never_mounts no_raise 5). reflexivity.
Defined.



Lemma string_children_become_text_nodes_in_order_witness :
  let r := completed (0, page) (Renderer.renderVNode two_strings 0 None page) in
  ∃ e, r.2 !! r.1 = Some (Renderer.Elem e) ∧ Renderer.tagName e = "p" ∧
       (λ c, r.2 !! c) <$> Renderer.childNodes e =
       (λ s, Some (Renderer.Text s)) <$> ["two"; "three"].
Proof.
  intros r.
  apply (string_children_become_text_nodes_in_order "p" None 2 ["two"; "three"] None 0 None
           page r).
  - apply doc_ok_page.
  - apply is_elem_page.
  - intros old Hold. discriminate.
  - vm_compute. reflexivity.
Defined.
